(** * UNECM: the decoder for the ECM (Error Code Modeler) format

    A shallow embedding of [src/unecm.c] and the properties of its
    lookup tables, checksum, parity and stream decoding.

    Conventions of the embedding.
    - C integers are values of [Z]; every conversion to a narrower or
      wrapping type is written out ([wrap8], [wrap16], [wrap32], [uint64]).
      The xor of two bytes and an entry of a byte table are bytes, so
      the assignments to [ecc_a] and [ecc_b] need none.
    - The 2352-byte [sector] array is a [list Z]; a pointer into it is a
      [nat] offset; [a[i] = v] is stdpp's [<[i:=v]> a] and a block copy
      into the array is [list_inserts].
    - The static tables are a record [luts] threaded explicitly; [tables]
      is their value after [eccedc_init], which [main] runs before
      [unecmify].
    - [unecmify] is a computation in a state-and-failure monad over the
      input stream, the output stream, the running checksum and the
      sector buffer.  Progress and size messages on stderr are not
      modelled in it ([GetByteSize] and [setcounter], which make them,
      are modelled on their own); the four ways the function leaves
      with status 1 are told apart by the constructor of [failure].
    - [main] is a function of the command line and of what [fopen]
      gives for the two file names. *)

From Stdlib Require Import ZArith Lia String Ascii.
From stdpp Require Import base list strings pretty.

Local Open Scope Z_scope.

(** ** Machine integers *)

Definition wrap8 (x : Z) : Z := x mod 2 ^ 8.
Definition wrap16 (x : Z) : Z := x mod 2 ^ 16.
Definition wrap32 (x : Z) : Z := x mod 2 ^ 32.
(** The low 64 bits: the bit pattern of an [off_t] of a build with
    [_FILE_OFFSET_BITS] 64. *)
Definition uint64 (x : Z) : Z := x mod 2 ^ 64.

(** [a[i]] for an array of integers; an index outside the array reads 0
    (C leaves it undefined; no theorem below depends on such a read). *)
Definition rd (a : list Z) (i : Z) : Z := default 0 (a !! Z.to_nat i).

(** [for (i = lo; i < lo + n; i++) s = body i s]. *)
Fixpoint for_loop {S : Type} (n : nat) (i : Z) (body : Z -> S -> S) (s : S) : S :=
  match n with
  | O => s
  | Datatypes.S n' => for_loop n' (i + 1) body (body i s)
  end.

(** ** Lookup tables ([ecc_f_lut], [ecc_b_lut], [edc_lut]) *)

Record luts := Luts {
  ecc_f_lut : list Z;
  ecc_b_lut : list Z;
  edc_lut : list Z
}.

(** Static storage is zero-initialised. *)
Definition luts_static : luts :=
  Luts (replicate 256 0) (replicate 256 0) (replicate 256 0).

Definition edc_shift (edc : Z) : Z :=
  Z.lxor (Z.shiftr edc 1) (if Z.land edc 1 =? 0 then 0 else 0xD8018001).

Definition eccedc_init_body (i : Z) (L : luts) : luts :=
  let j := Z.lxor (wrap32 (Z.shiftl i 1)) (if Z.land i 0x80 =? 0 then 0 else 0x11D) in
  let f := <[Z.to_nat i := wrap8 j]> (ecc_f_lut L) in
  let b := <[Z.to_nat (Z.lxor i j) := wrap8 i]> (ecc_b_lut L) in
  let edc := for_loop 8 0 (fun _ edc => edc_shift edc) i in
  Luts f b (<[Z.to_nat i := edc]> (edc_lut L)).

Definition eccedc_init (L : luts) : luts := for_loop 256 0 eccedc_init_body L.

Definition tables : luts := eccedc_init luts_static.

(** ** Checksum engine *)

Definition edc_step (L : luts) (edc byte : Z) : Z :=
  Z.lxor (Z.shiftr edc 8) (rd (edc_lut L) (Z.land (Z.lxor edc byte) 0xFF)).

(** The loop [while(size--)] reading through the advancing pointer
    [src]; the list [src] is the memory from the pointer onwards. *)
Fixpoint edc_loop (L : luts) (size : nat) (src : list Z) (edc : Z) : Z :=
  match size with
  | O => edc
  | S size' => edc_loop L size' (tail src) (edc_step L edc (rd src 0))
  end.

(** The parameters are converted to their types on entry: [edc] to
    [ecc_uint32], [size] to [ecc_uint16]. *)
Definition edc_partial_computeblock (L : luts) (edc : Z) (src : list Z) (size : Z) : Z :=
  edc_loop L (Z.to_nat (wrap16 size)) src (wrap32 edc).

(** The checksum engine in the words of the specification: a left fold
    of the per-byte update over the byte sequence. *)
Definition accumulate (checksumTable : list Z) (acc : Z) (bytes : list Z) : Z :=
  fold_left
    (fun acc byte => Z.lxor (Z.shiftr acc 8) (rd checksumTable (Z.land (Z.lxor acc byte) 0xFF)))
    bytes acc.

(** [edc_computeblock(src, size, dest)] on the array [mem]; [src] and
    [dest] are offsets into [mem]. *)
Definition edc_computeblock (L : luts) (mem : list Z) (src : nat) (size : Z) (dest : nat) : list Z :=
  let edc := edc_partial_computeblock L 0 (drop src mem) size in
  let mem := <[dest := Z.land (Z.shiftr edc 0) 0xFF]> mem in
  let mem := <[(dest + 1)%nat := Z.land (Z.shiftr edc 8) 0xFF]> mem in
  let mem := <[(dest + 2)%nat := Z.land (Z.shiftr edc 16) 0xFF]> mem in
  <[(dest + 3)%nat := Z.land (Z.shiftr edc 24) 0xFF]> mem.

(** ** Parity engine *)

(** [index += minor_inc; if(index >= size) index -= size;] *)
Definition ecc_next_index (size minor_inc index : Z) : Z :=
  let index := wrap32 (index + minor_inc) in
  if index >=? size then wrap32 (index - size) else index.

(** The inner loop over [minor]; [src] is the memory from the pointer
    [src] onwards.  It returns the final [index], [ecc_a] and [ecc_b]. *)
Fixpoint ecc_minor_loop (L : luts) (src : list Z) (size minor_inc : Z)
    (n : nat) (index ecc_a ecc_b : Z) : Z * Z * Z :=
  match n with
  | O => (index, ecc_a, ecc_b)
  | S n' =>
      let temp := rd src index in
      let index := ecc_next_index size minor_inc index in
      let ecc_a := Z.lxor ecc_a temp in
      let ecc_b := Z.lxor ecc_b temp in
      let ecc_a := rd (ecc_f_lut L) ecc_a in
      ecc_minor_loop L src size minor_inc n' index ecc_a ecc_b
  end.

Definition ecc_start_index (major_mult major : Z) : Z :=
  wrap32 (wrap32 (Z.shiftr major 1 * major_mult) + Z.land major 1).

(** One turn of the loop over [major]: it reads [mem] through [src] and
    writes it through [dest], both offsets into the same array. *)
Definition ecc_major_body (L : luts) (src : nat)
    (major_count minor_count major_mult minor_inc : Z) (dest : nat)
    (major : Z) (mem : list Z) : list Z :=
  let size := wrap32 (major_count * minor_count) in
  let index := ecc_start_index major_mult major in
  let '(_, ecc_a, ecc_b) :=
    ecc_minor_loop L (drop src mem) size minor_inc (Z.to_nat minor_count) index 0 0 in
  let ecc_a := rd (ecc_b_lut L) (Z.lxor (rd (ecc_f_lut L) ecc_a) ecc_b) in
  let mem := <[(dest + Z.to_nat major)%nat := ecc_a]> mem in
  <[(dest + Z.to_nat (wrap32 (major + major_count)))%nat := Z.lxor ecc_a ecc_b]> mem.

Definition ecc_computeblock (L : luts) (mem : list Z) (src : nat)
    (major_count minor_count major_mult minor_inc : Z) (dest : nat) : list Z :=
  for_loop (Z.to_nat major_count) 0
    (ecc_major_body L src major_count minor_count major_mult minor_inc dest) mem.

(** The local [address[4]] starts uninitialised; it is read only after
    it has been written. *)
Definition ecc_generate (L : luts) (sector : list Z) (zeroaddress : Z) : list Z :=
  let '(address, sector) :=
    if zeroaddress =? 0 then (replicate 4 0, sector)
    else for_loop 4 0
           (fun i '(address, sector) =>
              (<[Z.to_nat i := rd sector (12 + i)]> address,
               <[Z.to_nat (12 + i) := 0]> sector))
           (replicate 4 0, sector) in
  let sector := ecc_computeblock L sector 0xC 86 24 2 86 0x81C in
  let sector := ecc_computeblock L sector 0xC 52 43 86 88 0x8C8 in
  if zeroaddress =? 0 then sector
  else for_loop 4 0 (fun i sector => <[Z.to_nat (12 + i) := rd address i]> sector) sector.

Definition eccedc_generate (L : luts) (sector : list Z) (type : Z) : list Z :=
  if type =? 1 then
    let sector := edc_computeblock L sector 0x00 0x810 0x810 in
    let sector := for_loop 8 0 (fun i sector => <[Z.to_nat (0x814 + i) := 0]> sector) sector in
    ecc_generate L sector 0
  else if type =? 2 then
    let sector := edc_computeblock L sector 0x10 0x808 0x818 in
    ecc_generate L sector 1
  else if type =? 3 then
    edc_computeblock L sector 0x10 0x91C 0x92C
  else sector.

(** The parity engine in the words of the specification: the walk over
    [buffer] wraps its index modulo [majorCount * minorCount], and the
    result is the list of the [2 * majorCount] output bytes. *)
Fixpoint parityWalk (forwardTable buffer : list Z) (modulus minorIncrement : Z)
    (steps : nat) (index a b : Z) : Z * Z :=
  match steps with
  | O => (a, b)
  | S k =>
      let byte := rd buffer index in
      parityWalk forwardTable buffer modulus minorIncrement k
        ((index + minorIncrement) mod modulus)
        (rd forwardTable (Z.lxor a byte)) (Z.lxor b byte)
  end.

Definition parityPair (forwardTable backwardTable buffer : list Z)
    (majorCount minorCount majorStride minorIncrement major : Z) : Z * Z :=
  let index := Z.shiftr major 1 * majorStride + Z.land major 1 in
  let '(a, b) := parityWalk forwardTable buffer (majorCount * minorCount) minorIncrement
                   (Z.to_nat minorCount) index 0 0 in
  let final := rd backwardTable (Z.lxor (rd forwardTable a) b) in
  (final, Z.lxor final b).

Definition computeParity (forwardTable backwardTable buffer : list Z)
    (majorCount minorCount majorStride minorIncrement : Z) : list Z :=
  let majors := Z.of_nat <$> seq 0 (Z.to_nat majorCount) in
  let pair := parityPair forwardTable backwardTable buffer
                majorCount minorCount majorStride minorIncrement in
  (fst ∘ pair <$> majors) ++ (snd ∘ pair <$> majors).

(** The indices at which [ecc_minor_loop] reads [src], in order. *)
Fixpoint ecc_indices (size minor_inc : Z) (n : nat) (index : Z) : list Z :=
  match n with
  | O => []
  | S n' => index :: ecc_indices size minor_inc n' (ecc_next_index size minor_inc index)
  end.

(** The code word of one turn of the loop over [major]: the bytes the
    turn reads through [src], in the order of the loop over [minor]. *)
Definition ecc_codeword (src : list Z)
    (major_count minor_count major_mult minor_inc major : Z) : list Z :=
  rd src <$> ecc_indices (wrap32 (major_count * minor_count)) minor_inc
               (Z.to_nat minor_count) (ecc_start_index major_mult major).

(** The two checks of a code word that ends with its two parity bytes,
    in the field of 256 elements where the sum is [xor] and [ecc_f_lut]
    multiplies by the generating element: the sum of the bytes, and the
    value of the bytes as the coefficients of a polynomial at that
    element. *)
Definition syndrome_sum (bytes : list Z) : Z := fold_left Z.lxor bytes 0.
Definition syndrome_poly (L : luts) (bytes : list Z) : Z :=
  fold_left (fun s byte => Z.lxor (rd (ecc_f_lut L) s) byte) bytes 0.

(** ** Stream decoder ([unecmify]) *)

(** The ways [unecmify] leaves with status 1: the magic test (message
    "Header not found!"), the label [uneof] ("Unexpected EOF!"), the
    length test after [num++] (label [corrupt] alone) and the trailer
    test ("EDC error"). *)
Inductive failure :=
  | HeaderMissing
  | UnexpectedEndOfStream
  | InvalidChunkLength
  | ChecksumMismatch.

(** The streams [in] (what is left to read) and [out] (what was
    written), and the locals [checkedc] and [sector]. *)
Record state := State {
  inp : list Z;
  out : list Z;
  checkedc : Z;
  sector : list Z
}.

Definition set_inp (i : list Z) (st : state) : state :=
  State i (out st) (checkedc st) (sector st).
Definition set_sector (s : list Z) (st : state) : state :=
  State (inp st) (out st) (checkedc st) s.

(** [OutOfFuel] is not an outcome of the program: it marks a loop of the
    model that was given too few turns ([unecmify_total] shows that
    [unecmify] never ends there). *)
Inductive res (A : Type) :=
  | Ok (a : A) (st : state)
  | Err (e : failure) (st : state)
  | OutOfFuel.
Arguments Ok {A} a st.
Arguments Err {A} e st.
Arguments OutOfFuel {A}.

Definition M (A : Type) : Type := state -> res A.

Definition ret {A} (a : A) : M A := fun st => Ok a st.
Definition bind {A B} (m : M A) (k : A -> M B) : M B :=
  fun st => match m st with
            | Ok a st' => k a st'
            | Err e st' => Err e st'
            | OutOfFuel => OutOfFuel
            end.
Definition throw {A} (e : failure) : M A := fun st => Err e st.

Notation "x <- m ;; k" := (bind m (fun x => k))
  (at level 100, m at next level, right associativity).
Notation "m ;; k" := (bind m (fun _ => k))
  (at level 100, right associativity).

(** [fgetc(in)]; [None] is [EOF]. *)
Definition fgetc : M (option Z) := fun st =>
  match inp st with
  | [] => Ok None st
  | c :: rest => Ok (Some c) (set_inp rest st)
  end.

(** [fread(sector + off, 1, n, in)]: the bytes that are there, at most
    [n], go into the buffer; the result is their number. *)
Definition fread (off n : nat) : M nat := fun st =>
  let bytes := take n (inp st) in
  Ok (length bytes) (State (drop n (inp st)) (out st) (checkedc st)
                       (list_inserts off bytes (sector st))).

(** [fwrite(sector + off, 1, n, out)]. *)
Definition fwrite (off n : nat) : M unit := fun st =>
  Ok tt (State (inp st) (out st ++ take n (drop off (sector st))) (checkedc st) (sector st)).

(** [checkedc = edc_partial_computeblock(checkedc, sector + off, size)]. *)
Definition checksum (L : luts) (off : nat) (size : Z) : M unit := fun st =>
  Ok tt (State (inp st) (out st)
           (edc_partial_computeblock L (checkedc st) (drop off (sector st)) size)
           (sector st)).

(** [memset(sector + off, v, n)]. *)
Definition memset (off : nat) (v : Z) (n : nat) : M unit := fun st =>
  Ok tt (set_sector (list_inserts off (replicate n v) (sector st)) st).

(** [sector[i] = v]. *)
Definition poke (i : nat) (v : Z) : M unit := fun st =>
  Ok tt (set_sector (<[i := v]> (sector st)) st).

(** [sector[i] = sector[j]]. *)
Definition copy (i j : nat) : M unit := fun st =>
  Ok tt (set_sector (<[i := rd (sector st) (Z.of_nat j)]> (sector st)) st).

Definition generate (L : luts) (type : Z) : M unit := fun st =>
  Ok tt (set_sector (eccedc_generate L (sector st) type) st).

Definition expect (ch : Z) : M bool :=
  c <- fgetc ;; ret (bool_decide (c = Some ch)).

(** The magic test; [||] stops reading at the first byte that differs. *)
Definition header : M unit :=
  e <- expect 0x45 ;; if negb e then throw HeaderMissing else
  c <- expect 0x43 ;; if negb c then throw HeaderMissing else
  m <- expect 0x4D ;; if negb m then throw HeaderMissing else
  z <- expect 0x00 ;; if negb z then throw HeaderMissing else
  ret tt.

(** The loop [while(c & 0x80)] of the chunk header, by recursion on the
    input that is left.  [num], an [off_t], is held as its 64-bit
    two's-complement pattern, a value below [2 ^ 64]: up to the test
    against [0x8000000000000000] the code uses it through [|=], [==],
    [++] and that unsigned comparison, which act on the pattern, and
    after the test it is not negative and is its pattern.  The shifted
    value is kept to its low 64 bits.  [bits] is an [unsigned int].  C
    leaves a shift by 64 or more undefined (a header of ten or more
    continuation bytes); here the shift is by [bits mod 64], which is
    what the shift instruction of a 64-bit build does with it. *)
Fixpoint count_loop (c num bits : Z) (input : list Z) : option (Z * list Z) :=
  if Z.land c 0x80 =? 0 then Some (num, input)
  else match input with
       | [] => None
       | c' :: rest =>
           count_loop c'
             (Z.lor num (uint64 (Z.shiftl (Z.land c' 0x7F) (bits mod 64))))
             (wrap32 (bits + 7)) rest
       end.

Definition read_count (c num bits : Z) : M Z := fun st =>
  match count_loop c num bits (inp st) with
  | None => Err UnexpectedEndOfStream (set_inp [] st)
  | Some (num, rest) => Ok num (set_inp rest st)
  end.

(** The loops of [unecmify] take a number of turns [fuel]; every turn
    that does not fail reads at least one byte, so one turn more than
    there are bytes left is enough ([unecmify_total]). *)
Definition fueled {A} (loop : nat -> M A) : M A := fun st =>
  loop (S (length (inp st))) st.

(** The loop [while(num)] of a literal chunk. *)
Fixpoint literal_loop (L : luts) (fuel : nat) (num : Z) : M unit :=
  if num =? 0 then ret tt
  else match fuel with
       | O => fun _ => OutOfFuel
       | S fuel' =>
           let b := if num >? 2352 then 2352 else wrap16 num in
           k <- fread 0 (Z.to_nat b) ;;
           if negb (Z.of_nat k =? b) then throw UnexpectedEndOfStream else
           checksum L 0 b ;;
           fwrite 0 (Z.to_nat b) ;;
           literal_loop L fuel' (num - b)
       end.

(** The four assignments [sector[0x10 + i] = sector[0x14 + i]], the
    same in the cases 2 and 3 of [switch(type)]. *)
Definition mirror_subheader : M unit :=
  copy 0x10 0x14 ;;
  copy 0x11 0x15 ;;
  copy 0x12 0x16 ;;
  copy 0x13 0x17.

(** The body of the loop [while(num--)] of a sector chunk. *)
Definition sector_rep (L : luts) (type : Z) : M unit :=
  memset 0 0 2352 ;;
  memset 1 0xFF 10 ;;
  if type =? 1 then
    poke 0x0F 0x01 ;;
    k <- fread 0x00C 0x003 ;;
    if negb (k =? 0x003)%nat then throw UnexpectedEndOfStream else
    k <- fread 0x010 0x800 ;;
    if negb (k =? 0x800)%nat then throw UnexpectedEndOfStream else
    generate L 1 ;;
    checksum L 0 2352 ;;
    fwrite 0 2352
  else if type =? 2 then
    poke 0x0F 0x02 ;;
    k <- fread 0x014 0x804 ;;
    if negb (k =? 0x804)%nat then throw UnexpectedEndOfStream else
    mirror_subheader ;;
    generate L 2 ;;
    checksum L 0x10 2336 ;;
    fwrite 0x10 2336
  else if type =? 3 then
    poke 0x0F 0x02 ;;
    k <- fread 0x014 0x918 ;;
    if negb (k =? 0x918)%nat then throw UnexpectedEndOfStream else
    mirror_subheader ;;
    generate L 3 ;;
    checksum L 0x10 2336 ;;
    fwrite 0x10 2336
  else ret tt.

(** The loop [while(num--)] of a sector chunk. *)
Fixpoint sector_loop (L : luts) (type : Z) (fuel : nat) (num : Z) : M unit :=
  if num =? 0 then ret tt
  else match fuel with
       | O => fun _ => OutOfFuel
       | S fuel' => sector_rep L type ;; sector_loop L type fuel' (num - 1)
       end.

(** What a chunk does once its header is decoded; the result [true] is
    the [break] of the sentinel. *)
Definition dispatch (L : luts) (type num : Z) : M bool :=
  if num =? 0xFFFFFFFF then ret true else
  let num := uint64 (num + 1) in
  if num >=? 0x8000000000000000 then throw InvalidChunkLength else
  (if type =? 0 then fueled (fun fuel => literal_loop L fuel num)
   else fueled (fun fuel => sector_loop L type fuel num)) ;;
  ret false.

(** One turn of the loop [for(;;)]. *)
Definition chunk (L : luts) : M bool :=
  c <- fgetc ;;
  match c with
  | None => throw UnexpectedEndOfStream
  | Some c =>
      let type := Z.land c 3 in
      let num := Z.land (Z.shiftr c 2) 0x1F in
      num <- read_count c num 5 ;;
      dispatch L type num
  end.

Fixpoint chunks (L : luts) (fuel : nat) : M unit :=
  match fuel with
  | O => fun _ => OutOfFuel
  | S fuel' => stop <- chunk L ;; if stop : bool then ret tt else chunks L fuel'
  end.

(** What follows the loop: the four bytes of the trailer against
    [checkedc]. *)
Definition trailer : M unit :=
  k <- fread 0 4 ;;
  if negb (k =? 4)%nat then throw UnexpectedEndOfStream else
  fun st =>
    let s := sector st in
    let e := checkedc st in
    if negb (rd s 0 =? Z.land (Z.shiftr e 0) 0xFF)
       || negb (rd s 1 =? Z.land (Z.shiftr e 8) 0xFF)
       || negb (rd s 2 =? Z.land (Z.shiftr e 16) 0xFF)
       || negb (rd s 3 =? Z.land (Z.shiftr e 24) 0xFF)
    then Err ChecksumMismatch st
    else Ok tt st.

(** [sector] starts uninitialised; every path writes the bytes it reads. *)
Definition initial (input : list Z) : state :=
  State input [] 0 (replicate 2352 0).

Definition unecmify (L : luts) (input : list Z) : res unit :=
  (header ;; fueled (chunks L) ;; trailer) (initial input).

(** The value [unecmify] returns. *)
Definition status {A} (r : res A) : Z :=
  match r with Ok _ _ => 0 | _ => 1 end.

(** The twelve bytes that the two [memset] leave at the start of the
    buffer: [00 FF FF FF FF FF FF FF FF FF FF 00]. *)
Definition sync_pattern : list Z :=
  [0x00; 0xFF; 0xFF; 0xFF; 0xFF; 0xFF; 0xFF; 0xFF; 0xFF; 0xFF; 0xFF; 0x00].

(** The finalised checksum: four bytes, least significant first. *)
Definition le32 (e : Z) : list Z :=
  [Z.land (Z.shiftr e 0) 0xFF; Z.land (Z.shiftr e 8) 0xFF;
   Z.land (Z.shiftr e 16) 0xFF; Z.land (Z.shiftr e 24) 0xFF].

(** The sectors in the words of the specification, region after region;
    the checksum is the fold [accumulate] of the specification, from 0.
    Mode 1: sync pattern, 3 address bytes, mode byte 1, 2048 data bytes,
    the checksum of all that, 8 zero bytes, P over the 2064 bytes from
    offset [0x00C], Q over these and P. *)
Definition mode1_sector (L : luts) (address data : list Z) : list Z :=
  let edc := le32 (accumulate (edc_lut L) 0
                     (sync_pattern ++ address ++ [0x01] ++ data)) in
  let body := address ++ [0x01] ++ data ++ edc ++ replicate 8 0 in
  let P := computeParity (ecc_f_lut L) (ecc_b_lut L) body 86 24 2 86 in
  let Q := computeParity (ecc_f_lut L) (ecc_b_lut L) (body ++ P) 52 43 86 88 in
  sync_pattern ++ body ++ P ++ Q.

(** Mode 2 Form 2, from offset [0x10]: the subheader (the first four
    bytes read), the bytes read (which start with the subheader again),
    the checksum of all that. *)
Definition mode2form2_block (L : luts) (bytes : list Z) : list Z :=
  let block := take 4 bytes ++ bytes in
  block ++ le32 (accumulate (edc_lut L) 0 block).

(** Mode 2 Form 1, from offset [0x10]: the subheader (the first four
    bytes read), the bytes read (the subheader again and 2048 data
    bytes), the checksum of all that, then P and Q over the sector from
    offset [0x00C] with zeros in place of its four address bytes. *)
Definition mode2form1_block (L : luts) (bytes : list Z) : list Z :=
  let block := take 4 bytes ++ bytes in
  let edc := le32 (accumulate (edc_lut L) 0 block) in
  let body := replicate 4 0 ++ block ++ edc in
  let P := computeParity (ecc_f_lut L) (ecc_b_lut L) body 86 24 2 86 in
  let Q := computeParity (ecc_f_lut L) (ecc_b_lut L) (body ++ P) 52 43 86 88 in
  block ++ edc ++ P ++ Q.

(** What one turn of the loop of a sector chunk reads and writes: the
    number of bytes read for a sector of type 1, 2 or 3, and the bytes
    written for the bytes read. *)
Definition sector_need (type : Z) : nat :=
  if type =? 1 then (0x003 + 0x800)%nat else if type =? 2 then 0x804%nat else 0x918%nat.

Definition sector_block (L : luts) (type : Z) (bytes : list Z) : list Z :=
  if type =? 1 then mode1_sector L (take 3 bytes) (drop 3 bytes)
  else if type =? 2 then mode2form1_block L bytes
  else mode2form2_block L bytes.

(** [chain c more]: after the byte [c] the header goes on with the
    bytes [more] and no further: every byte but the last has its top
    bit set. *)
Fixpoint chain (c : Z) (more : list Z) : bool :=
  match more with
  | [] => Z.land c 0x80 =? 0
  | c' :: more' => negb (Z.land c 0x80 =? 0) && chain c' more'
  end.

(** A computation is orderly when it keeps the size of the sector
    buffer and reads its input from the front: what it does depends on
    the bytes it has consumed only, so that other bytes in place of the
    ones it leaves unread lead to the same result. *)
Definition orderly {A} (m : M A) : Prop :=
  forall st a st', m st = Ok a st' ->
    length (sector st') = length (sector st)
    /\ exists consumed,
         inp st = consumed ++ inp st'
         /\ forall unread, length unread = length (inp st') ->
              m (set_inp (consumed ++ unread) st) = Ok a (set_inp unread st').

(** A computation is total when it never ends for want of fuel. *)
Definition total {A} (m : M A) : Prop := forall st, m st <> OutOfFuel.

(** The chunk count in the words of the specification: the first byte
    gives bits 0-4, the continuation byte number [k] gives bits
    [5 + 7k] onwards. *)
Fixpoint countBits (offset : Z) (continuation : list Z) : Z :=
  match continuation with
  | [] => 0
  | c :: more => Z.lor (Z.shiftl (Z.land c 0x7F) offset) (countBits (offset + 7) more)
  end.

Definition rawCount (first : Z) (continuation : list Z) : Z :=
  Z.lor (Z.land (Z.shiftr first 2) 0x1F) (countBits 5 continuation).

(** Where the bytes that [eccedc_generate] is given end: the offset at
    which it stores the checksum, or the end of the sector for a type
    it does not know. *)
Definition data_end (type : Z) : nat :=
  if type =? 1 then 0x810%nat
  else if type =? 2 then 0x818%nat
  else if type =? 3 then 0x92C%nat
  else 2352%nat.

(** The number that four bytes hold, least significant first. *)
Definition le32_value (bytes : list Z) : Z :=
  rd bytes 0 + 2 ^ 8 * rd bytes 1 + 2 ^ 16 * rd bytes 2 + 2 ^ 24 * rd bytes 3.

(** ** Messages and command line ([GetByteSize], [setcounter], [main]) *)

(** The value of a signed integer of [bits] bits after a conversion or
    an operation that leaves its range (two's complement). *)
Definition sint (bits x : Z) : Z :=
  (x + 2 ^ (bits - 1)) mod 2 ^ bits - 2 ^ (bits - 1).

Definition postfix : list string := ["byte"; "KiB"; "MiB"; "GiB"; "TiB"; "PiB"].

(** The loop [while ((size >> divisorshift) >= 1024 && chosenpostfix <
    sizeof(postfix))]; [limit] is [sizeof(postfix)].  Every turn adds 1
    to [chosenpostfix], so [limit] turns are enough from 0: with
    [chosenpostfix + turns = limit] the test fails before [turns] runs
    out. *)
Fixpoint GetByteSize_loop (turns : nat) (limit size divisorshift chosenpostfix : Z)
    : Z * Z :=
  if (Z.shiftr size divisorshift >=? 1024) && (chosenpostfix <? limit) then
    match turns with
    | O => (divisorshift, chosenpostfix)
    | S turns' =>
        GetByteSize_loop turns' limit size (divisorshift + 10) (chosenpostfix + 1)
    end
  else (divisorshift, chosenpostfix).

(** [GetByteSize(size, dst)]: the text written to [dst].  [sizeof(postfix)]
    is six times [pointer_size], the size of a [char *].  The result is
    [None] when [postfix] is read past its six entries. *)
Definition GetByteSize (pointer_size size : Z) : option string :=
  let limit := 6 * pointer_size in
  let '(divisorshift, chosenpostfix) :=
    GetByteSize_loop (Z.to_nat limit) limit size 0 0 in
  let result := sint 32 (Z.shiftr size divisorshift) in
  let rest := sint 64 (size - sint 64 (Z.shiftl result divisorshift)) in
  let decimalpart := sint 32 (Z.shiftr (sint 64 (rest * 100)) divisorshift) in
  match postfix !! Z.to_nat chosenpostfix with
  | Some name => Some (pretty result +:+ "." +:+ pretty decimalpart +:+ " " +:+ name)
  | None => None
  end.

(** The globals [mycounter] and [mycounter_total]. *)
Record counter := Counter {
  mycounter : Z;
  mycounter_total : Z
}.

Definition resetcounter (total : Z) : counter := Counter 0 total.

(** [setcounter(n)]: the new counter, and the percentage it prints, if
    it prints one. *)
Definition setcounter (n : Z) (c : counter) : counter * option Z :=
  let shown :=
    if negb (Z.shiftr n 20 =? Z.shiftr (mycounter c) 20) then
      let a := Z.quot (n + 64) 128 in
      let d := Z.quot (mycounter_total c + 64) 128 in
      let d := if d =? 0 then 1 else d in
      Some (Z.quot (100 * a) d)
    else None in
  (Counter n (mycounter_total c), shown).

(** [tolower] and [strcasecmp(a, b) == 0] in the C locale, the locale
    of a program that does not call [setlocale]. *)
Definition tolower (c : ascii) : ascii :=
  let n := nat_of_ascii c in
  if (65 <=? n)%nat && (n <=? 90)%nat then ascii_of_nat (n + 32) else c.

Definition strcasecmp_eq (a b : string) : bool :=
  bool_decide (tolower <$> list_ascii_of_string a = tolower <$> list_ascii_of_string b).

(** What [main] does before it opens the files: it returns a status at
    once, or it has the names of the file to read and of the file to
    write.  [argv] is the command line and [argc] its length. *)
Inductive plan :=
  | Exit (status : Z)
  | Open (infilename outfilename : string).

Definition main_plan (argv : list string) : plan :=
  let argc := length argv in
  if negb (argc =? 2)%nat && negb (argc =? 3)%nat then Exit 1 else
  match argv !! 1%nat with
  | None => Exit 1
  | Some infilename =>
      if (String.length infilename <? 5)%nat then Exit 1 else
      if negb (strcasecmp_eq
                 (substring (String.length infilename - 4) 4 infilename) ".ecm")
      then Exit 1 else
      match argv !! 2%nat with
      | Some outfilename => Open infilename outfilename
      | None => Open infilename (substring 0 (String.length infilename - 4) infilename)
      end
  end.

(** What [unecmify] has written when it returns. *)
Definition written (r : res unit) : list Z :=
  match r with
  | Ok _ st | Err _ st => out st
  | OutOfFuel => []
  end.

(** [main]: its status, and the name and the content of the file it
    has written, if it has opened one.  [read name] is the content of
    the file [fopen(name, "rb")] opens, if it opens; [create name] tells
    whether [fopen(name, "wb")] opens; the two files are taken to be
    different ones.  The tables are initialised first; the value that
    [unecmify] returns is not used. *)
Definition main (argv : list string) (read : string -> option (list Z))
    (create : string -> bool) : Z * option (string * list Z) :=
  match main_plan argv with
  | Exit status => (status, None)
  | Open infilename outfilename =>
      match read infilename with
      | None => (1, None)
      | Some input =>
          if create outfilename
          then (0, Some (outfilename, written (unecmify (eccedc_init luts_static) input)))
          else (1, None)
      end
  end.

(** ** Invariants of the decoder *)

Definition is_byte (b : Z) : Prop := 0 <= b < 256.

#[global] Instance is_byte_dec (b : Z) : Decision (is_byte b) :=
  and_dec (Z.le_dec 0 b) (Z.lt_dec b 256).

(** The streams and the buffer hold bytes. *)
Definition byte_state (st : state) : Prop :=
  Forall is_byte (inp st) /\ Forall is_byte (out st) /\ Forall is_byte (sector st).

(** [checkedc] is the checksum of what was written, and the buffer has
    its 2352 bytes. *)
Definition checked (L : luts) (st : state) : Prop :=
  length (sector st) = 2352%nat
  /\ checkedc st = accumulate (edc_lut L) 0 (out st).

(** What is left to read is an end of [input]: reading goes forward. *)
Definition reads_from (input : list Z) (st : state) : Prop :=
  exists consumed, input = consumed ++ inp st.

(** [keeps P m]: from a state in [P], [m] ends in a state in [P],
    whether it succeeds or fails. *)
Definition keeps {A} (P : state -> Prop) (m : M A) : Prop :=
  forall st, P st ->
    match m st with
    | Ok _ st' => P st'
    | Err _ st' => P st'
    | OutOfFuel => True
    end.

(** [raises E m]: every failure of [m] is one of [E]. *)
Definition raises {A} (E : failure -> Prop) (m : M A) : Prop :=
  forall st e st', m st = Err e st' -> E e.

(** The magic that opens a stream: "ECM" and a zero byte. *)
Definition magic : list Z := [0x45; 0x43; 0x4D; 0x00].

(** [chunk_writes L bytes output]: one turn of the loop [for(;;)] on an
    input that starts with [bytes] reads exactly [bytes], writes
    [output] and goes on with the next chunk. *)
Definition chunk_writes (L : luts) (bytes output : list Z) : Prop :=
  forall st rest,
    length (sector st) = 2352%nat -> inp st = bytes ++ rest ->
    exists st',
      chunk L st = Ok false st'
      /\ inp st' = rest /\ out st' = out st ++ output
      /\ length (sector st') = 2352%nat.

(** The chunks of a stream as the loop [for(;;)] reads them: the bytes
    of the header ([first] and the continuation bytes [more]), then the
    bytes of a literal chunk, or the bytes read for each sector of a
    sector chunk. *)
Inductive piece :=
  | Literal (first : Z) (more payload : list Z)
  | Sectors (first : Z) (more : list Z) (records : list (list Z)).

Definition piece_bytes (p : piece) : list Z :=
  match p with
  | Literal first more payload => first :: more ++ payload
  | Sectors first more records => first :: more ++ concat records
  end.

(** What the decoder is to write for a chunk. *)
Definition piece_output (L : luts) (p : piece) : list Z :=
  match p with
  | Literal _ _ payload => payload
  | Sectors first _ records => concat (sector_block L (Z.land first 3) <$> records)
  end.

(** A chunk is well formed when its header ends within nine
    continuation bytes, its type fits what follows, and its count field
    is one less than the number of bytes (type 0) or of sectors that
    follow, a number that is positive, below [2 ^ 63], and not the
    [2 ^ 32] that the indicator [0xFFFFFFFF] stands in for. *)
Definition well_formed (p : piece) : Prop :=
  match p with
  | Literal first more payload =>
      chain first more = true /\ (length more <= 9)%nat
      /\ Z.land first 3 = 0
      /\ uint64 (rawCount first more) = Z.of_nat (length payload) - 1
      /\ (0 < length payload)%nat /\ Z.of_nat (length payload) < 2 ^ 63
      /\ Z.of_nat (length payload) <> 2 ^ 32
  | Sectors first more records =>
      chain first more = true /\ (length more <= 9)%nat
      /\ Z.land first 3 <> 0
      /\ Forall (fun r => length r = sector_need (Z.land first 3)) records
      /\ uint64 (rawCount first more) = Z.of_nat (length records) - 1
      /\ (0 < length records)%nat /\ Z.of_nat (length records) < 2 ^ 63
      /\ Z.of_nat (length records) <> 2 ^ 32
  end.

(** [refines m1 m2]: [m2] ends as [m1] does, unless [m1] runs out of
    fuel. *)
Definition refines {A} (m1 m2 : M A) : Prop :=
  forall st, m1 st = OutOfFuel \/ m1 st = m2 st.

(** [forward m]: [m] reads its input from the front and needs all that
    it reads.  When it succeeds having read [consumed], it succeeds in
    the same way on [consumed] followed by any other bytes, and it fails
    for want of input on an input that stops short of [consumed]. *)
Definition forward {A} (m : M A) : Prop :=
  forall st a st', m st = Ok a st' ->
    exists consumed,
      inp st = consumed ++ inp st'
      /\ (forall unread,
            m (set_inp (consumed ++ unread) st) = Ok a (set_inp unread st'))
      /\ (forall p q, consumed = p ++ q -> q <> [] ->
            exists st'', m (set_inp p st) = Err UnexpectedEndOfStream st'').

(** The state in which a run ends, with success or with a failure. *)
Definition final {A} (r : res A) : option state :=
  match r with
  | Ok _ st | Err _ st => Some st
  | OutOfFuel => None
  end.

(** ** Sample inputs *)

Definition sample_address : list Z := [0x00; 0x02; 0x00].
Definition sample_data : list Z := replicate 2048 7.
Definition sample_mode1 : state := initial (sample_address ++ sample_data ++ []).

Definition sample_form2 : list Z := [1; 2; 3; 4] ++ replicate 2324 9.
Definition sample_mode2 : state := initial (sample_form2 ++ []).

(** The header whose count is [0xFFFFFFFF], followed by four bytes. *)
Definition sample_sentinel : state :=
  initial (0xFC :: [0xFF; 0xFF; 0xFF; 0x3F] ++ [1; 2; 3; 4]).

(** The magic, a literal chunk of the one byte [0x41], the sentinel and
    the checksum of that byte. *)
Definition sample_stream : list Z :=
  [0x45; 0x43; 0x4D; 0x00; 0x00; 0x41; 0xFC; 0xFF; 0xFF; 0xFF; 0x3F;
   0x00; 0x41; 0x90; 0x24].
Definition sample_decoded : state :=
  State [0x00; 0x41; 0x90; 0x24] [0x41] 613433600 (0x41 :: replicate 2351 0).

(** The stream [sample_stream] with another trailer, and the state in
    which [unecmify] rejects it. *)
Definition sample_bad_trailer : list Z :=
  magic ++ [0x00; 0x41] ++ [0xFC; 0xFF; 0xFF; 0xFF; 0x3F] ++ [1; 2; 3; 4].
Definition sample_rejected : state :=
  State [] [0x41] 613433600 (list_inserts 0 [1; 2; 3; 4] (0x41 :: replicate 2351 0)).

(** A sector of Mode 2 Form 1: a subheader and 2048 data bytes. *)
Definition sample_form1 : list Z := [1; 2; 3; 4] ++ replicate 2048 9.
Definition sample_mode2form1 : state := initial (sample_form1 ++ []).

(** A literal chunk of two bytes and a chunk of one Mode 1 sector. *)
Definition sample_pieces : list piece :=
  [Literal 0x04 [] [0x41; 0x42]; Sectors 0x01 [] [sample_address ++ sample_data]].

(** The state in which [unecmify] accepts [sample_stream]. *)
Definition sample_accepted : state :=
  State [] [0x41] 613433600
    (list_inserts 0 [0x00; 0x41; 0x90; 0x24] (0x41 :: replicate 2351 0)).


(** The continuation bytes of two headers of ten bytes: after the first
    byte [0xFC] they set every bit of the 64-bit count; after the first
    byte [0x80] the only bit set is the bit 3 of the ninth, which the
    rule of the offsets puts at bit 64. *)
Definition sample_all_ones : list Z :=
  [0xFF; 0xFF; 0xFF; 0xFF; 0xFF; 0xFF; 0xFF; 0xFF; 0x07].
Definition sample_bit_64 : list Z :=
  [0x80; 0x80; 0x80; 0x80; 0x80; 0x80; 0x80; 0x80; 0x08].

(** * Properties *)

(** ** Arithmetic of the machine integers *)

Lemma wrap32_small x : 0 <= x < 2 ^ 32 -> wrap32 x = x.
Proof. apply Z.mod_small. Qed.

Lemma wrap16_small x : 0 <= x < 2 ^ 16 -> wrap16 x = x.
Proof. apply Z.mod_small. Qed.

Lemma lxor_bound n a b :
  0 <= n -> 0 <= a < 2 ^ n -> 0 <= b < 2 ^ n -> 0 <= Z.lxor a b < 2 ^ n.
Proof.
  intros Hn Ha Hb.
  assert (H0 : 0 <= Z.lxor a b) by (apply Z.lxor_nonneg; lia).
  split; [exact H0|].
  destruct (Z.eq_dec (Z.lxor a b) 0) as [->|Hne]; [lia|].
  assert (0 < n).
  { destruct (Z.eq_dec n 0) as [->|]; [|lia].
    assert (a = 0) as -> by lia. assert (b = 0) as -> by lia. now elim Hne. }
  apply Z.log2_lt_pow2; [lia|].
  eapply Z.le_lt_trans; [apply Z.log2_lxor; lia|].
  apply Z.max_lub_lt.
  - destruct (Z.eq_dec a 0) as [->|]; [simpl; lia|apply Z.log2_lt_pow2; lia].
  - destruct (Z.eq_dec b 0) as [->|]; [simpl; lia|apply Z.log2_lt_pow2; lia].
Qed.

Lemma shiftr_bound a k n :
  0 <= k -> 0 <= n -> 0 <= a < 2 ^ (n + k) -> 0 <= Z.shiftr a k < 2 ^ n.
Proof.
  intros Hk Hn Ha. rewrite Z.shiftr_div_pow2 by lia. split.
  - apply Z.div_pos; lia.
  - apply Z.div_lt_upper_bound; [lia|]. rewrite <- Z.pow_add_r by lia.
    replace (k + n) with (n + k) by lia. lia.
Qed.

(** A property checked on every index below 256. *)
Lemma below_256 (P : Z -> bool) :
  forallb P (Z.of_nat <$> seq 0 256) = true ->
  forall i, 0 <= i < 256 -> P i = true.
Proof.
  intros H i Hi. rewrite forallb_forall in H. apply H.
  apply list_elem_of_In, list_elem_of_fmap. exists (Z.to_nat i). split; [lia|].
  apply elem_of_seq. lia.
Qed.

Lemma rd_Forall (P : Z -> Prop) (a : list Z) (i : Z) :
  P 0 -> Forall P a -> P (rd a i).
Proof.
  intros H0 Ha. unfold rd. destruct (a !! Z.to_nat i) as [x|] eqn:E; simpl; [|exact H0].
  eapply Forall_lookup_1; eauto.
Qed.

(** ** The lookup tables *)

Lemma edc_lut_range i : 0 <= rd (edc_lut tables) i < 2 ^ 32.
Proof.
  apply (rd_Forall (fun x => 0 <= x < 2 ^ 32)); [lia|].
  apply (bool_decide_unpack _). vm_compute. reflexivity.
Qed.

Lemma tables_length :
  length (ecc_f_lut tables) = 256%nat /\ length (ecc_b_lut tables) = 256%nat
  /\ length (edc_lut tables) = 256%nat.
Proof. vm_compute. auto. Qed.

(** C6: once [eccedc_init] has run, [ecc_f_lut[i]] is [(i << 1) ^ (i & 0x80 ?
    0x11D : 0)] cut to 8 bits and [ecc_b_lut[i ^ ecc_f_lut[i]] = i], for
    every [i] in 0..255. *)
Theorem C6_backward_of_forward (i : Z) :
  0 <= i < 256 ->
  rd (ecc_f_lut tables) i
    = wrap8 (Z.lxor (Z.shiftl i 1) (if Z.testbit i 7 then 0x11D else 0))
  /\ rd (ecc_b_lut tables) (Z.lxor i (rd (ecc_f_lut tables) i)) = i.
Proof.
  intros Hi.
  pose (P := fun i =>
    (rd (ecc_f_lut tables) i
       =? wrap8 (Z.lxor (Z.shiftl i 1) (if Z.testbit i 7 then 0x11D else 0)))
    && (rd (ecc_b_lut tables) (Z.lxor i (rd (ecc_f_lut tables) i)) =? i)).
  assert (H : P i = true) by (apply below_256; [vm_compute; reflexivity|exact Hi]).
  unfold P in H. apply andb_prop in H as [H1 H2]. split; lia.
Qed.

Lemma C6_backward_of_forward_witness :
  rd (ecc_f_lut tables) 200
    = wrap8 (Z.lxor (Z.shiftl 200 1) (if Z.testbit 200 7 then 0x11D else 0))
  /\ rd (ecc_b_lut tables) (Z.lxor 200 (rd (ecc_f_lut tables) 200)) = 200.
Proof. apply (C6_backward_of_forward 200). lia. Defined.

(** C7, as stated, fails: at [i = 1] neither composition of the two
    tables gives back [i] ([ecc_f_lut[1] = 2] and [ecc_b_lut[2] = 245];
    [ecc_b_lut[1] = 244] and [ecc_f_lut[244] = 245]). *)
Lemma C7_not_mutually_inverse :
  ~ (rd (ecc_b_lut tables) (rd (ecc_f_lut tables) 1) = 1
     /\ rd (ecc_f_lut tables) (rd (ecc_b_lut tables) 1) = 1).
Proof. vm_compute. intros [H _]. discriminate H. Qed.

(** C7, amended: each table is a permutation of the bytes 0..255 (256
    entries, all below 256, no repetition), and [ecc_b_lut] is the
    inverse of the map [i |-> i ^ ecc_f_lut[i]], in both directions. *)
Theorem C7_tables_permutations :
  (length (ecc_f_lut tables) = 256%nat /\ NoDup (ecc_f_lut tables)
   /\ Forall (fun x => 0 <= x < 256) (ecc_f_lut tables))
  /\ (length (ecc_b_lut tables) = 256%nat /\ NoDup (ecc_b_lut tables)
      /\ Forall (fun x => 0 <= x < 256) (ecc_b_lut tables))
  /\ Forall (fun i =>
        rd (ecc_b_lut tables) (Z.lxor i (rd (ecc_f_lut tables) i)) = i
        /\ Z.lxor (rd (ecc_b_lut tables) i)
             (rd (ecc_f_lut tables) (rd (ecc_b_lut tables) i)) = i)
       (Z.of_nat <$> seq 0 256).
Proof.
  repeat split; try (apply (bool_decide_unpack _); vm_compute; reflexivity).
Qed.

(** ** The checksum engine *)

Section Checksum.
Variable L : luts.
Hypothesis lut_range : forall i, 0 <= rd (edc_lut L) i < 2 ^ 32.

Lemma edc_step_range edc byte :
  0 <= edc < 2 ^ 32 -> 0 <= edc_step L edc byte < 2 ^ 32.
Proof.
  intros H. unfold edc_step. apply lxor_bound; [lia| |apply lut_range].
  pose proof (shiftr_bound edc 8 24 ltac:(lia) ltac:(lia) H). lia.
Qed.

Lemma edc_loop_range n : forall src edc,
  0 <= edc < 2 ^ 32 -> 0 <= edc_loop L n src edc < 2 ^ 32.
Proof.
  induction n as [|n IH]; intros src edc H; simpl; [exact H|].
  apply IH, edc_step_range, H.
Qed.

Lemma edc_loop_fold (A : list Z) : forall rest edc,
  edc_loop L (length A) (A ++ rest) edc = fold_left (edc_step L) A edc.
Proof.
  induction A as [|a A IH]; intros rest edc; simpl; [reflexivity|].
  apply IH.
Qed.

Lemma edc_partial_fold (acc : Z) (A rest : list Z) :
  0 <= acc < 2 ^ 32 -> Z.of_nat (length A) < 2 ^ 16 ->
  edc_partial_computeblock L acc (A ++ rest) (Z.of_nat (length A))
    = fold_left (edc_step L) A acc.
Proof.
  intros Hacc Hlen. unfold edc_partial_computeblock.
  rewrite wrap32_small by exact Hacc. rewrite wrap16_small by lia.
  rewrite Nat2Z.id. apply edc_loop_fold.
Qed.

Lemma edc_partial_range acc src size :
  0 <= edc_partial_computeblock L acc src size < 2 ^ 32.
Proof.
  unfold edc_partial_computeblock. apply edc_loop_range.
  unfold wrap32. apply Z.mod_pos_bound. lia.
Qed.
End Checksum.

(** The checksum of the code over the first bytes of a memory is the
    fold of the specification over these bytes, from the start value
    taken as an [ecc_uint32]. *)
Lemma edc_partial_accumulate (L : luts) (acc : Z) (A rest : list Z) (size : Z) :
  size = Z.of_nat (length A) -> size < 2 ^ 16 ->
  edc_partial_computeblock L acc (A ++ rest) size
  = accumulate (edc_lut L) (wrap32 acc) A.
Proof.
  intros -> Hs. unfold edc_partial_computeblock.
  rewrite wrap16_small, Nat2Z.id by lia. rewrite edc_loop_fold. reflexivity.
Qed.

Lemma edc_partial_whole (L : luts) (acc : Z) (A : list Z) (size : Z) :
  size = Z.of_nat (length A) -> size < 2 ^ 16 ->
  edc_partial_computeblock L acc A size = accumulate (edc_lut L) (wrap32 acc) A.
Proof.
  intros Hsize Hs. rewrite <- (app_nil_r A) at 1.
  now apply edc_partial_accumulate.
Qed.

(** C3, as stated, fails for sequences whose joint length does not fit
    the 16-bit [size]: with [A] and [B] of 32768 bytes each the length of
    the concatenation, 65536, becomes 0 and nothing is accumulated. *)
Lemma C3_concat_length_wraps :
  let A := replicate (Z.to_nat 32768) 1 in
  let B := replicate (Z.to_nat 32768) 1 in
  edc_partial_computeblock tables
    (edc_partial_computeblock tables 0 A (Z.of_nat (length A))) B (Z.of_nat (length B))
  <> edc_partial_computeblock tables 0 (A ++ B) (Z.of_nat (length (A ++ B))).
Proof. vm_compute. discriminate. Qed.

(** C3, amended: for an accumulator of 32 bits and byte sequences [A]
    and [B] of joint length at most 65535, the empty sequence leaves the
    accumulator as it is, accumulating [A] and then [B] is accumulating
    [A ++ B], and the result is the fold of the per-byte update
    [acc = (acc >> 8) ^ edc_lut[(acc ^ byte) & 0xFF]]. *)
Theorem C3_accumulate_concat (acc : Z) (A B : list Z) :
  0 <= acc < 2 ^ 32 ->
  Z.of_nat (length A) + Z.of_nat (length B) <= 65535 ->
  edc_partial_computeblock tables acc [] 0 = acc
  /\ edc_partial_computeblock tables
       (edc_partial_computeblock tables acc A (Z.of_nat (length A)))
       B (Z.of_nat (length B))
     = edc_partial_computeblock tables acc (A ++ B) (Z.of_nat (length (A ++ B)))
  /\ edc_partial_computeblock tables acc (A ++ B) (Z.of_nat (length (A ++ B)))
     = accumulate (edc_lut tables) acc (A ++ B).
Proof.
  intros Hacc Hlen.
  assert (HA : edc_partial_computeblock tables acc A (Z.of_nat (length A))
               = fold_left (edc_step tables) A acc).
  { rewrite <- (app_nil_r A) at 1. apply edc_partial_fold; [exact Hacc|lia]. }
  assert (HAB : edc_partial_computeblock tables acc (A ++ B) (Z.of_nat (length (A ++ B)))
                = fold_left (edc_step tables) (A ++ B) acc).
  { rewrite <- (app_nil_r (A ++ B)) at 1.
    apply edc_partial_fold; [exact Hacc|rewrite length_app; lia]. }
  split; [|split].
  - unfold edc_partial_computeblock. simpl. apply wrap32_small, Hacc.
  - rewrite HAB, HA, fold_left_app.
    rewrite <- (app_nil_r B) at 1. apply edc_partial_fold; [|lia].
    rewrite <- HA. apply edc_partial_range, edc_lut_range.
  - rewrite HAB. reflexivity.
Qed.

Lemma C3_accumulate_concat_witness :
  edc_partial_computeblock tables 7 [] 0 = 7
  /\ edc_partial_computeblock tables
       (edc_partial_computeblock tables 7 [1; 2] (Z.of_nat (length [1; 2])))
       [3] (Z.of_nat (length [3]))
     = edc_partial_computeblock tables 7 ([1; 2] ++ [3]) (Z.of_nat (length ([1; 2] ++ [3])))
  /\ edc_partial_computeblock tables 7 ([1; 2] ++ [3]) (Z.of_nat (length ([1; 2] ++ [3])))
     = accumulate (edc_lut tables) 7 ([1; 2] ++ [3]).
Proof. apply (C3_accumulate_concat 7 [1; 2] [3]); simpl; lia. Defined.

(** ** The parity engine *)

Lemma for_loop_snoc {S : Type} (body : Z -> S -> S) (n : nat) : forall i s,
  for_loop (Datatypes.S n) i body s = body (i + Z.of_nat n) (for_loop n i body s).
Proof.
  induction n as [|n IH]; intros i s.
  - simpl. now rewrite Z.add_0_r.
  - change (for_loop (Datatypes.S (Datatypes.S n)) i body s)
      with (for_loop (Datatypes.S n) (i + 1) body (body i s)).
    rewrite IH. simpl for_loop. f_equal. lia.
Qed.

Lemma shiftr1_land1 major : 0 <= major ->
  Z.shiftr major 1 = major / 2 /\ Z.land major 1 = major mod 2.
Proof.
  intros H. split.
  - now rewrite Z.shiftr_div_pow2 by lia.
  - change 1 with (Z.ones 1) at 1. now rewrite Z.land_ones by lia.
Qed.

Section Parity.
Variable L : luts.
Variables major_count minor_count major_mult minor_inc : Z.
Let size := major_count * minor_count.

Hypothesis size_pos : 0 < size.
Hypothesis size_u32 : 2 * size <= 2 ^ 32.
Hypothesis counts_pos : 0 <= major_count /\ 0 <= minor_count.
Hypothesis inc_range : 0 <= minor_inc <= size.
Hypothesis mult_pos : 0 <= major_mult.
Hypothesis start_range : forall major, 0 <= major < major_count ->
  0 <= major / 2 * major_mult + major mod 2 < size.

Lemma ecc_next_index_mod index :
  0 <= index < size ->
  ecc_next_index size minor_inc index = (index + minor_inc) mod size
  /\ 0 <= ecc_next_index size minor_inc index < size
  /\ wrap32 (index + minor_inc) - size < size.
Proof.
  intros Hi. unfold ecc_next_index.
  rewrite (wrap32_small (index + minor_inc)) by lia.
  destruct (index + minor_inc >=? size) eqn:E.
  - rewrite wrap32_small by lia.
    assert (Hm : (index + minor_inc) mod size = index + minor_inc - size).
    { symmetry. apply (Z.mod_unique _ _ 1); lia. }
    rewrite Hm. lia.
  - rewrite Z.mod_small by lia. lia.
Qed.

Lemma ecc_start_index_small major :
  0 <= major < major_count ->
  ecc_start_index major_mult major = Z.shiftr major 1 * major_mult + Z.land major 1
  /\ 0 <= ecc_start_index major_mult major < size.
Proof.
  intros Hm. unfold ecc_start_index.
  destruct (shiftr1_land1 major ltac:(lia)) as [-> ->].
  pose proof (start_range major Hm).
  assert (0 <= major mod 2 < 2) by (apply Z.mod_pos_bound; lia).
  assert (0 <= major / 2) by (apply Z.div_pos; lia).
  assert (0 <= major / 2 * major_mult) by (apply Z.mul_nonneg_nonneg; lia).
  rewrite (wrap32_small (major / 2 * major_mult)) by lia.
  rewrite wrap32_small by lia. lia.
Qed.

(** Every index the inner loop reads is below [size], and so is the
    index it is left with. *)
Lemma ecc_indices_range n : forall index,
  0 <= index < size ->
  Forall (fun i => 0 <= i < size) (ecc_indices size minor_inc n index).
Proof.
  induction n as [|n IH]; intros index Hi; simpl; constructor; [exact Hi|].
  apply IH, ecc_next_index_mod, Hi.
Qed.

(** The inner loop looks at [src] at the indices of [ecc_indices] only. *)
Lemma ecc_minor_loop_reads (src src' : list Z) n : forall index a b,
  Forall (fun i => rd src i = rd src' i) (ecc_indices size minor_inc n index) ->
  ecc_minor_loop L src size minor_inc n index a b
  = ecc_minor_loop L src' size minor_inc n index a b.
Proof.
  induction n as [|n IH]; intros index a b H; simpl; [reflexivity|].
  simpl in H. inversion H as [|? ? Hhd Htl]; subst. rewrite Hhd. now apply IH.
Qed.

(** The inner loop is the walk of the specification. *)
Lemma ecc_minor_loop_walk (src : list Z) n : forall index a b,
  0 <= index < size ->
  exists index',
    ecc_minor_loop L src size minor_inc n index a b
    = (index', fst (parityWalk (ecc_f_lut L) src size minor_inc n index a b),
               snd (parityWalk (ecc_f_lut L) src size minor_inc n index a b))
    /\ 0 <= index' < size.
Proof.
  induction n as [|n IH]; intros index a b Hi; simpl.
  - exists index. split; [reflexivity|exact Hi].
  - destruct (ecc_next_index_mod index Hi) as (Hmod & Hr & _).
    rewrite <- Hmod. apply IH, Hr.
Qed.

(** The walk of the specification looks at the first [size] entries
    of the buffer only. *)
Lemma parityWalk_ext (f buf buf' : list Z) n : forall index a b,
  (forall k, 0 <= k < size -> rd buf k = rd buf' k) ->
  0 <= index < size ->
  parityWalk f buf size minor_inc n index a b
  = parityWalk f buf' size minor_inc n index a b.
Proof.
  induction n as [|n IH]; intros index a b H Hi; simpl; [reflexivity|].
  rewrite (H index Hi). apply IH; [exact H|]. apply Z.mod_pos_bound, size_pos.
Qed.

Lemma parityPair_ext (f g buf buf' : list Z) major :
  (forall k, 0 <= k < size -> rd buf k = rd buf' k) ->
  0 <= major < major_count ->
  parityPair f g buf major_count minor_count major_mult minor_inc major
  = parityPair f g buf' major_count minor_count major_mult minor_inc major.
Proof.
  intros H Hm. unfold parityPair. fold size.
  rewrite (parityWalk_ext f buf buf'); [reflexivity|exact H|].
  destruct (ecc_start_index_small major Hm) as [<- Hr]. exact Hr.
Qed.

Lemma computeParity_prefix (f g buf more : list Z) :
  (Z.to_nat size <= length buf)%nat ->
  computeParity f g (buf ++ more) major_count minor_count major_mult minor_inc
  = computeParity f g buf major_count minor_count major_mult minor_inc.
Proof.
  intros Hlen. unfold computeParity.
  assert (E : forall i major,
             (Z.of_nat <$> seq 0 (Z.to_nat major_count)) !! i = Some major ->
             parityPair f g (buf ++ more) major_count minor_count major_mult minor_inc major
             = parityPair f g buf major_count minor_count major_mult minor_inc major).
  { intros i major Hl. rewrite list_lookup_fmap in Hl.
    destruct (seq 0 (Z.to_nat major_count) !! i) as [j|] eqn:Hj; [|discriminate].
    apply lookup_seq in Hj as [-> Hi]. injection Hl as <-.
    apply parityPair_ext; [|lia].
    intros k Hk. unfold rd. rewrite lookup_app_l by lia. reflexivity. }
  f_equal; apply list_fmap_ext; intros i major Hl; simpl; now rewrite (E i major Hl).
Qed.

Variables src dest : nat.
Hypothesis dest_after : (src + Z.to_nat size <= dest)%nat.
Hypothesis major_u32 : 2 * major_count < 2 ^ 32.

Let pair (buf : list Z) :=
  parityPair (ecc_f_lut L) (ecc_b_lut L) buf
    major_count minor_count major_mult minor_inc.

(** One turn of the outer loop stores the two bytes of the
    specification. *)
Lemma ecc_major_body_spec (mem : list Z) (major : Z) :
  0 <= major < major_count ->
  ecc_major_body L src major_count minor_count major_mult minor_inc dest major mem
  = <[(dest + Z.to_nat major_count + Z.to_nat major)%nat := snd (pair (drop src mem) major)]>
      (<[(dest + Z.to_nat major)%nat := fst (pair (drop src mem) major)]> mem).
Proof.
  intros Hm. unfold ecc_major_body, pair, parityPair. fold size.
  rewrite (wrap32_small size) by lia.
  destruct (ecc_start_index_small major Hm) as [Hs Hr].
  destruct (ecc_minor_loop_walk (drop src mem) (Z.to_nat minor_count)
              (ecc_start_index major_mult major) 0 0 Hr) as (index' & -> & _).
  rewrite <- Hs.
  destruct (parityWalk (ecc_f_lut L) (drop src mem) size minor_inc
              (Z.to_nat minor_count) (ecc_start_index major_mult major) 0 0)
    as [a b]. simpl.
  rewrite (wrap32_small (major + major_count)) by lia.
  f_equal. lia.
Qed.

(** Storing at or after [dest] leaves the bytes the engine reads where
    they are. *)
Lemma region_inserts (mem k : list Z) (j : nat) :
  (dest <= j)%nat ->
  forall i, 0 <= i < size ->
    rd (drop src (list_inserts j k mem)) i = rd (drop src mem) i.
Proof.
  intros Hj i Hi. unfold rd. rewrite !lookup_drop.
  rewrite list_lookup_inserts_lt by lia. reflexivity.
Qed.

Lemma ecc_major_loop_spec (mem : list Z) (n : nat) :
  (n <= Z.to_nat major_count)%nat ->
  let majors := Z.of_nat <$> seq 0 n in
  for_loop n 0
    (ecc_major_body L src major_count minor_count major_mult minor_inc dest) mem
  = list_inserts (dest + Z.to_nat major_count)
      ((fun major => snd (pair (drop src mem) major)) <$> majors)
      (list_inserts dest ((fun major => fst (pair (drop src mem) major)) <$> majors) mem).
Proof.
  induction n as [|n IH]; intros Hn; [reflexivity|].
  cbv zeta in *. rewrite for_loop_snoc, IH by lia. clear IH.
  rewrite Z.add_0_l, seq_S, fmap_app, !fmap_app. simpl seq. simpl fmap.
  set (P1 := (fun major => fst (pair (drop src mem) major)) <$> (Z.of_nat <$> seq 0 n)).
  set (P2 := (fun major => snd (pair (drop src mem) major)) <$> (Z.of_nat <$> seq 0 n)).
  assert (HP1 : length P1 = n) by (unfold P1; now rewrite !length_fmap, length_seq).
  assert (HP2 : length P2 = n) by (unfold P2; now rewrite !length_fmap, length_seq).
  rewrite ecc_major_body_spec by lia.
  set (M := list_inserts (dest + Z.to_nat major_count) P2 (list_inserts dest P1 mem)).
  assert (Hpair : pair (drop src M) (Z.of_nat n) = pair (drop src mem) (Z.of_nat n)).
  { unfold pair. apply parityPair_ext; [|lia].
    intros k Hk. unfold M.
    rewrite region_inserts by lia. rewrite region_inserts by lia. reflexivity. }
  rewrite Hpair, Nat2Z.id.
  rewrite !list_inserts_app_l, HP1, HP2. simpl list_inserts.
  unfold M. rewrite list_insert_inserts_lt by lia.
  f_equal; [lia|]. f_equal. f_equal. lia.
Qed.

Lemma ecc_computeblock_spec (mem : list Z) :
  ecc_computeblock L mem src major_count minor_count major_mult minor_inc dest
  = list_inserts dest
      (computeParity (ecc_f_lut L) (ecc_b_lut L) (drop src mem)
         major_count minor_count major_mult minor_inc) mem.
Proof.
  unfold ecc_computeblock, computeParity.
  rewrite ecc_major_loop_spec by lia. cbv zeta.
  rewrite list_inserts_app_l, !length_fmap, length_seq.
  rewrite <- !list_fmap_compose. f_equal. lia.
Qed.
End Parity.

(** The two calls of [ecc_generate] meet the conditions of the section. *)
Lemma P_start_range major :
  0 <= major < 86 -> 0 <= major / 2 * 2 + major mod 2 < 86 * 24.
Proof.
  intros H. pose proof (Z.div_mod major 2 ltac:(lia)).
  pose proof (Z.mod_pos_bound major 2 ltac:(lia)). lia.
Qed.

Lemma Q_start_range major :
  0 <= major < 52 -> 0 <= major / 2 * 86 + major mod 2 < 52 * 43.
Proof.
  intros H. pose proof (Z.div_mod major 2 ltac:(lia)).
  pose proof (Z.mod_pos_bound major 2 ltac:(lia)). lia.
Qed.

Lemma ecc_computeblock_P (L : luts) (mem : list Z) :
  ecc_computeblock L mem 0xC 86 24 2 86 0x81C
  = list_inserts 0x81C
      (computeParity (ecc_f_lut L) (ecc_b_lut L) (drop 0xC mem) 86 24 2 86) mem.
Proof.
  apply ecc_computeblock_spec; try lia. apply P_start_range.
Qed.

Lemma ecc_computeblock_Q (L : luts) (mem : list Z) :
  ecc_computeblock L mem 0xC 52 43 86 88 0x8C8
  = list_inserts 0x8C8
      (computeParity (ecc_f_lut L) (ecc_b_lut L) (drop 0xC mem) 52 43 86 88) mem.
Proof.
  apply ecc_computeblock_spec; try lia. apply Q_start_range.
Qed.

(** C4: [ecc_computeblock], called as [ecc_generate] calls it, stores at
    [0x81C] (P: 86 majors, 24 minors, stride 2, increment 86) and at
    [0x8C8] (Q: 52 majors, 43 minors, stride 86, increment 88) the bytes
    that the parity engine of the specification computes over the
    region that starts at offset [0x00C]: for each major the walk from
    [(major >> 1) * stride + (major & 1)] with the index wrapping modulo
    [majorCount * minorCount], [a] passed through [ecc_f_lut] after each
    byte, [b] the plain xor, the final byte
    [ecc_b_lut[ecc_f_lut[a] ^ b]] at position [major] and the final byte
    xor [b] at position [major + majorCount]; [ecc_generate] is the P
    call followed by the Q call. *)
Theorem C4_parity_engine (L : luts) (sector : list Z) :
  ecc_computeblock L sector 0xC 86 24 2 86 0x81C
  = list_inserts 0x81C
      (computeParity (ecc_f_lut L) (ecc_b_lut L) (drop 0xC sector) 86 24 2 86) sector
  /\ ecc_computeblock L sector 0xC 52 43 86 88 0x8C8
     = list_inserts 0x8C8
         (computeParity (ecc_f_lut L) (ecc_b_lut L) (drop 0xC sector) 52 43 86 88) sector
  /\ ecc_generate L sector 0
     = ecc_computeblock L (ecc_computeblock L sector 0xC 86 24 2 86 0x81C)
         0xC 52 43 86 88 0x8C8.
Proof.
  split; [apply ecc_computeblock_P|].
  split; [apply ecc_computeblock_Q|].
  reflexivity.
Qed.

(** C10: in the P call and in the Q call of [ecc_computeblock], every
    index at which the inner loop reads is below [major_count *
    minor_count], so the byte read lies inside the 2352 bytes of the
    sector; one subtraction of the region size after the increment brings
    the index back below it; and the loop looks at the buffer at these
    indices only. *)
Theorem C10_parity_index_in_bounds
    (major_count minor_count major_mult minor_inc major : Z) :
  (major_count, minor_count, major_mult, minor_inc) = (86, 24, 2, 86)
  \/ (major_count, minor_count, major_mult, minor_inc) = (52, 43, 86, 88) ->
  0 <= major < major_count ->
  let size := wrap32 (major_count * minor_count) in
  let start := ecc_start_index major_mult major in
  let reads := ecc_indices size minor_inc (Z.to_nat minor_count) start in
  Forall (fun index =>
            0 <= index < major_count * minor_count
            /\ 0xC + index < 2352
            /\ wrap32 (index + minor_inc) - size < size
            /\ 0 <= ecc_next_index size minor_inc index < size) reads
  /\ forall (L : luts) (src src' : list Z) (a b : Z),
       Forall (fun index => rd src index = rd src' index) reads ->
       ecc_minor_loop L src size minor_inc (Z.to_nat minor_count) start a b
       = ecc_minor_loop L src' size minor_inc (Z.to_nat minor_count) start a b.
Proof.
  intros Hcall Hmajor size start reads.
  destruct Hcall as [Hcall|Hcall]; inversion Hcall; subst;
    subst reads start size.
  - change (wrap32 (86 * 24)) with (86 * 24). split.
    + eapply Forall_impl.
      * apply (ecc_indices_range 86 24 86); try lia.
        apply (ecc_start_index_small 86 24 2); try lia. apply P_start_range.
      * intros index Hi. simpl in Hi.
        pose proof (ecc_next_index_mod 86 24 86 ltac:(lia) ltac:(lia) ltac:(lia) index Hi).
        lia.
    + intros L src src' a b. apply ecc_minor_loop_reads.
  - change (wrap32 (52 * 43)) with (52 * 43). split.
    + eapply Forall_impl.
      * apply (ecc_indices_range 52 43 88); try lia.
        apply (ecc_start_index_small 52 43 86); try lia. apply Q_start_range.
      * intros index Hi. simpl in Hi.
        pose proof (ecc_next_index_mod 52 43 88 ltac:(lia) ltac:(lia) ltac:(lia) index Hi).
        lia.
    + intros L src src' a b. apply ecc_minor_loop_reads.
Qed.

Lemma length_computeParity (f g buf : list Z) (mc nc mult inc : Z) :
  length (computeParity f g buf mc nc mult inc) = (Z.to_nat mc + Z.to_nat mc)%nat.
Proof. unfold computeParity. now rewrite length_app, !length_fmap, length_seq. Qed.

(** ** Writing into the sector buffer *)

Ltac by_lookup :=
  apply list_eq; intros ?i;
  repeat (rewrite list_lookup_insert || rewrite length_insert);
  repeat case_decide; try reflexivity; try congruence; try lia.

(** Four stores at rising offsets are the copy of a block of four. *)
Lemma inserts4 (l : list Z) (i : nat) (a b c d : Z) :
  <[(i + 3)%nat := d]> (<[(i + 2)%nat := c]> (<[(i + 1)%nat := b]> (<[i := a]> l)))
  = list_inserts i [a; b; c; d] l.
Proof. simpl list_inserts. by_lookup. Qed.

(** A block copied over a segment of the buffer replaces the segment. *)
Lemma inserts_seg (pre old post k : list Z) (off : nat) :
  length pre = off -> length k = length old ->
  list_inserts off k (pre ++ old ++ post) = pre ++ k ++ post.
Proof.
  intros <- Hk. rewrite <- (Nat.add_0_r (length pre)).
  rewrite list_inserts_app_r. f_equal. now apply list_inserts_0_r.
Qed.

Lemma inserts_whole (k l : list Z) :
  length k = length l -> list_inserts 0 k l = k.
Proof.
  intros Hk. rewrite <- (app_nil_r k) at 1. now apply list_inserts_0_l.
Qed.

Lemma slice_inserts_lt (l k : list Z) (off n j : nat) :
  (off + n <= j)%nat ->
  take n (drop off (list_inserts j k l)) = take n (drop off l).
Proof.
  intros H. apply list_eq; intros i.
  destruct (decide (i < n)%nat).
  - rewrite !lookup_take_lt, !lookup_drop by lia.
    now rewrite list_lookup_inserts_lt by lia.
  - now rewrite !lookup_take_ge by lia.
Qed.

Lemma slice_inserts_same (l k : list Z) (off : nat) :
  (off + length k <= length l)%nat ->
  take (length k) (drop off (list_inserts off k l)) = k.
Proof.
  intros H. apply list_eq; intros i.
  destruct (decide (i < length k)%nat).
  - rewrite lookup_take_lt, lookup_drop by lia.
    rewrite list_lookup_inserts by lia. f_equal. lia.
  - rewrite lookup_take_ge by lia. symmetry. apply lookup_ge_None. lia.
Qed.

Lemma slice4 (l : list Z) (off : nat) :
  (off + 4 <= length l)%nat ->
  take 4 (drop off l)
  = [rd l (Z.of_nat off); rd l (Z.of_nat off + 1);
     rd l (Z.of_nat off + 2); rd l (Z.of_nat off + 3)].
Proof.
  intros H. apply list_eq; intros i. unfold rd.
  assert (forall j : nat, (j < 4)%nat ->
            Some (default 0 (l !! (off + j)%nat)) = l !! (off + j)%nat) as E.
  { intros j Hj. destruct (lookup_lt_is_Some_2 l (off + j)%nat ltac:(lia)) as [x ->].
    reflexivity. }
  destruct (decide (i < 4)%nat) as [Hi|Hi].
  - rewrite lookup_take_lt, lookup_drop by lia. rewrite <- (E i Hi).
    destruct i as [|[|[|[|i]]]]; simpl; try lia; do 2 f_equal; f_equal; lia.
  - rewrite lookup_take_ge by lia.
    destruct i as [|[|[|[|i]]]]; simpl; try lia; reflexivity.
Qed.

Lemma rd_insert_ne (l : list Z) (j : nat) (x i : Z) :
  j <> Z.to_nat i -> rd (<[j := x]> l) i = rd l i.
Proof. intros H. unfold rd. now rewrite list_lookup_insert_ne. Qed.

(** ** The checksum and the parity stored into a sector *)

Lemma edc_partial_prefix (L : luts) (acc : Z) (A more : list Z) (size : Z) :
  size = Z.of_nat (length A) -> size < 2 ^ 16 ->
  edc_partial_computeblock L acc (A ++ more) size
  = edc_partial_computeblock L acc A size.
Proof.
  intros -> H. unfold edc_partial_computeblock.
  rewrite wrap16_small by lia. rewrite Nat2Z.id.
  pose proof (edc_loop_fold L A [] (wrap32 acc)) as H0. rewrite app_nil_r in H0.
  now rewrite edc_loop_fold, H0.
Qed.

Lemma edc_computeblock_inserts (L : luts) (mem : list Z) (src dest : nat) (size : Z) :
  edc_computeblock L mem src size dest
  = list_inserts dest (le32 (edc_partial_computeblock L 0 (drop src mem) size)) mem.
Proof. unfold edc_computeblock, le32. cbv zeta. apply inserts4. Qed.

Lemma ecc_generate_0 (L : luts) (s : list Z) :
  ecc_generate L s 0
  = list_inserts 0x8C8
      (computeParity (ecc_f_lut L) (ecc_b_lut L)
         (drop 0xC (list_inserts 0x81C
            (computeParity (ecc_f_lut L) (ecc_b_lut L) (drop 0xC s) 86 24 2 86) s))
         52 43 86 88)
      (list_inserts 0x81C
         (computeParity (ecc_f_lut L) (ecc_b_lut L) (drop 0xC s) 86 24 2 86) s).
Proof.
  rewrite <- ecc_computeblock_Q, <- ecc_computeblock_P. reflexivity.
Qed.

(** With [zeroaddress] set, [ecc_generate] computes the parity of the
    sector whose bytes 12..15 are zero and puts the four bytes back. *)
Lemma ecc_generate_1 (L : luts) (s : list Z) (zeroaddress : Z) :
  zeroaddress <> 0 ->
  ecc_generate L s zeroaddress
  = list_inserts 0xC [rd s 12; rd s 13; rd s 14; rd s 15]
      (ecc_generate L (list_inserts 0xC (replicate 4 0) s) 0).
Proof.
  intros Hz. unfold ecc_generate.
  destruct (zeroaddress =? 0) eqn:E; [lia|]. clear E.
  change (0 =? 0) with true. cbv beta iota.
  cbn [for_loop].
  assert (E0 : rd s (12 + 0) = rd s 12) by reflexivity.
  assert (E1 : rd (<[Z.to_nat (12 + 0) := 0]> s) (12 + (0 + 1)) = rd s 13)
    by (now rewrite rd_insert_ne by lia).
  assert (E2 : rd (<[Z.to_nat (12 + (0 + 1)) := 0]> (<[Z.to_nat (12 + 0) := 0]> s))
                 (12 + (0 + 1 + 1)) = rd s 14)
    by (now rewrite !rd_insert_ne by lia).
  assert (E3 : rd (<[Z.to_nat (12 + (0 + 1 + 1)) := 0]>
                     (<[Z.to_nat (12 + (0 + 1)) := 0]> (<[Z.to_nat (12 + 0) := 0]> s)))
                 (12 + (0 + 1 + 1 + 1)) = rd s 15)
    by (now rewrite !rd_insert_ne by lia).
  rewrite E0, E1, E2, E3. clear E0 E1 E2 E3.
  change (<[Z.to_nat (0 + 1 + 1 + 1) := rd s 15]>
            (<[Z.to_nat (0 + 1 + 1) := rd s 14]>
               (<[Z.to_nat (0 + 1) := rd s 13]>
                  (<[Z.to_nat 0 := rd s 12]> (replicate 4 0)))))
    with [rd s 12; rd s 13; rd s 14; rd s 15].
  change (rd [rd s 12; rd s 13; rd s 14; rd s 15] 0) with (rd s 12).
  change (rd [rd s 12; rd s 13; rd s 14; rd s 15] (0 + 1)) with (rd s 13).
  change (rd [rd s 12; rd s 13; rd s 14; rd s 15] (0 + 1 + 1)) with (rd s 14).
  change (rd [rd s 12; rd s 13; rd s 14; rd s 15] (0 + 1 + 1 + 1)) with (rd s 15).
  change (Z.to_nat (12 + 0)) with 12%nat.
  change (Z.to_nat (12 + (0 + 1))) with (12 + 1)%nat.
  change (Z.to_nat (12 + (0 + 1 + 1))) with (12 + 2)%nat.
  change (Z.to_nat (12 + (0 + 1 + 1 + 1))) with (12 + 3)%nat.
  rewrite !inserts4. reflexivity.
Qed.

Lemma zero_fill_inserts (s : list Z) (n : nat) :
  for_loop n 0 (fun i sector => <[Z.to_nat (0x814 + i) := 0]> sector) s
  = list_inserts 0x814 (replicate n 0) s.
Proof.
  induction n as [|n IH]; [reflexivity|].
  rewrite for_loop_snoc, IH.
  change (replicate (S n) 0) with (0 :: replicate n 0).
  rewrite replicate_cons_app, list_inserts_app_l, length_replicate.
  simpl list_inserts. f_equal. lia.
Qed.

Lemma length_ecc_generate (L : luts) (s : list Z) (zeroaddress : Z) :
  length (ecc_generate L s zeroaddress) = length s.
Proof.
  destruct (Z.eq_dec zeroaddress 0) as [->|Hz].
  - now rewrite ecc_generate_0, !length_inserts.
  - now rewrite ecc_generate_1, ecc_generate_0, !length_inserts by exact Hz.
Qed.

Lemma length_edc_computeblock (L : luts) (s : list Z) (src dest : nat) (size : Z) :
  length (edc_computeblock L s src size dest) = length s.
Proof. now rewrite edc_computeblock_inserts, length_inserts. Qed.

Lemma ecc_generate_address (L : luts) (s : list Z) (zeroaddress : Z) :
  (16 <= length s)%nat ->
  take 4 (drop 0xC (ecc_generate L s zeroaddress)) = take 4 (drop 0xC s).
Proof.
  intros Hlen. destruct (Z.eq_dec zeroaddress 0) as [->|Hz].
  - rewrite ecc_generate_0. now rewrite !slice_inserts_lt by lia.
  - rewrite ecc_generate_1 by exact Hz.
    rewrite (slice4 s 0xC) by lia.
    apply (slice_inserts_same _ [rd s 12; rd s 13; rd s 14; rd s 15]).
    rewrite length_ecc_generate, length_inserts. simpl. lia.
Qed.

(** C9: with [zeroaddress] set (Mode 2 Form 1), [ecc_generate] computes
    P and Q over the sector whose bytes [0x0C..0x0F] are zero and then
    puts the four bytes back; whatever [zeroaddress] is, bytes
    [0x0C..0x0F] are after the call what they were before it; and
    [eccedc_generate] leaves them as they were for every type. *)
Theorem C9_address_restored (L : luts) (sector : list Z) (zeroaddress type : Z) :
  length sector = 2352%nat ->
  ecc_generate L sector 1
  = list_inserts 0xC (take 4 (drop 0xC sector))
      (ecc_generate L (list_inserts 0xC (replicate 4 0) sector) 0)
  /\ take 4 (drop 0xC (ecc_generate L sector zeroaddress)) = take 4 (drop 0xC sector)
  /\ take 4 (drop 0xC (eccedc_generate L sector type)) = take 4 (drop 0xC sector).
Proof.
  intros Hlen. split; [|split].
  - rewrite ecc_generate_1 by lia. rewrite (slice4 sector 0xC) by lia. reflexivity.
  - apply ecc_generate_address. lia.
  - unfold eccedc_generate.
    destruct (type =? 1); [|destruct (type =? 2); [|destruct (type =? 3)]].
    + rewrite ecc_generate_address, zero_fill_inserts, slice_inserts_lt by
        (rewrite ?zero_fill_inserts, ?length_inserts, ?length_edc_computeblock; lia).
      rewrite edc_computeblock_inserts. now rewrite slice_inserts_lt by lia.
    + rewrite ecc_generate_address by (rewrite length_edc_computeblock; lia).
      rewrite edc_computeblock_inserts. now rewrite slice_inserts_lt by lia.
    + rewrite edc_computeblock_inserts. now rewrite slice_inserts_lt by lia.
    + reflexivity.
Qed.

Lemma C9_address_restored_witness :
  length (replicate 2352 7) = 2352%nat
  /\ ecc_generate tables (replicate 2352 7) 1
     = list_inserts 0xC (take 4 (drop 0xC (replicate 2352 7)))
         (ecc_generate tables (list_inserts 0xC (replicate 4 0) (replicate 2352 7)) 0)
  /\ take 4 (drop 0xC (ecc_generate tables (replicate 2352 7) 1))
     = take 4 (drop 0xC (replicate 2352 7))
  /\ take 4 (drop 0xC (eccedc_generate tables (replicate 2352 7) 2))
     = take 4 (drop 0xC (replicate 2352 7)).
Proof.
  split; [apply length_replicate|].
  apply (C9_address_restored tables (replicate 2352 7) 1 2), length_replicate.
Defined.

Lemma C10_parity_index_in_bounds_witness :
  0 <= 85 < 86
  /\ Forall (fun index =>
               0 <= index < 86 * 24
               /\ 0xC + index < 2352
               /\ wrap32 (index + 86) - wrap32 (86 * 24) < wrap32 (86 * 24)
               /\ 0 <= ecc_next_index (wrap32 (86 * 24)) 86 index < wrap32 (86 * 24))
       (ecc_indices (wrap32 (86 * 24)) 86 (Z.to_nat 24) (ecc_start_index 2 85))
  /\ forall (L : luts) (src src' : list Z) (a b : Z),
       Forall (fun index => rd src index = rd src' index)
         (ecc_indices (wrap32 (86 * 24)) 86 (Z.to_nat 24) (ecc_start_index 2 85)) ->
       ecc_minor_loop L src (wrap32 (86 * 24)) 86 (Z.to_nat 24) (ecc_start_index 2 85) a b
       = ecc_minor_loop L src' (wrap32 (86 * 24)) 86 (Z.to_nat 24) (ecc_start_index 2 85) a b.
Proof.
  split; [lia|].
  apply (C10_parity_index_in_bounds 86 24 2 86 85); [left; reflexivity|lia].
Defined.

(** ** Sector reconstruction *)

Lemma inserts_at (buffer pre old post k : list Z) (off : nat) :
  buffer = pre ++ old ++ post -> length pre = off -> length k = length old ->
  list_inserts off k buffer = pre ++ k ++ post.
Proof. intros ->. apply inserts_seg. Qed.

Lemma bind_Ok {A B} (m : M A) (k : A -> M B) (st st' : state) (a : A) :
  m st = Ok a st' -> bind m k st = k a st'.
Proof. unfold bind. now intros ->. Qed.

(** [fread] when the input holds the bytes asked for. *)
Lemma fread_exact (off n : nat) (st : state) (bytes rest : list Z) :
  inp st = bytes ++ rest -> length bytes = n ->
  fread off n st
  = Ok n (State rest (out st) (checkedc st) (list_inserts off bytes (sector st))).
Proof.
  intros Hin Hlen. unfold fread. rewrite Hin.
  rewrite take_app_length', drop_app_length' by (symmetry; exact Hlen).
  now rewrite Hlen.
Qed.

Lemma length_sync_pattern : length sync_pattern = 12%nat.
Proof. reflexivity. Qed.

Lemma length_le32 (e : Z) : length (le32 e) = 4%nat.
Proof. reflexivity. Qed.

Ltac lengths :=
  repeat (rewrite length_app || rewrite length_replicate
          || rewrite length_computeParity || rewrite length_sync_pattern
          || rewrite length_le32 || rewrite length_cons);
  repeat match goal with H : length _ = _ |- _ => rewrite H end;
  cbn [length]; lia.

(** The buffer of a Mode 1 sector once its address and data are read. *)
Lemma mode1_buffer (address data : list Z) :
  length address = 3%nat -> length data = 2048%nat ->
  list_inserts 0x10 data
    (list_inserts 0xC address
       (<[0x0F%nat := 0x01]>
          (list_inserts 1 (replicate 10 0xFF) (replicate 2352 0))))
  = sync_pattern ++ address ++ [0x01] ++ data ++ replicate 288 0.
Proof.
  intros Ha Hd.
  assert (E : <[0x0F%nat := 0x01]> (list_inserts 1 (replicate 10 0xFF) (replicate 2352 0))
              = sync_pattern ++ [0; 0; 0] ++ [0x01] ++ replicate 2048 0 ++ replicate 288 0)
    by (vm_compute; reflexivity).
  rewrite E. clear E.
  rewrite (inserts_at
             (sync_pattern ++ [0; 0; 0] ++ [0x01] ++ replicate 2048 0 ++ replicate 288 0)
             sync_pattern [0; 0; 0]
             ([0x01] ++ replicate 2048 0 ++ replicate 288 0) address 0xC)
    by (reflexivity || lengths).
  rewrite (inserts_at
             (sync_pattern ++ address ++ [0x01] ++ replicate 2048 0 ++ replicate 288 0)
             (sync_pattern ++ address ++ [0x01]) (replicate 2048 0)
             (replicate 288 0) data 0x10).
  - now rewrite <- !app_assoc.
  - now rewrite <- !app_assoc.
  - lengths.
  - lengths.
Qed.

Lemma mode1_generate (L : luts) (address data : list Z) :
  length address = 3%nat -> length data = 2048%nat ->
  eccedc_generate L (sync_pattern ++ address ++ [0x01] ++ data ++ replicate 288 0) 1
  = mode1_sector L address data.
Proof.
  intros Ha Hd. unfold eccedc_generate, mode1_sector.
  change (1 =? 1) with true. cbv beta iota zeta.
  rewrite zero_fill_inserts, edc_computeblock_inserts, ecc_generate_0, drop_0.
  remember (sync_pattern ++ address ++ [0x01] ++ data) as hd eqn:Ehd.
  assert (Hhd : length hd = 0x810%nat) by (subst hd; lengths).
  assert (HB : sync_pattern ++ address ++ [0x01] ++ data ++ replicate 288 0
               = hd ++ replicate 288 0) by (subst hd; now rewrite <- !app_assoc).
  rewrite HB. clear HB.
  rewrite (edc_partial_accumulate L 0 hd (replicate 288 0) 0x810)
    by (rewrite ?Hhd; reflexivity).
  change (wrap32 0) with 0.
  remember (le32 (accumulate (edc_lut L) 0 hd)) as E eqn:EE.
  assert (HE : length E = 4%nat) by (subst E; reflexivity).
  rewrite (inserts_at (hd ++ replicate 288 0) hd (replicate 4 0) (replicate 284 0) E 0x810);
    cycle 1.
  { now f_equal. }
  { exact Hhd. }
  { exact HE. }
  rewrite (inserts_at (hd ++ E ++ replicate 284 0) (hd ++ E) (replicate 8 0)
             (replicate 276 0) (replicate 8 0) 0x814); cycle 1.
  { rewrite <- !app_assoc. now do 2 f_equal. }
  { lengths. }
  { reflexivity. }
  remember (address ++ [0x01] ++ data ++ E ++ replicate 8 0) as body eqn:Ebody.
  assert (Hbody : length body = 2064%nat) by (subst body; lengths).
  assert (HB : (hd ++ E) ++ replicate 8 0 ++ replicate 276 0
               = sync_pattern ++ body ++ replicate 276 0)
    by (subst hd body; now rewrite <- !app_assoc).
  rewrite HB. clear HB.
  rewrite (drop_app_length' sync_pattern) by reflexivity.
  rewrite (computeParity_prefix 86 24 2 86) by (try lia; apply P_start_range).
  remember (computeParity (ecc_f_lut L) (ecc_b_lut L) body 86 24 2 86) as P eqn:EP.
  assert (HP : length P = 172%nat) by (subst P; rewrite length_computeParity; lia).
  rewrite (inserts_at (sync_pattern ++ body ++ replicate 276 0) (sync_pattern ++ body)
             (replicate 172 0) (replicate 104 0) P 0x81C); cycle 1.
  { rewrite <- !app_assoc. now do 2 f_equal. }
  { lengths. }
  { now rewrite length_replicate. }
  assert (HB : (sync_pattern ++ body) ++ P ++ replicate 104 0
               = sync_pattern ++ (body ++ P) ++ replicate 104 0)
    by (now rewrite <- !app_assoc).
  rewrite HB. clear HB.
  rewrite (drop_app_length' sync_pattern) by reflexivity.
  rewrite (computeParity_prefix 52 43 86 88)
    by (try (rewrite ?length_app, ?Hbody, ?HP; lia); apply Q_start_range).
  remember (computeParity (ecc_f_lut L) (ecc_b_lut L) (body ++ P) 52 43 86 88) as Q eqn:EQ.
  assert (HQ : length Q = 104%nat) by (subst Q; rewrite length_computeParity; lia).
  rewrite (inserts_at (sync_pattern ++ (body ++ P) ++ replicate 104 0)
             (sync_pattern ++ body ++ P) (replicate 104 0) [] Q 0x8C8); cycle 1.
  { now rewrite <- !app_assoc, app_nil_r. }
  { lengths. }
  { now rewrite length_replicate. }
  now rewrite <- !app_assoc, app_nil_r.
Qed.

Lemma slice_mid (whole pre mid post : list Z) (off n : nat) :
  whole = pre ++ mid ++ post -> length pre = off -> length mid = n ->
  take n (drop off whole) = mid.
Proof.
  intros -> Hp Hm.
  rewrite (drop_app_length' pre (mid ++ post) off) by (symmetry; exact Hp).
  apply take_app_length'. symmetry. exact Hm.
Qed.

Lemma length_mode1_sector (L : luts) (address data : list Z) :
  length address = 3%nat -> length data = 2048%nat ->
  length (mode1_sector L address data) = 2352%nat.
Proof. intros Ha Hd. unfold mode1_sector. cbv zeta. lengths. Qed.

(** C1: a Mode 1 repetition whose 3 address bytes and 2048 data bytes
    are there reads them, emits the 2352 bytes of [mode1_sector] (sync
    pattern at [0x000], address at [0x00C], mode byte [0x01] at [0x00F],
    data at [0x010], the little-endian checksum of bytes [0x000..0x80F]
    at [0x810], zeros at [0x814..0x81B], P at [0x81C] and Q at [0x8C8]
    computed with the address bytes in place) and accumulates the
    running checksum over all 2352 of them.  Both checksums are stated
    with [accumulate], the fold of the specification; the running one
    starts from [checkedc], an [ecc_uint32], which is a value that
    [wrap32] leaves as it is. *)
Theorem C1_mode1_sector (L : luts) (st : state) (address data rest : list Z) :
  length (sector st) = 2352%nat ->
  length address = 3%nat ->
  length data = 2048%nat ->
  inp st = address ++ data ++ rest ->
  let s := mode1_sector L address data in
  sector_rep L 1 st
  = Ok tt (State rest (out st ++ s)
             (accumulate (edc_lut L) (wrap32 (checkedc st)) s) s)
  /\ length s = 2352%nat
  /\ take 12 s = sync_pattern
  /\ take 3 (drop 0x00C s) = address
  /\ take 1 (drop 0x00F s) = [0x01]
  /\ take 2048 (drop 0x010 s) = data
  /\ take 4 (drop 0x810 s) = le32 (accumulate (edc_lut L) 0 (take 0x810 s))
  /\ take 8 (drop 0x814 s) = replicate 8 0
  /\ take 172 (drop 0x81C s)
     = computeParity (ecc_f_lut L) (ecc_b_lut L) (take 2064 (drop 0x00C s)) 86 24 2 86
  /\ take 104 (drop 0x8C8 s)
     = computeParity (ecc_f_lut L) (ecc_b_lut L) (take 2236 (drop 0x00C s)) 52 43 86 88.
Proof.
  intros Hs Ha Hd Hin s.
  assert (Hlen : length s = 2352%nat) by (now apply length_mode1_sector).
  split.
  { destruct st as [i o c s0]. simpl in Hs, Hin. subst i.
    unfold sector_rep. change (1 =? 1) with true.
    cbv beta iota zeta delta [bind memset poke fread generate checksum fwrite set_sector
                               ret throw inp out checkedc sector].
    rewrite (take_app_length' address (data ++ rest) 3 (eq_sym Ha)).
    rewrite (drop_app_length' address (data ++ rest) 3 (eq_sym Ha)).
    rewrite Ha. change (negb (3 =? 3)%nat) with false. cbv beta iota.
    rewrite (take_app_length' data rest 2048 (eq_sym Hd)).
    rewrite (drop_app_length' data rest 2048 (eq_sym Hd)).
    rewrite Hd, Nat.eqb_refl. cbv beta iota delta [negb].
    rewrite (inserts_whole (replicate 2352 0) s0) by (now rewrite length_replicate).
    rewrite (mode1_buffer address data Ha Hd), (mode1_generate L address data Ha Hd).
    fold s. rewrite drop_0, (take_ge s 2352) by lia.
    rewrite (edc_partial_whole L c s 2352) by (rewrite ?Hlen; reflexivity).
    reflexivity. }
  split; [exact Hlen|].
  clear Hs Hin Hlen. subst s. unfold mode1_sector. cbv zeta.
  remember (le32 (accumulate (edc_lut L) 0
                    (sync_pattern ++ address ++ [1] ++ data))) as E eqn:EE.
  assert (HE : length E = 4%nat) by (subst E; reflexivity).
  remember (computeParity (ecc_f_lut L) (ecc_b_lut L)
              (address ++ [1] ++ data ++ E ++ replicate 8 0) 86 24 2 86) as P eqn:EP.
  assert (HP : length P = 172%nat) by (subst P; rewrite length_computeParity; lia).
  remember (computeParity (ecc_f_lut L) (ecc_b_lut L)
              ((address ++ [1] ++ data ++ E ++ replicate 8 0) ++ P) 52 43 86 88)
    as Q eqn:EQ.
  assert (HQ : length Q = 104%nat) by (subst Q; rewrite length_computeParity; lia).
  remember (sync_pattern ++ (address ++ [1] ++ data ++ E ++ replicate 8 0) ++ P ++ Q)
    as s eqn:Es.
  assert (S0 : take 2064 s = sync_pattern ++ address ++ [1] ++ data).
  { apply (slice_mid s [] _ (E ++ replicate 8 0 ++ P ++ Q) 0); [|reflexivity|lengths].
    subst s. now rewrite <- !app_assoc. }
  assert (S1 : take 2064 (drop 12 s) = address ++ [1] ++ data ++ E ++ replicate 8 0).
  { apply (slice_mid s sync_pattern _ (P ++ Q)); [|reflexivity|lengths].
    subst s. now rewrite <- !app_assoc. }
  assert (S2 : take 2236 (drop 12 s) = (address ++ [1] ++ data ++ E ++ replicate 8 0) ++ P).
  { apply (slice_mid s sync_pattern _ Q); [|reflexivity|lengths].
    subst s. now rewrite <- !app_assoc. }
  rewrite S0, S1, S2, <- EE, <- EP, <- EQ.
  repeat split.
  - apply (slice_mid s [] _ ((address ++ [1] ++ data ++ E ++ replicate 8 0) ++ P ++ Q) 0);
      [exact Es|reflexivity|reflexivity].
  - apply (slice_mid s sync_pattern _ ([1] ++ data ++ E ++ replicate 8 0 ++ P ++ Q));
      [|reflexivity|exact Ha]. subst s. now rewrite <- !app_assoc.
  - apply (slice_mid s (sync_pattern ++ address) _ (data ++ E ++ replicate 8 0 ++ P ++ Q));
      [|lengths|reflexivity]. subst s. now rewrite <- !app_assoc.
  - apply (slice_mid s (sync_pattern ++ address ++ [1]) _ (E ++ replicate 8 0 ++ P ++ Q));
      [|lengths|exact Hd]. subst s. now rewrite <- !app_assoc.
  - apply (slice_mid s (sync_pattern ++ address ++ [1] ++ data) _ (replicate 8 0 ++ P ++ Q));
      [|lengths|exact HE]. subst s. now rewrite <- !app_assoc.
  - apply (slice_mid s (sync_pattern ++ address ++ [1] ++ data ++ E) _ (P ++ Q));
      [|lengths|reflexivity]. subst s. now rewrite <- !app_assoc.
  - apply (slice_mid s (sync_pattern ++ address ++ [1] ++ data ++ E ++ replicate 8 0) _ Q);
      [|lengths|exact HP]. subst s. now rewrite <- !app_assoc.
  - apply (slice_mid s (sync_pattern ++ address ++ [1] ++ data ++ E ++ replicate 8 0 ++ P)
             _ []); [|lengths|exact HQ]. subst s. now rewrite <- !app_assoc, app_nil_r.
Qed.

Lemma mirror_subheader_spec (st : state) :
  (24 <= length (sector st))%nat ->
  mirror_subheader st
  = Ok tt (set_sector (list_inserts 0x10 (take 4 (drop 0x14 (sector st))) (sector st)) st).
Proof.
  intros Hlen. destruct st as [i o c s]. simpl in Hlen.
  unfold mirror_subheader.
  cbv beta iota zeta delta [bind copy set_sector inp out checkedc sector].
  rewrite (slice4 s 0x14) by lia.
  do 2 f_equal.
  change (Z.of_nat 20) with 20. change (Z.of_nat 21) with 21.
  change (Z.of_nat 22) with 22. change (Z.of_nat 23) with 23.
  assert (E1 : rd (<[16%nat := rd s 20]> s) 21 = rd s 21)
    by (now rewrite rd_insert_ne by lia).
  assert (E2 : rd (<[17%nat := rd s 21]> (<[16%nat := rd s 20]> s)) 22 = rd s 22)
    by (now rewrite !rd_insert_ne by lia).
  assert (E3 : rd (<[18%nat := rd s 22]> (<[17%nat := rd s 21]> (<[16%nat := rd s 20]> s))) 23
               = rd s 23)
    by (now rewrite !rd_insert_ne by lia).
  rewrite E1, E2, E3.
  apply (inserts4 s 16).
Qed.

(** The buffer of a Mode 2 Form 2 sector once its bytes are read and
    the subheader is mirrored. *)
Lemma mode3_buffer (bytes : list Z) :
  length bytes = 2328%nat ->
  let B := list_inserts 0x14 bytes
             (<[0x0F%nat := 0x02]>
                (list_inserts 1 (replicate 10 0xFF) (replicate 2352 0))) in
  B = (sync_pattern ++ [0; 0; 0; 0x02]) ++ [0; 0; 0; 0] ++ bytes ++ replicate 4 0
  /\ list_inserts 0x10 (take 4 (drop 0x14 B)) B
     = (sync_pattern ++ [0; 0; 0; 0x02]) ++ (take 4 bytes ++ bytes) ++ replicate 4 0.
Proof.
  intros Hb B.
  assert (E : <[0x0F%nat := 0x02]> (list_inserts 1 (replicate 10 0xFF) (replicate 2352 0))
              = ((sync_pattern ++ [0; 0; 0; 0x02]) ++ [0; 0; 0; 0])
                ++ replicate 2328 0 ++ replicate 4 0)
    by (vm_compute; reflexivity).
  assert (HB : B = (sync_pattern ++ [0; 0; 0; 0x02]) ++ [0; 0; 0; 0] ++ bytes ++ replicate 4 0).
  { unfold B. rewrite E.
    rewrite (inserts_at _ ((sync_pattern ++ [0; 0; 0; 0x02]) ++ [0; 0; 0; 0])
               (replicate 2328 0) (replicate 4 0) bytes 0x14 eq_refl);
      [now rewrite <- !app_assoc|reflexivity|now rewrite length_replicate]. }
  split; [exact HB|]. clearbody B. subst B.
  assert (Hd : drop 20 ((sync_pattern ++ [0; 0; 0; 0x02]) ++ [0; 0; 0; 0]
                        ++ bytes ++ replicate 4 0) = bytes ++ replicate 4 0)
    by (apply (drop_app_length' (sync_pattern ++ [0; 0; 0; 2] ++ [0; 0; 0; 0])); reflexivity).
  rewrite Hd, (take_app_le bytes) by lia.
  rewrite (inserts_at _ (sync_pattern ++ [0; 0; 0; 0x02]) [0; 0; 0; 0]
             (bytes ++ replicate 4 0) (take 4 bytes) 0x10 eq_refl);
    [now rewrite <- !app_assoc|reflexivity|now rewrite length_take, Hb].
Qed.

Lemma length_mode2form2_block (L : luts) (bytes : list Z) :
  length bytes = 2328%nat -> length (mode2form2_block L bytes) = 2336%nat.
Proof.
  intros Hb. unfold mode2form2_block. cbv zeta.
  rewrite !length_app, length_take, Hb, length_le32. reflexivity.
Qed.

Lemma mode3_generate (L : luts) (bytes : list Z) :
  length bytes = 2328%nat ->
  eccedc_generate L
    ((sync_pattern ++ [0; 0; 0; 0x02]) ++ (take 4 bytes ++ bytes) ++ replicate 4 0) 3
  = (sync_pattern ++ [0; 0; 0; 0x02]) ++ mode2form2_block L bytes.
Proof.
  intros Hb. unfold eccedc_generate, mode2form2_block.
  change (3 =? 1) with false. change (3 =? 2) with false. change (3 =? 3) with true.
  cbv beta iota zeta.
  rewrite edc_computeblock_inserts.
  assert (Hblock : length (take 4 bytes ++ bytes) = 2332%nat)
    by (now rewrite length_app, length_take, Hb).
  remember (take 4 bytes ++ bytes) as block eqn:Eblock.
  rewrite (drop_app_length' (sync_pattern ++ [0; 0; 0; 2])) by reflexivity.
  rewrite (edc_partial_accumulate L 0 block (replicate 4 0) 0x91C)
    by (rewrite ?Hblock; reflexivity).
  change (wrap32 0) with 0.
  remember (le32 (accumulate (edc_lut L) 0 block)) as E eqn:EE.
  rewrite (inserts_at ((sync_pattern ++ [0; 0; 0; 2]) ++ block ++ replicate 4 0)
             ((sync_pattern ++ [0; 0; 0; 2]) ++ block) (replicate 4 0) [] E 0x92C).
  - now rewrite <- !app_assoc, app_nil_r.
  - now rewrite <- !app_assoc, app_nil_r.
  - rewrite length_app, Hblock. reflexivity.
  - subst E. reflexivity.
Qed.

Lemma slice_inserts_ge (l k : list Z) (off n j : nat) :
  (j + length k <= off)%nat ->
  take n (drop off (list_inserts j k l)) = take n (drop off l).
Proof.
  intros H. apply list_eq; intros i.
  destruct (decide (i < n)%nat).
  - rewrite !lookup_take_lt, !lookup_drop by lia.
    now rewrite list_lookup_inserts_ge by lia.
  - now rewrite !lookup_take_ge by lia.
Qed.

(** [ecc_generate] changes nothing before the parity bytes. *)
Lemma ecc_generate_frame (L : luts) (s : list Z) (zeroaddress : Z) (off n : nat) :
  (16 <= off)%nat -> (off + n <= 0x81C)%nat ->
  take n (drop off (ecc_generate L s zeroaddress)) = take n (drop off s).
Proof.
  intros Hoff Hn. destruct (Z.eq_dec zeroaddress 0) as [->|Hz].
  - rewrite ecc_generate_0. now rewrite !slice_inserts_lt by lia.
  - rewrite ecc_generate_1 by exact Hz.
    rewrite slice_inserts_ge by (simpl; lia).
    rewrite ecc_generate_0. rewrite !slice_inserts_lt by lia.
    now rewrite slice_inserts_ge by (simpl; lia).
Qed.

(** Mode 2 Form 1 mirrors the subheader with the same assignments. *)
Lemma mode2form1_mirror (L : luts) (st : state) (bytes rest : list Z) :
  length (sector st) = 2352%nat ->
  length bytes = 0x804%nat ->
  inp st = bytes ++ rest ->
  exists st',
    sector_rep L 2 st = Ok tt st'
    /\ take 4 (drop 0x10 (sector st')) = take 4 bytes
    /\ take 4 (drop 0x14 (sector st')) = take 4 bytes.
Proof.
  intros Hs Hb Hin. destruct st as [i o c s0]. simpl in Hs, Hin. subst i.
  unfold sector_rep.
  change (2 =? 1) with false. change (2 =? 2) with true.
  cbv beta iota zeta delta [bind memset poke fread set_sector
                             ret throw inp out checkedc sector].
  rewrite (take_app_length' bytes rest 0x804 (eq_sym Hb)).
  rewrite (drop_app_length' bytes rest 0x804 (eq_sym Hb)).
  rewrite Hb, Nat.eqb_refl. cbv beta iota delta [negb].
  rewrite (inserts_whole (replicate 2352 0) s0) by (now rewrite length_replicate).
  assert (E : <[0x0F%nat := 0x02]> (list_inserts 1 (replicate 10 0xFF) (replicate 2352 0))
              = ((sync_pattern ++ [0; 0; 0; 0x02]) ++ [0; 0; 0; 0])
                ++ replicate 0x804 0 ++ replicate 280 0)
    by (vm_compute; reflexivity).
  rewrite E. clear E.
  rewrite (inserts_at _ ((sync_pattern ++ [0; 0; 0; 0x02]) ++ [0; 0; 0; 0])
             (replicate 0x804 0) (replicate 280 0) bytes 0x14 eq_refl)
    by (reflexivity || now rewrite length_replicate).
  remember (((sync_pattern ++ [0; 0; 0; 2]) ++ [0; 0; 0; 0]) ++ bytes ++ replicate 280 0)
    as B eqn:EB.
  assert (HB : length B = 2352%nat)
    by (subst B; rewrite !length_app, length_replicate, Hb; reflexivity).
  assert (Hd : take 4 (drop 20 B) = take 4 bytes).
  { subst B. rewrite (drop_app_length' ((sync_pattern ++ [0; 0; 0; 2]) ++ [0; 0; 0; 0]))
      by reflexivity. apply take_app_le. lia. }
  rewrite mirror_subheader_spec by (cbn [sector]; lia).
  cbv beta iota zeta delta [generate checksum fwrite set_sector
                             inp out checkedc sector].
  rewrite Hd. eexists. split; [reflexivity|]. cbn [sector].
  unfold eccedc_generate. change (2 =? 1) with false. change (2 =? 2) with true.
  cbv beta iota zeta.
  rewrite !ecc_generate_frame by lia. rewrite edc_computeblock_inserts.
  split.
  - rewrite slice_inserts_lt by lia.
    assert (Ht : length (take 4 bytes) = 4%nat) by (rewrite length_take; lia).
    rewrite <- Ht at 1. apply slice_inserts_same. lia.
  - rewrite slice_inserts_lt by lia.
    rewrite slice_inserts_ge by (rewrite length_take; lia). exact Hd.
Qed.

(** C8: a Mode 2 Form 2 repetition whose 2328 bytes are there reads
    them to offset [0x14], copies the first four (the subheader) to
    offset [0x10] as a Form 1 repetition does with its 0x804 bytes,
    stores at [0x92C] the little-endian checksum of bytes
    [0x10..0x92B], computes no parity (what lies at [0x81C] and after is
    the end of the bytes read and the checksum), emits the 2336 bytes
    from offset [0x10] and accumulates the running checksum over them.
    Both checksums are stated with [accumulate], the fold of the
    specification; the running one starts from [checkedc], an
    [ecc_uint32], which is a value that [wrap32] leaves as it is. *)
Theorem C8_mode2_form2_sector (L : luts) (st : state) (bytes rest : list Z) :
  length (sector st) = 2352%nat ->
  length bytes = 2328%nat ->
  inp st = bytes ++ rest ->
  let block := mode2form2_block L bytes in
  let s := (sync_pattern ++ [0; 0; 0; 0x02]) ++ block in
  sector_rep L 3 st
  = Ok tt (State rest (out st ++ block)
             (accumulate (edc_lut L) (wrap32 (checkedc st)) block) s)
  /\ (forall (st1 : state) (bytes1 rest1 : list Z),
        length (sector st1) = 2352%nat ->
        length bytes1 = 0x804%nat ->
        inp st1 = bytes1 ++ rest1 ->
        exists st1',
          sector_rep L 2 st1 = Ok tt st1'
          /\ take 4 (drop 0x10 (sector st1')) = take 4 bytes1
          /\ take 4 (drop 0x14 (sector st1')) = take 4 bytes1)
  /\ length s = 2352%nat
  /\ drop 0x10 s = block
  /\ length block = 2336%nat
  /\ take 4 (drop 0x10 s) = take 4 bytes
  /\ take 4 (drop 0x14 s) = take 4 bytes
  /\ take 2328 (drop 0x14 s) = bytes
  /\ drop 0x92C s = le32 (accumulate (edc_lut L) 0 (take 0x91C (drop 0x10 s)))
  /\ take 272 (drop 0x81C s) = drop 2056 bytes.
Proof.
  intros Hs Hb Hin block s.
  assert (Hblock : length block = 2336%nat) by (now apply length_mode2form2_block).
  assert (Hdrop : drop 0x10 s = block)
    by (apply (drop_app_length' (sync_pattern ++ [0; 0; 0; 2])); reflexivity).
  split.
  { destruct st as [i o c s0]. simpl in Hs, Hin. subst i.
    destruct (mode3_buffer bytes Hb) as [HB HM]. cbv zeta in HB, HM.
    unfold sector_rep.
    change (3 =? 1) with false. change (3 =? 2) with false. change (3 =? 3) with true.
    cbv beta iota zeta delta [bind memset poke fread set_sector
                               ret throw inp out checkedc sector].
    rewrite (take_app_length' bytes rest 2328 (eq_sym Hb)).
    rewrite (drop_app_length' bytes rest 2328 (eq_sym Hb)).
    rewrite Hb, Nat.eqb_refl. cbv beta iota delta [negb].
    rewrite (inserts_whole (replicate 2352 0) s0) by (now rewrite length_replicate).
    rewrite mirror_subheader_spec
      by (cbn [sector]; rewrite length_inserts, length_insert, length_inserts,
            length_replicate; lia).
    cbv beta iota zeta delta [generate checksum fwrite set_sector
                               inp out checkedc sector].
    rewrite HM, (mode3_generate L bytes Hb). fold block. fold s.
    rewrite Hdrop, (take_ge block 2336) by lia.
    rewrite (edc_partial_whole L c block 2336) by (rewrite ?Hblock; reflexivity).
    reflexivity. }
  split; [intros st1 bytes1 rest1; apply mode2form1_mirror|].
  split; [subst s; rewrite length_app, Hblock; reflexivity|].
  split; [exact Hdrop|]. split; [exact Hblock|].
  rewrite Hdrop. clear Hs Hin Hdrop Hblock. subst s block.
  unfold mode2form2_block. cbv zeta.
  remember (le32 (accumulate (edc_lut L) 0 (take 4 bytes ++ bytes))) as E eqn:EE.
  assert (Ht : length (take 4 bytes) = 4%nat) by (now rewrite length_take, Hb).
  assert (S1 : take 2332 ((take 4 bytes ++ bytes) ++ E) = take 4 bytes ++ bytes)
    by (apply take_app_length'; rewrite length_app, Ht, Hb; reflexivity).
  rewrite S1, <- EE. repeat split.
  - rewrite <- app_assoc. apply take_app_length'. now rewrite Ht.
  - rewrite <- (take_drop 4 bytes) at 2.
    apply (slice_mid _ ((sync_pattern ++ [0; 0; 0; 2]) ++ take 4 bytes) _ (drop 4 bytes ++ E)).
    + now rewrite <- !app_assoc.
    + rewrite length_app, Ht. reflexivity.
    + exact Ht.
  - apply (slice_mid _ ((sync_pattern ++ [0; 0; 0; 2]) ++ take 4 bytes) _ E);
      [now rewrite <- !app_assoc|rewrite length_app, Ht; reflexivity|exact Hb].
  - apply (drop_app_length' ((sync_pattern ++ [0; 0; 0; 2]) ++ take 4 bytes ++ bytes)).
    + rewrite !length_app, Ht, Hb. reflexivity.
  - rewrite <- (take_drop 2056 bytes) at 2.
    apply (slice_mid _ ((sync_pattern ++ [0; 0; 0; 2]) ++ take 4 bytes ++ take 2056 bytes)
             _ E).
    + now rewrite <- !app_assoc.
    + rewrite !length_app, Ht, length_take, Hb. reflexivity.
    + rewrite length_drop, Hb. reflexivity.
Qed.

(** ** Chunk headers *)

Lemma uint64_land (x : Z) : uint64 x = Z.land x (Z.ones 64).
Proof. unfold uint64. now rewrite Z.land_ones by lia. Qed.

Lemma uint64_lor (a b : Z) : uint64 (Z.lor a b) = Z.lor (uint64 a) (uint64 b).
Proof. rewrite !uint64_land. apply Z.land_lor_distr_l. Qed.

Lemma land_1F_range (x : Z) : 0 <= Z.land x 0x1F < 32.
Proof.
  change 0x1F with (Z.ones 5). rewrite Z.land_ones by lia.
  apply Z.mod_pos_bound. lia.
Qed.

Lemma count_loop_stop (c num bits : Z) (input : list Z) :
  (Z.land c 0x80 =? 0) = true -> count_loop c num bits input = Some (num, input).
Proof. intros H. destruct input; simpl; now rewrite H. Qed.

Lemma count_loop_more (c num bits c' : Z) (rest : list Z) :
  (Z.land c 0x80 =? 0) = false ->
  count_loop c num bits (c' :: rest)
  = count_loop c' (Z.lor num (uint64 (Z.shiftl (Z.land c' 0x7F) (bits mod 64))))
      (wrap32 (bits + 7)) rest.
Proof. intros H. simpl. now rewrite H. Qed.

(** The loop adds to [num] the contributions of the continuation bytes,
    as long as every shift is by less than 64. *)
Lemma count_loop_spec (more : list Z) : forall (c num bits : Z) (rest : list Z),
  chain c more = true ->
  0 <= bits -> bits + 7 * Z.of_nat (length more) < 71 ->
  count_loop c num bits (more ++ rest)
  = Some (Z.lor num (uint64 (countBits bits more)), rest).
Proof.
  induction more as [|c' more IH]; intros c num bits rest Hch Hb Hlen.
  - simpl in Hch. rewrite app_nil_l, count_loop_stop by exact Hch.
    simpl. now rewrite Z.lor_0_r.
  - simpl in Hch. apply andb_prop in Hch as [Hc Hch].
    apply negb_true_iff in Hc.
    change ((c' :: more) ++ rest) with (c' :: (more ++ rest)).
    rewrite count_loop_more by exact Hc.
    rewrite length_cons in Hlen.
    rewrite (Z.mod_small bits 64) by lia.
    rewrite (wrap32_small (bits + 7)) by lia.
    rewrite IH by (try exact Hch; lia).
    simpl countBits. now rewrite uint64_lor, Z.lor_assoc.
Qed.

Lemma fgetc_cons (st : state) (c : Z) (rest : list Z) :
  inp st = c :: rest -> fgetc st = Ok (Some c) (set_inp rest st).
Proof. unfold fgetc. now intros ->. Qed.

(** What [chunk] does with a header of at most nine continuation
    bytes. *)
Lemma chunk_header (L : luts) (st : state) (first : Z) (more rest : list Z) :
  inp st = first :: more ++ rest ->
  chain first more = true ->
  (length more <= 9)%nat ->
  chunk L st
  = dispatch L (Z.land first 3) (uint64 (rawCount first more)) (set_inp rest st).
Proof.
  intros Hin Hch Hlen. unfold chunk.
  rewrite (bind_Ok _ _ _ _ _ (fgetc_cons st first (more ++ rest) Hin)).
  unfold bind, read_count. cbn [inp set_inp].
  rewrite count_loop_spec by (try exact Hch; lia).
  unfold rawCount. rewrite uint64_lor.
  assert (Hsmall : uint64 (Z.land (Z.shiftr first 2) 0x1F) = Z.land (Z.shiftr first 2) 0x1F).
  { unfold uint64. apply Z.mod_small.
    pose proof (land_1F_range (Z.shiftr first 2)). lia. }
  rewrite Hsmall. reflexivity.
Qed.

(** The contributions lie side by side: below [offset] there is nothing,
    and the bit [i] of the continuation byte number [k] is the bit
    [offset + 7k + i] of the count. *)
Lemma countBits_low (more : list Z) : forall offset j,
  0 <= offset -> j < offset -> Z.testbit (countBits offset more) j = false.
Proof.
  induction more as [|c more IH]; intros offset j Ho Hj; simpl.
  - apply Z.testbit_0_l.
  - rewrite Z.lor_spec, IH by lia.
    destruct (Z.neg_nonneg_cases j) as [Hneg|Hpos];
      [now rewrite Z.testbit_neg_r by lia|].
    now rewrite Z.shiftl_spec_low by lia.
Qed.

Lemma countBits_bit (more : list Z) : forall offset (k : nat) c i,
  0 <= offset -> more !! k = Some c -> 0 <= i < 7 ->
  Z.testbit (countBits offset more) (offset + 7 * Z.of_nat k + i) = Z.testbit c i.
Proof.
  induction more as [|c0 more IH]; intros offset k c i Ho Hk Hi; [discriminate|].
  simpl countBits. rewrite Z.lor_spec, Z.shiftl_spec by lia.
  rewrite Z.land_spec. change 0x7F with (Z.ones 7).
  destruct k as [|k].
  - injection Hk as ->.
    replace (offset + 7 * Z.of_nat 0 + i - offset) with i by lia.
    rewrite Z.ones_spec_low by lia.
    rewrite countBits_low by lia. now rewrite andb_true_r, orb_false_r.
  - rewrite Z.ones_spec_high by lia. rewrite andb_false_r, orb_false_l.
    replace (offset + 7 * Z.of_nat (S k) + i) with (offset + 7 + 7 * Z.of_nat k + i) by lia.
    apply IH; [lia|exact Hk|exact Hi].
Qed.

Lemma uint64_testbit (x j : Z) : 0 <= j < 64 -> Z.testbit (uint64 x) j = Z.testbit x j.
Proof. intros H. unfold uint64. apply Z.mod_pow2_bits_low. lia. Qed.

(** C2, as stated, fails where the count leaves its 64 bits.  By the
    rule of the offsets the header [FC FF FF FF FF FF FF FF FF 07] holds
    the count [2 ^ 64 - 1], which is not [0xFFFFFFFF] and whose
    increment is above [2 ^ 63]: the chunk is not rejected, the
    increment wraps to 0 and the turn goes on as after a literal of no
    byte.  In the header [80 80 80 80 80 80 80 80 80 08] the ninth
    continuation byte has its bit 3 at offset 64: by the rule the count
    is [2 ^ 64], the decoder has 0 and copies a literal of one byte. *)
Lemma C2_count_is_64_bits :
  (chain 0xFC sample_all_ones = true
   /\ rawCount 0xFC sample_all_ones = 2 ^ 64 - 1
   /\ rawCount 0xFC sample_all_ones <> 0xFFFFFFFF
   /\ 2 ^ 63 <= rawCount 0xFC sample_all_ones + 1
   /\ chunk tables (initial (0xFC :: sample_all_ones ++ [1; 2; 3]))
      = Ok false (initial [1; 2; 3]))
  /\ (chain 0x80 sample_bit_64 = true
      /\ rawCount 0x80 sample_bit_64 = 2 ^ 64
      /\ exists st',
           chunk tables (initial (0x80 :: sample_bit_64 ++ [1; 2; 3])) = Ok false st'
           /\ inp st' = [2; 3] /\ out st' = [1]).
Proof.
  split.
  - split; [reflexivity|]. split; [reflexivity|]. split; [discriminate|].
    split; [vm_compute; discriminate|]. vm_compute. reflexivity.
  - split; [reflexivity|]. split; [reflexivity|].
    eexists. split; [vm_compute; reflexivity|]. split; reflexivity.
Qed.

(** C2, amended: the header of a chunk of at most nine continuation
    bytes, the ones whose shifts are below 64.  The low 2 bits of the
    first byte are the type, its bits 2-6 the bits 0-4 of the count, and
    while the last byte read has its top bit set the next byte gives its
    low 7 bits at the offsets 5, 12, 19, ... of the count, a 64-bit
    value: what would lie at bit 64 or above is dropped.  A count of
    [0xFFFFFFFF] ends the loop with nothing written and nothing
    accumulated; any other count is incremented modulo [2 ^ 64],
    [InvalidChunkLength] is the outcome when the result is [2 ^ 63] or
    more, and otherwise the loop of the type runs with the incremented
    count.  The header byte [0x00] is a literal of count 1. *)
Theorem C2_chunk_header (L : luts) (st : state) (first : Z) (more rest : list Z) :
  inp st = first :: more ++ rest ->
  chain first more = true ->
  (length more <= 9)%nat ->
  let type := Z.land first 3 in
  let raw := uint64 (rawCount first more) in
  let count := uint64 (raw + 1) in
  let after := set_inp rest st in
  ((forall i, 0 <= i < 5 -> Z.testbit raw i = Z.testbit first (i + 2))
   /\ (forall (k : nat) c i, more !! k = Some c -> 0 <= i < 7 ->
         5 + 7 * Z.of_nat k + i < 64 ->
         Z.testbit raw (5 + 7 * Z.of_nat k + i) = Z.testbit c i))
  /\ (raw = 0xFFFFFFFF ->
        chunk L st = Ok true after
        /\ forall fuel, chunks L (S fuel) st = Ok tt after)
  /\ (raw <> 0xFFFFFFFF -> 2 ^ 63 <= count ->
        chunk L st = Err InvalidChunkLength after)
  /\ (raw <> 0xFFFFFFFF -> count < 2 ^ 63 ->
        chunk L st
        = ((if type =? 0 then fueled (fun fuel => literal_loop L fuel count)
            else fueled (fun fuel => sector_loop L type fuel count)) ;;
           ret false) after)
  /\ (first = 0x00 -> more = [] /\ type = 0 /\ count = 1).
Proof.
  intros Hin Hch Hlen type raw count after.
  pose proof (chunk_header L st first more rest Hin Hch Hlen) as Hchunk.
  fold type raw after in Hchunk.
  split; [split|split; [|split; [|split]]].
  - intros i Hi. unfold raw, rawCount.
    rewrite uint64_testbit, Z.lor_spec, Z.land_spec, Z.shiftr_spec by lia.
    change 0x1F with (Z.ones 5). rewrite Z.ones_spec_low by lia.
    rewrite countBits_low by lia. now rewrite andb_true_r, orb_false_r.
  - intros k c i Hk Hi H64. unfold raw, rawCount.
    rewrite uint64_testbit, Z.lor_spec, Z.land_spec by lia.
    change 0x1F with (Z.ones 5). rewrite Z.ones_spec_high by lia.
    rewrite andb_false_r, orb_false_l. now apply countBits_bit.
  - intros Hraw.
    assert (H1 : chunk L st = Ok true after).
    { rewrite Hchunk. unfold dispatch. rewrite Hraw. reflexivity. }
    split; [exact H1|]. intros fuel. simpl chunks. unfold bind. now rewrite H1.
  - intros Hraw Hbig. rewrite Hchunk. unfold dispatch.
    destruct (raw =? 0xFFFFFFFF) eqn:E; [lia|]. cbv zeta. fold count.
    destruct (count >=? 0x8000000000000000) eqn:E2; [reflexivity|lia].
  - intros Hraw Hsmall. rewrite Hchunk. unfold dispatch.
    destruct (raw =? 0xFFFFFFFF) eqn:E; [lia|]. cbv zeta. fold count.
    destruct (count >=? 0x8000000000000000) eqn:E2; [lia|reflexivity].
  - intros ->. destruct more as [|c' more]; [|discriminate Hch].
    split; [reflexivity|]. split; reflexivity.
Qed.

(** ** Orderly computations *)

Lemma orderly_ret {A} (a : A) : orderly (ret a).
Proof.
  intros st a' st' H. injection H as <- <-. split; [reflexivity|].
  exists []. split; [reflexivity|]. intros unread _. reflexivity.
Qed.

Lemma orderly_throw {A} (e : failure) : orderly (@throw A e).
Proof. intros st a st' H. discriminate H. Qed.

Lemma set_inp_same (st : state) : set_inp (inp st) st = st.
Proof. now destruct st. Qed.

Lemma orderly_bind {A B} (m : M A) (k : A -> M B) :
  orderly m -> (forall a, orderly (k a)) -> orderly (bind m k).
Proof.
  intros Hm Hk st b st2 H. unfold bind in H.
  destruct (m st) as [a st1| |] eqn:E1; try discriminate H.
  destruct (Hm st a st1 E1) as (Hs1 & c1 & Hin1 & Hre1).
  destruct (Hk a st1 b st2 H) as (Hs2 & c2 & Hin2 & Hre2).
  split; [congruence|].
  exists (c1 ++ c2). split; [rewrite Hin1, Hin2; apply app_assoc|].
  intros unread Hlen. unfold bind.
  rewrite <- app_assoc, (Hre1 (c2 ++ unread))
    by (rewrite Hin2, !length_app; lia).
  rewrite <- (Hre2 unread Hlen). f_equal.
Qed.

Lemma orderly_if {A} (b : bool) (m1 m2 : M A) :
  orderly m1 -> orderly m2 -> orderly (if b then m1 else m2).
Proof. now destruct b. Qed.

(** Computations that leave the input alone. *)
Lemma orderly_local {A} (m : M A) (a : A) (f : state -> list Z * Z * list Z) :
  (forall st, m st = Ok a (State (inp st) (f st).1.1 (f st).1.2 (f st).2)) ->
  (forall st i, f (set_inp i st) = f st) ->
  (forall st, length (f st).2 = length (sector st)) ->
  orderly m.
Proof.
  intros Hm Hf Hlen st a' st' H. rewrite Hm in H. injection H as <- <-.
  split; [apply Hlen|]. exists []. split; [reflexivity|].
  intros unread _. rewrite Hm, Hf. reflexivity.
Qed.

Lemma length_eccedc_generate (L : luts) (s : list Z) (type : Z) :
  length (eccedc_generate L s type) = length s.
Proof.
  unfold eccedc_generate.
  destruct (type =? 1); [|destruct (type =? 2); [|destruct (type =? 3)]];
    rewrite ?length_ecc_generate, ?zero_fill_inserts, ?length_inserts,
      ?length_edc_computeblock; reflexivity.
Qed.

Lemma orderly_fwrite (off n : nat) : orderly (fwrite off n).
Proof.
  apply (orderly_local _ tt
           (fun st => (out st ++ take n (drop off (sector st)), checkedc st, sector st)));
    reflexivity.
Qed.

Lemma orderly_checksum (L : luts) (off : nat) (size : Z) : orderly (checksum L off size).
Proof.
  apply (orderly_local _ tt
           (fun st => (out st,
                       edc_partial_computeblock L (checkedc st) (drop off (sector st)) size,
                       sector st)));
    reflexivity.
Qed.

Lemma orderly_memset (off : nat) (v : Z) (n : nat) : orderly (memset off v n).
Proof.
  apply (orderly_local _ tt
           (fun st => (out st, checkedc st, list_inserts off (replicate n v) (sector st))));
    try reflexivity.
  intros st. apply length_inserts.
Qed.

Lemma orderly_poke (i : nat) (v : Z) : orderly (poke i v).
Proof.
  apply (orderly_local _ tt (fun st => (out st, checkedc st, <[i := v]> (sector st))));
    try reflexivity.
  intros st. apply length_insert.
Qed.

Lemma orderly_copy (i j : nat) : orderly (copy i j).
Proof.
  apply (orderly_local _ tt
           (fun st => (out st, checkedc st,
                       <[i := rd (sector st) (Z.of_nat j)]> (sector st))));
    try reflexivity.
  intros st. apply length_insert.
Qed.

Lemma orderly_generate (L : luts) (type : Z) : orderly (generate L type).
Proof.
  apply (orderly_local _ tt
           (fun st => (out st, checkedc st, eccedc_generate L (sector st) type)));
    try reflexivity.
  intros st. apply length_eccedc_generate.
Qed.

Lemma orderly_fgetc : orderly fgetc.
Proof.
  intros st a st' H. unfold fgetc in H.
  destruct (inp st) as [|c rest] eqn:E.
  - injection H as <- <-. split; [reflexivity|]. exists [].
    split; [now rewrite E|]. intros unread Hlen. rewrite E in Hlen.
    destruct unread; [|discriminate Hlen]. unfold fgetc. simpl.
    rewrite <- E. now rewrite set_inp_same.
  - injection H as <- <-. split; [reflexivity|]. exists [c].
    split; [reflexivity|]. intros unread _. reflexivity.
Qed.

Lemma orderly_fread (off n : nat) : orderly (fread off n).
Proof.
  intros st a st' H. unfold fread in H. injection H as <- <-.
  split; [apply length_inserts|].
  exists (take n (inp st)). cbn [inp]. split; [now rewrite take_drop|].
  intros unread Hlen. unfold fread. cbn [inp set_inp out checkedc sector].
  rewrite length_drop in Hlen.
  destruct (decide (n <= length (inp st))%nat) as [Hn|Hn].
  - rewrite take_app_length', drop_app_length' by (rewrite length_take; lia).
    reflexivity.
  - assert (unread = []) as -> by (destruct unread; [reflexivity|simpl in Hlen; lia]).
    rewrite app_nil_r. rewrite (take_ge (inp st)) by lia.
    rewrite (take_ge (inp st)), (drop_ge (inp st)) by lia. reflexivity.
Qed.

Lemma count_loop_front (input : list Z) : forall c num bits n rest,
  count_loop c num bits input = Some (n, rest) ->
  exists consumed,
    input = consumed ++ rest
    /\ forall unread, count_loop c num bits (consumed ++ unread) = Some (n, unread).
Proof.
  induction input as [|c' input IH]; intros c num bits n rest H;
    destruct (Z.land c 0x80 =? 0) eqn:E.
  - rewrite count_loop_stop in H by exact E. injection H as <- <-.
    exists []. split; [reflexivity|]. intros unread. now apply count_loop_stop.
  - simpl in H. rewrite E in H. discriminate H.
  - rewrite count_loop_stop in H by exact E. injection H as <- <-.
    exists []. split; [reflexivity|]. intros unread. now apply count_loop_stop.
  - rewrite count_loop_more in H by exact E.
    destruct (IH _ _ _ _ _ H) as (consumed & -> & Hre).
    exists (c' :: consumed). split; [reflexivity|]. intros unread.
    change ((c' :: consumed) ++ unread) with (c' :: (consumed ++ unread)).
    rewrite count_loop_more by exact E. apply Hre.
Qed.

Lemma orderly_read_count (c num bits : Z) : orderly (read_count c num bits).
Proof.
  intros st n st' H. unfold read_count in H.
  destruct (count_loop c num bits (inp st)) as [[n' rest]|] eqn:E; [|discriminate H].
  injection H as <- <-. split; [reflexivity|].
  destruct (count_loop_front _ _ _ _ _ _ E) as (consumed & Hin & Hre).
  exists consumed. split; [exact Hin|]. intros unread _.
  unfold read_count. cbn [inp set_inp]. now rewrite Hre.
Qed.

Ltac orderly_step :=
  lazymatch goal with
  | |- orderly (literal_loop _ _ _) => solve [auto]
  | |- orderly (sector_loop _ _ _ _) => solve [auto]
  | |- orderly (chunks _ _) => solve [auto]
  | |- orderly (chunk _) => solve [auto]
  | |- orderly (sector_rep _ _) => solve [auto]
  | |- orderly mirror_subheader => solve [auto]
  | |- orderly (fueled _) => solve [auto]
  | |- orderly (ret _) => apply orderly_ret
  | |- orderly (throw _) => apply orderly_throw
  | |- orderly (fwrite _ _) => apply orderly_fwrite
  | |- orderly (checksum _ _ _) => apply orderly_checksum
  | |- orderly (memset _ _ _) => apply orderly_memset
  | |- orderly (poke _ _) => apply orderly_poke
  | |- orderly (copy _ _) => apply orderly_copy
  | |- orderly (generate _ _) => apply orderly_generate
  | |- orderly fgetc => apply orderly_fgetc
  | |- orderly (fread _ _) => apply orderly_fread
  | |- orderly (read_count _ _ _) => apply orderly_read_count
  | |- orderly (bind _ _) => apply orderly_bind
  | |- orderly (if _ then _ else _) => apply orderly_if
  | |- forall _, orderly _ => intro
  end.

Lemma orderly_literal_loop (L : luts) (fuel : nat) : forall num,
  orderly (literal_loop L fuel num).
Proof.
  induction fuel as [|fuel IH]; intros num; cbn [literal_loop].
  - apply orderly_if; [apply orderly_ret|]. intros st a st' H. discriminate H.
  - cbv zeta. repeat orderly_step.
Qed.

Lemma orderly_mirror_subheader : orderly mirror_subheader.
Proof. unfold mirror_subheader. repeat orderly_step. Qed.

Lemma orderly_sector_rep (L : luts) (type : Z) : orderly (sector_rep L type).
Proof.
  pose proof orderly_mirror_subheader. unfold sector_rep. repeat orderly_step.
Qed.

Lemma orderly_sector_loop (L : luts) (type : Z) (fuel : nat) : forall num,
  orderly (sector_loop L type fuel num).
Proof.
  pose proof (orderly_sector_rep L type).
  induction fuel as [|fuel IH]; intros num; cbn [sector_loop].
  - apply orderly_if; [apply orderly_ret|]. intros st a st' H'. discriminate H'.
  - repeat orderly_step.
Qed.

Lemma orderly_fueled {A} (loop : nat -> M A) :
  (forall fuel, orderly (loop fuel)) -> orderly (fueled loop).
Proof.
  intros Hloop st a st' H. unfold fueled in H.
  destruct (Hloop _ st a st' H) as (Hs & consumed & Hin & Hre).
  split; [exact Hs|]. exists consumed. split; [exact Hin|].
  intros unread Hlen. unfold fueled. cbn [inp set_inp].
  replace (length (consumed ++ unread)) with (length (inp st))
    by (rewrite Hin, !length_app; lia).
  now apply Hre.
Qed.

Lemma orderly_dispatch (L : luts) (type num : Z) : orderly (dispatch L type num).
Proof.
  pose proof (fun n => orderly_fueled (fun fuel => literal_loop L fuel n)
                         (fun fuel => orderly_literal_loop L fuel n)).
  pose proof (fun n => orderly_fueled (fun fuel => sector_loop L type fuel n)
                         (fun fuel => orderly_sector_loop L type fuel n)).
  unfold dispatch. cbv zeta. repeat orderly_step.
Qed.

Lemma orderly_chunk (L : luts) : orderly (chunk L).
Proof.
  unfold chunk. apply orderly_bind; [apply orderly_fgetc|].
  intros [c|]; [|apply orderly_throw].
  apply orderly_bind; [apply orderly_read_count|]. intros num. apply orderly_dispatch.
Qed.

Lemma orderly_chunks (L : luts) (fuel : nat) : orderly (chunks L fuel).
Proof.
  pose proof (orderly_chunk L).
  induction fuel as [|fuel IH]; cbn [chunks].
  - intros st a st' H'. discriminate H'.
  - repeat orderly_step.
Qed.

Lemma orderly_header : orderly header.
Proof. unfold header, expect. repeat orderly_step. Qed.

Lemma orderly_decode (L : luts) : orderly (header ;; fueled (chunks L)).
Proof.
  apply orderly_bind; [apply orderly_header|]. intros _.
  apply orderly_fueled, orderly_chunks.
Qed.

(** ** The trailer *)

Lemma unecmify_split (L : luts) (input : list Z) :
  unecmify L input
  = match (header ;; fueled (chunks L)) (initial input) with
    | Ok _ st => trailer st
    | Err e st => Err e st
    | OutOfFuel => OutOfFuel
    end.
Proof.
  unfold unecmify, bind. destruct (header (initial input)) as [[] st| |]; reflexivity.
Qed.

Lemma trailer_short (st : state) :
  (length (inp st) < 4)%nat ->
  exists st', trailer st = Err UnexpectedEndOfStream st'.
Proof.
  intros H. unfold trailer, bind, fread.
  rewrite length_take, Nat.min_r by lia.
  destruct (length (inp st) =? 4)%nat eqn:E; [apply Nat.eqb_eq in E; lia|].
  eexists. reflexivity.
Qed.

Lemma trailer_spec (st : state) (t rest : list Z) :
  inp st = t ++ rest -> length t = 4%nat -> (4 <= length (sector st))%nat ->
  let st' := State rest (out st) (checkedc st) (list_inserts 0 t (sector st)) in
  (t = le32 (checkedc st) -> trailer st = Ok tt st')
  /\ (t <> le32 (checkedc st) -> trailer st = Err ChecksumMismatch st').
Proof.
  intros Hin Ht Hs st'. unfold trailer.
  rewrite (bind_Ok _ _ _ _ _ (fread_exact 0 4 st t rest Hin Ht)).
  change (negb (4 =? 4)%nat) with false. cbv iota. fold st'.
  destruct t as [|t0 [|t1 [|t2 [|t3 [|]]]]]; try discriminate Ht.
  destruct (sector st) as [|s0 [|s1 [|s2 [|s3 s]]]] eqn:Es; simpl in Hs; try lia.
  subst st'. cbn [sector checkedc].
  change (rd (list_inserts 0 [t0; t1; t2; t3] (s0 :: s1 :: s2 :: s3 :: s)) 0) with t0.
  change (rd (list_inserts 0 [t0; t1; t2; t3] (s0 :: s1 :: s2 :: s3 :: s)) 1) with t1.
  change (rd (list_inserts 0 [t0; t1; t2; t3] (s0 :: s1 :: s2 :: s3 :: s)) 2) with t2.
  change (rd (list_inserts 0 [t0; t1; t2; t3] (s0 :: s1 :: s2 :: s3 :: s)) 3) with t3.
  unfold le32.
  destruct (Z.eqb_spec t0 (Z.land (Z.shiftr (checkedc st) 0) 0xFF)) as [E0|E0];
  destruct (Z.eqb_spec t1 (Z.land (Z.shiftr (checkedc st) 8) 0xFF)) as [E1|E1];
  destruct (Z.eqb_spec t2 (Z.land (Z.shiftr (checkedc st) 16) 0xFF)) as [E2|E2];
  destruct (Z.eqb_spec t3 (Z.land (Z.shiftr (checkedc st) 24) 0xFF)) as [E3|E3];
    cbn [negb orb]; split; intros H; try reflexivity;
    try (injection H as H0 H1 H2 H3; contradiction);
    try (elim H; congruence).
Qed.

Lemma decode_sector_length (L : luts) (input : list Z) (st : state) :
  (header ;; fueled (chunks L)) (initial input) = Ok tt st ->
  length (sector st) = 2352%nat.
Proof.
  intros H. destruct (orderly_decode L _ _ _ H) as [Hs _].
  rewrite Hs. apply length_replicate.
Qed.

(** C5: once the loop over the chunks has ended at the sentinel, in the
    state [st], [unecmify] reads four bytes: with fewer than four left
    the outcome is [UnexpectedEndOfStream]; the four bytes are compared
    with [checkedc], least significant byte first; when they agree the
    decode succeeds (status 0) having read exactly those four, and when
    they do not the outcome is [ChecksumMismatch] - as it is for the
    stream that differs from a valid one in one byte of the trailer. *)
Theorem C5_trailer_check (L : luts) (input : list Z) (st : state) :
  (header ;; fueled (chunks L)) (initial input) = Ok tt st ->
  ((length (inp st) < 4)%nat ->
     exists st', unecmify L input = Err UnexpectedEndOfStream st')
  /\ forall t rest : list Z,
       inp st = t ++ rest -> length t = 4%nat ->
       (t = le32 (checkedc st) ->
          exists st', unecmify L input = Ok tt st'
                      /\ status (unecmify L input) = 0
                      /\ inp st' = rest /\ out st' = out st)
       /\ (t <> le32 (checkedc st) ->
             exists st', unecmify L input = Err ChecksumMismatch st'
                         /\ status (unecmify L input) = 1)
       /\ (t = le32 (checkedc st) ->
             exists body,
               input = body ++ t ++ rest
               /\ forall (i : nat) (b : Z),
                    (i < 4)%nat -> t !! i <> Some b ->
                    exists st',
                      unecmify L (body ++ <[i := b]> t ++ rest)
                      = Err ChecksumMismatch st').
Proof.
  intros Hdec.
  pose proof (decode_sector_length L input st Hdec) as Hsec.
  split.
  - intros Hshort. rewrite unecmify_split, Hdec. now apply trailer_short.
  - intros t rest Hin Ht.
    destruct (trailer_spec st t rest Hin Ht ltac:(lia)) as [Hok Hbad].
    split; [|split].
    + intros Heq. rewrite unecmify_split, Hdec, (Hok Heq).
      eexists. repeat split.
    + intros Hne. rewrite unecmify_split, Hdec, (Hbad Hne).
      eexists. repeat split.
    + intros Heq.
      destruct (orderly_decode L _ _ _ Hdec) as (_ & body & Hbody & Hre).
      cbn [inp initial] in Hbody. rewrite Hin in Hbody.
      exists body. split; [exact Hbody|].
      intros i b Hi Hb.
      specialize (Hre (<[i := b]> t ++ rest)).
      rewrite Hin, !length_app, length_insert in Hre. specialize (Hre eq_refl).
      change (set_inp (body ++ <[i := b]> t ++ rest) (initial input))
        with (initial (body ++ <[i := b]> t ++ rest)) in Hre.
      rewrite unecmify_split, Hre.
      destruct (trailer_spec (set_inp (<[i := b]> t ++ rest) st) (<[i := b]> t) rest
                  eq_refl ltac:(now rewrite length_insert) ltac:(cbn [sector set_inp]; lia))
        as [_ Hbad'].
      cbn [checkedc set_inp] in Hbad'.
      eexists. apply Hbad'. rewrite <- Heq. intros Hsame.
      apply Hb. rewrite <- Hsame. apply list_lookup_insert_eq. lia.
Qed.

(** ** Fuel: [unecmify] always ends with an outcome of the program *)

Lemma bind_fuel {A B} (m : M A) (k : A -> M B) (st : state) :
  m st <> OutOfFuel ->
  (forall a st', m st = Ok a st' -> k a st' <> OutOfFuel) ->
  bind m k st <> OutOfFuel.
Proof.
  intros Hm Hk. unfold bind. destruct (m st) as [a st'| |]; [|discriminate|congruence].
  now apply Hk.
Qed.

Lemma total_bind {A B} (m : M A) (k : A -> M B) :
  total m -> (forall a, total (k a)) -> total (bind m k).
Proof. intros Hm Hk st. apply bind_fuel; [apply Hm|]. intros a st' _. apply Hk. Qed.

Lemma total_if {A} (b : bool) (m1 m2 : M A) :
  total m1 -> total m2 -> total (if b then m1 else m2).
Proof. now destruct b. Qed.

Lemma total_ret {A} (a : A) : total (ret a).
Proof. intros st. discriminate. Qed.

Lemma total_throw {A} (e : failure) : total (@throw A e).
Proof. intros st. discriminate. Qed.

Lemma total_fgetc : total fgetc.
Proof. intros st. unfold fgetc. destruct (inp st); discriminate. Qed.

Lemma total_fread (off n : nat) : total (fread off n).
Proof. intros st. discriminate. Qed.

Lemma total_fwrite (off n : nat) : total (fwrite off n).
Proof. intros st. discriminate. Qed.

Lemma total_checksum (L : luts) (off : nat) (size : Z) : total (checksum L off size).
Proof. intros st. discriminate. Qed.

Lemma total_memset (off : nat) (v : Z) (n : nat) : total (memset off v n).
Proof. intros st. discriminate. Qed.

Lemma total_poke (i : nat) (v : Z) : total (poke i v).
Proof. intros st. discriminate. Qed.

Lemma total_copy (i j : nat) : total (copy i j).
Proof. intros st. discriminate. Qed.

Lemma total_generate (L : luts) (type : Z) : total (generate L type).
Proof. intros st. discriminate. Qed.

Lemma total_read_count (c num bits : Z) : total (read_count c num bits).
Proof.
  intros st. unfold read_count.
  destruct (count_loop c num bits (inp st)) as [[n rest]|]; discriminate.
Qed.

Ltac total_step :=
  lazymatch goal with
  | |- total (ret _) => apply total_ret
  | |- total (throw _) => apply total_throw
  | |- total (fwrite _ _) => apply total_fwrite
  | |- total (checksum _ _ _) => apply total_checksum
  | |- total (memset _ _ _) => apply total_memset
  | |- total (poke _ _) => apply total_poke
  | |- total (copy _ _) => apply total_copy
  | |- total (generate _ _) => apply total_generate
  | |- total fgetc => apply total_fgetc
  | |- total (fread _ _) => apply total_fread
  | |- total (read_count _ _ _) => apply total_read_count
  | |- total mirror_subheader => solve [auto]
  | |- total (bind _ _) => apply total_bind
  | |- total (if _ then _ else _) => apply total_if
  | |- forall _, total _ => intro
  end.

Lemma total_mirror_subheader : total mirror_subheader.
Proof. unfold mirror_subheader. repeat total_step. Qed.

Lemma total_sector_rep (L : luts) (type : Z) : total (sector_rep L type).
Proof.
  pose proof total_mirror_subheader. unfold sector_rep. repeat total_step.
Qed.

Lemma total_header : total header.
Proof. unfold header, expect. repeat total_step. Qed.

Lemma total_trailer : total trailer.
Proof.
  unfold trailer. apply total_bind; [apply total_fread|]. intros k.
  apply total_if; [apply total_throw|]. intros st.
  destruct (_ || _); discriminate.
Qed.

(** An orderly computation does not give input back. *)
Lemma orderly_input {A} (m : M A) (st st' : state) (a : A) :
  orderly m -> m st = Ok a st' -> (length (inp st') <= length (inp st))%nat.
Proof.
  intros Hm H. destruct (Hm st a st' H) as (_ & consumed & -> & _).
  rewrite length_app. lia.
Qed.

(** A read of [n > 0] bytes that is checked leaves less input. *)
Lemma fread_checked {A} (off n : nat) (m : M A) (st st' : state) (a : A) :
  (0 < n)%nat -> orderly m ->
  (k <- fread off n ;; if negb (k =? n)%nat then throw UnexpectedEndOfStream else m) st
  = Ok a st' ->
  (length (inp st') < length (inp st))%nat.
Proof.
  intros Hn Hm H. unfold bind, fread in H.
  destruct (length (take n (inp st)) =? n)%nat eqn:E; [|discriminate H].
  apply Nat.eqb_eq in E. rewrite length_take in E.
  apply (orderly_input _ _ _ _ Hm) in H. cbn [inp] in H.
  rewrite length_drop in H. lia.
Qed.

Lemma literal_loop_fuel (L : luts) (fuel : nat) : forall num st,
  0 <= num -> (length (inp st) < fuel)%nat ->
  literal_loop L fuel num st <> OutOfFuel.
Proof.
  induction fuel as [|fuel IH]; intros num st Hnum Hlen; [lia|].
  cbn [literal_loop]. destruct (num =? 0) eqn:E0; [discriminate|].
  cbv zeta.
  set (b := if num >? 2352 then 2352 else wrap16 num).
  assert (Hb : 1 <= b <= num).
  { unfold b. destruct (num >? 2352) eqn:E; [lia|].
    rewrite wrap16_small by lia. lia. }
  apply bind_fuel; [discriminate|]. intros k st1 Hk.
  unfold fread in Hk. injection Hk as <- <-.
  destruct (Z.of_nat (length (take (Z.to_nat b) (inp st))) =? b) eqn:E; [|discriminate].
  cbn [negb]. unfold bind, checksum, fwrite. cbn [inp out checkedc sector].
  apply IH; [lia|]. cbn [inp]. rewrite length_drop.
  apply Z.eqb_eq in E. rewrite length_take in E. lia.
Qed.

Lemma sector_rep_consumes (L : luts) (type : Z) (st st' : state) :
  1 <= type <= 3 -> sector_rep L type st = Ok tt st' ->
  (length (inp st') < length (inp st))%nat.
Proof.
  intros Htype H. pose proof orderly_mirror_subheader as Hmir.
  unfold sector_rep in H.
  unfold bind at 1 2 3 in H. unfold memset at 1 2 in H. cbv beta iota in H.
  assert (type = 1 \/ type = 2 \/ type = 3) as [-> | [-> | ->]] by lia.
  - change (1 =? 1) with true in H. cbv iota in H.
    unfold bind at 1 in H. unfold poke at 1 in H. cbv beta iota in H.
    apply fread_checked in H; [exact H|lia|]. repeat orderly_step.
  - change (2 =? 1) with false in H. change (2 =? 2) with true in H. cbv iota in H.
    unfold bind at 1 in H. unfold poke at 1 in H. cbv beta iota in H.
    apply fread_checked in H; [exact H|lia|]. repeat orderly_step.
  - change (3 =? 1) with false in H. change (3 =? 2) with false in H.
    change (3 =? 3) with true in H. cbv iota in H.
    unfold bind at 1 in H. unfold poke at 1 in H. cbv beta iota in H.
    apply fread_checked in H; [exact H|lia|]. repeat orderly_step.
Qed.

Lemma sector_loop_fuel (L : luts) (type : Z) (fuel : nat) : forall num st,
  1 <= type <= 3 -> (length (inp st) < fuel)%nat ->
  sector_loop L type fuel num st <> OutOfFuel.
Proof.
  induction fuel as [|fuel IH]; intros num st Htype Hlen; [lia|].
  cbn [sector_loop]. destruct (num =? 0); [discriminate|].
  apply bind_fuel; [apply total_sector_rep|]. intros [] st' Hrep.
  apply IH; [exact Htype|]. apply sector_rep_consumes in Hrep; [lia|exact Htype].
Qed.

Lemma land3_range (c : Z) : 0 <= Z.land c 3 <= 3.
Proof.
  change (Z.land c 3) with (Z.land c (Z.ones 2)). rewrite Z.land_ones by lia.
  pose proof (Z.mod_pos_bound c (2 ^ 2) ltac:(lia)). lia.
Qed.

Lemma total_dispatch (L : luts) (type num : Z) :
  0 <= type <= 3 -> total (dispatch L type num).
Proof.
  intros Htype st. unfold dispatch.
  destruct (num =? 0xFFFFFFFF); [discriminate|]. cbv zeta.
  destruct (uint64 (num + 1) >=? 0x8000000000000000); [discriminate|].
  apply bind_fuel; [|discriminate].
  destruct (type =? 0) eqn:E; unfold fueled.
  - apply literal_loop_fuel; [|lia]. unfold uint64. apply Z.mod_pos_bound. lia.
  - apply sector_loop_fuel; lia.
Qed.

Lemma total_chunk (L : luts) : total (chunk L).
Proof.
  unfold chunk. apply total_bind; [apply total_fgetc|]. intros [c|]; [|apply total_throw].
  apply total_bind; [apply total_read_count|]. intros num.
  apply total_dispatch, land3_range.
Qed.

Lemma chunk_consumes (L : luts) (st st' : state) (stop : bool) :
  chunk L st = Ok stop st' -> (length (inp st') < length (inp st))%nat.
Proof.
  intros H. unfold chunk, bind at 1, fgetc in H.
  destruct (inp st) as [|c rest] eqn:E; [discriminate H|].
  assert (Hm : orderly (num <- read_count c (Z.land (Z.shiftr c 2) 0x1F) 5 ;;
                        dispatch L (Z.land c 3) num)).
  { apply orderly_bind; [apply orderly_read_count|]. intros num. apply orderly_dispatch. }
  apply (orderly_input _ _ _ _ Hm) in H. cbn [inp set_inp] in H. simpl. lia.
Qed.

Lemma chunks_fuel (L : luts) (fuel : nat) : forall st,
  (length (inp st) < fuel)%nat -> chunks L fuel st <> OutOfFuel.
Proof.
  induction fuel as [|fuel IH]; intros st Hlen; [lia|].
  cbn [chunks]. apply bind_fuel; [apply total_chunk|]. intros stop st' Hc.
  destruct stop; [discriminate|]. apply IH.
  apply chunk_consumes in Hc. lia.
Qed.

(** Whatever the input, [unecmify] ends with success or with one of the
    four failures. *)
Theorem unecmify_total (L : luts) (input : list Z) : unecmify L input <> OutOfFuel.
Proof.
  unfold unecmify. apply bind_fuel; [apply total_header|]. intros _ st _.
  apply bind_fuel; [|intros _ st' _; apply total_trailer].
  unfold fueled. apply chunks_fuel. lia.
Qed.

(** ** The theorems at sample inputs *)

Lemma C1_mode1_sector_witness :
  length (sector sample_mode1) = 2352%nat
  /\ length sample_address = 3%nat
  /\ length sample_data = 2048%nat
  /\ inp sample_mode1 = sample_address ++ sample_data ++ []
  /\ (let s := mode1_sector tables sample_address sample_data in
      sector_rep tables 1 sample_mode1
      = Ok tt (State [] (out sample_mode1 ++ s)
                 (accumulate (edc_lut tables) (wrap32 (checkedc sample_mode1)) s) s)).
Proof.
  assert (H1 : length (sector sample_mode1) = 2352%nat) by reflexivity.
  assert (H2 : length sample_address = 3%nat) by reflexivity.
  assert (H3 : length sample_data = 2048%nat) by reflexivity.
  assert (H4 : inp sample_mode1 = sample_address ++ sample_data ++ []) by reflexivity.
  split; [exact H1|]. split; [exact H2|]. split; [exact H3|]. split; [exact H4|].
  exact (proj1 (C1_mode1_sector tables sample_mode1 sample_address sample_data []
                  H1 H2 H3 H4)).
Defined.

Lemma C8_mode2_form2_sector_witness :
  length (sector sample_mode2) = 2352%nat
  /\ length sample_form2 = 2328%nat
  /\ inp sample_mode2 = sample_form2 ++ []
  /\ (let block := mode2form2_block tables sample_form2 in
      let s := (sync_pattern ++ [0; 0; 0; 0x02]) ++ block in
      sector_rep tables 3 sample_mode2
      = Ok tt (State [] (out sample_mode2 ++ block)
                 (accumulate (edc_lut tables) (wrap32 (checkedc sample_mode2)) block) s)).
Proof.
  assert (H1 : length (sector sample_mode2) = 2352%nat) by reflexivity.
  assert (H2 : length sample_form2 = 2328%nat) by reflexivity.
  assert (H3 : inp sample_mode2 = sample_form2 ++ []) by reflexivity.
  split; [exact H1|]. split; [exact H2|]. split; [exact H3|].
  exact (proj1 (C8_mode2_form2_sector tables sample_mode2 sample_form2 [] H1 H2 H3)).
Defined.

Lemma C2_chunk_header_witness :
  inp sample_sentinel = 0xFC :: [0xFF; 0xFF; 0xFF; 0x3F] ++ [1; 2; 3; 4]
  /\ chain 0xFC [0xFF; 0xFF; 0xFF; 0x3F] = true
  /\ (length [0xFF; 0xFF; 0xFF; 0x3F] <= 9)%nat
  /\ uint64 (rawCount 0xFC [0xFF; 0xFF; 0xFF; 0x3F]) = 0xFFFFFFFF
  /\ chunk tables sample_sentinel = Ok true (set_inp [1; 2; 3; 4] sample_sentinel).
Proof.
  assert (H1 : inp sample_sentinel = 0xFC :: [0xFF; 0xFF; 0xFF; 0x3F] ++ [1; 2; 3; 4])
    by reflexivity.
  assert (H2 : chain 0xFC [0xFF; 0xFF; 0xFF; 0x3F] = true) by reflexivity.
  assert (H3 : (length [0xFF; 0xFF; 0xFF; 0x3F] <= 9)%nat) by (simpl; lia).
  assert (H4 : uint64 (rawCount 0xFC [0xFF; 0xFF; 0xFF; 0x3F]) = 0xFFFFFFFF)
    by reflexivity.
  split; [exact H1|]. split; [exact H2|]. split; [exact H3|]. split; [exact H4|].
  exact (proj1 (proj1 (proj2 (C2_chunk_header tables sample_sentinel 0xFC
                                [0xFF; 0xFF; 0xFF; 0x3F] [1; 2; 3; 4] H1 H2 H3)) H4)).
Defined.

Lemma C5_trailer_check_witness :
  (header ;; fueled (chunks tables)) (initial sample_stream) = Ok tt sample_decoded
  /\ exists st', unecmify tables sample_stream = Ok tt st'
                 /\ status (unecmify tables sample_stream) = 0
                 /\ inp st' = [] /\ out st' = out sample_decoded.
Proof.
  assert (H1 : (header ;; fueled (chunks tables)) (initial sample_stream)
               = Ok tt sample_decoded) by (vm_compute; reflexivity).
  split; [exact H1|].
  exact (proj1 (proj2 (C5_trailer_check tables sample_stream sample_decoded H1)
                  [0x00; 0x41; 0x90; 0x24] [] eq_refl eq_refl) eq_refl).
Defined.

(** ** The decoder on small streams *)

Example ecc_f_lut_head : take 8 (ecc_f_lut tables) = [0; 2; 4; 6; 8; 10; 12; 14].
Proof. reflexivity. Qed.

Example ecc_b_lut_head : take 8 (ecc_b_lut tables) = [0; 244; 245; 1; 247; 3; 2; 246].
Proof. reflexivity. Qed.

Example edc_lut_head :
  take 4 (edc_lut tables) = [0; 0x90910101; 0x91210201; 0x01B00300].
Proof. reflexivity. Qed.

(** A literal chunk of one byte comes out as that byte. *)
Example unecmify_literal :
  unecmify tables sample_stream
  = Ok tt (State [] [0x41] 613433600 (list_inserts 0 [0x00; 0x41; 0x90; 0x24]
                                         (0x41 :: replicate 2351 0))).
Proof. vm_compute. reflexivity. Qed.

(** Without the magic nothing is decoded. *)
Example unecmify_no_magic :
  unecmify tables [0x45; 0x43; 0x4D; 0x01; 0x00; 0x41]
  = Err HeaderMissing (State [0x00; 0x41] [] 0 (replicate 2352 0)).
Proof. vm_compute. reflexivity. Qed.

(** A stream cut before its sentinel. *)
Example unecmify_truncated :
  unecmify tables [0x45; 0x43; 0x4D; 0x00; 0x00; 0x41]
  = Err UnexpectedEndOfStream (State [] [0x41] 613433600 (0x41 :: replicate 2351 0)).
Proof. vm_compute. reflexivity. Qed.

(** A count whose increment has bit 63 set. *)
Example unecmify_length :
  unecmify tables
    [0x45; 0x43; 0x4D; 0x00; 0x80; 0x80; 0x80; 0x80; 0x80; 0x80; 0x80; 0x80; 0x80; 0x04]
  = Err InvalidChunkLength (State [] [] 0 (replicate 2352 0)).
Proof. vm_compute. reflexivity. Qed.

(** ** Invariants kept by the decoder *)

Lemma keeps_ret {A} (P : state -> Prop) (a : A) : keeps P (ret a).
Proof. intros st H. exact H. Qed.

Lemma keeps_throw {A} (P : state -> Prop) (e : failure) : keeps P (@throw A e).
Proof. intros st H. exact H. Qed.

Lemma keeps_bind {A B} (P : state -> Prop) (m : M A) (k : A -> M B) :
  keeps P m -> (forall a, keeps P (k a)) -> keeps P (bind m k).
Proof.
  intros Hm Hk st H. unfold bind. specialize (Hm st H).
  destruct (m st) as [a st1|e st1|]; [|exact Hm|exact I].
  apply (Hk a st1 Hm).
Qed.

Lemma keeps_if {A} (P : state -> Prop) (b : bool) (m1 m2 : M A) :
  keeps P m1 -> keeps P m2 -> keeps P (if b then m1 else m2).
Proof. now destruct b. Qed.

(** Two steps kept together are kept in front of what follows. *)
Lemma keeps_pair {A B} (P : state -> Prop) (c f : M A) (k : A -> M B) :
  keeps P (c ;; f) -> (forall a, keeps P (k a)) -> keeps P (c ;; x <- f ;; k x).
Proof.
  intros Hcf Hk st H. specialize (Hcf st H). unfold bind in *.
  destruct (c st) as [a st1|e st1|]; [|exact Hcf|exact I].
  destruct (f st1) as [a2 st2|e st2|]; [|exact Hcf|exact I].
  apply (Hk a2 st2 Hcf).
Qed.

Lemma keeps_fueled {A} (P : state -> Prop) (loop : nat -> M A) :
  (forall fuel, keeps P (loop fuel)) -> keeps P (fueled loop).
Proof. intros Hloop st H. apply (Hloop _ st H). Qed.

Lemma keeps_out_of_fuel {A} (P : state -> Prop) : keeps P (fun _ => @OutOfFuel A).
Proof. intros st H. exact I. Qed.

Section Keeps.
Variable L : luts.
Variable P : state -> Prop.
Hypothesis P_fgetc : keeps P fgetc.
Hypothesis P_fread : forall off n, keeps P (fread off n).
Hypothesis P_read_count : forall c num bits, keeps P (read_count c num bits).
Hypothesis P_memset : forall off v n, is_byte v -> keeps P (memset off v n).
Hypothesis P_poke : forall i v, is_byte v -> keeps P (poke i v).
Hypothesis P_copy : forall i j, keeps P (copy i j).
Hypothesis P_generate : forall type, keeps P (generate L type).
Hypothesis P_emit : forall off n, (off + n <= 2352)%nat ->
  keeps P (checksum L off (Z.of_nat n) ;; fwrite off n).

Ltac keeps_step :=
  lazymatch goal with
  | |- keeps _ (literal_loop _ _ _) => solve [auto with lia]
  | |- keeps _ (sector_loop _ _ _ _) => solve [auto]
  | |- keeps _ (chunks _ _) => solve [auto]
  | |- keeps _ (chunk _) => solve [auto]
  | |- keeps _ (dispatch _ _ _) => solve [auto]
  | |- keeps _ (sector_rep _ _) => solve [auto]
  | |- keeps _ mirror_subheader => solve [auto]
  | |- keeps _ (fueled _) => apply keeps_fueled
  | |- keeps _ (ret _) => apply keeps_ret
  | |- keeps _ (throw _) => apply keeps_throw
  | |- keeps _ (memset _ _ _) => apply P_memset; unfold is_byte; lia
  | |- keeps _ (poke _ _) => apply P_poke; unfold is_byte; lia
  | |- keeps _ (copy _ _) => apply P_copy
  | |- keeps _ (generate _ _) => apply P_generate
  | |- keeps _ fgetc => apply P_fgetc
  | |- keeps _ (fread _ _) => apply P_fread
  | |- keeps _ (read_count _ _ _) => apply P_read_count
  | |- keeps _ (bind (checksum _ ?off 2352) (fun _ => fwrite _ _)) =>
      apply (P_emit off 2352); lia
  | |- keeps _ (bind (checksum _ ?off 2336) (fun _ => fwrite _ _)) =>
      apply (P_emit off 2336); lia
  | |- keeps _ (bind _ _) => apply keeps_bind
  | |- keeps _ (if _ then _ else _) => apply keeps_if
  | |- forall _, keeps _ _ => intro
  end.

Lemma keeps_literal_loop (fuel : nat) : forall num,
  0 <= num -> keeps P (literal_loop L fuel num).
Proof.
  induction fuel as [|fuel IH]; intros num Hnum; cbn [literal_loop].
  - apply keeps_if; [apply keeps_ret|apply keeps_out_of_fuel].
  - destruct (num =? 0) eqn:E0; [apply keeps_ret|]. apply Z.eqb_neq in E0.
    cbv zeta.
    assert (Hb : exists n, (if num >? 2352 then 2352 else wrap16 num) = Z.of_nat n
                           /\ (0 + n <= 2352)%nat
                           /\ 0 <= num - Z.of_nat n).
    { destruct (num >? 2352) eqn:E.
      - exists 2352%nat. lia.
      - exists (Z.to_nat num). rewrite wrap16_small by lia. lia. }
    destruct Hb as (n & -> & Hn & Hrest). rewrite Nat2Z.id.
    apply keeps_bind; [apply P_fread|]. intros k.
    apply keeps_if; [apply keeps_throw|].
    apply keeps_pair; [now apply P_emit|]. intros _. now apply IH.
Qed.

Lemma keeps_mirror_subheader : keeps P mirror_subheader.
Proof. unfold mirror_subheader. repeat keeps_step. Qed.

Lemma keeps_sector_rep (type : Z) : keeps P (sector_rep L type).
Proof.
  pose proof keeps_mirror_subheader. unfold sector_rep. repeat keeps_step.
Qed.

Lemma keeps_sector_loop (type : Z) (fuel : nat) : forall num,
  keeps P (sector_loop L type fuel num).
Proof.
  pose proof (keeps_sector_rep type).
  induction fuel as [|fuel IH]; intros num; cbn [sector_loop].
  - apply keeps_if; [apply keeps_ret|apply keeps_out_of_fuel].
  - repeat keeps_step.
Qed.

Lemma keeps_dispatch (type num : Z) : keeps P (dispatch L type num).
Proof.
  unfold dispatch. cbv zeta.
  apply keeps_if; [apply keeps_ret|].
  destruct (uint64 (num + 1) >=? 0x8000000000000000) eqn:E; [apply keeps_throw|].
  assert (0 <= uint64 (num + 1)) by (unfold uint64; apply Z.mod_pos_bound; lia).
  apply keeps_bind; [|intros _; apply keeps_ret].
  apply keeps_if; apply keeps_fueled; intros fuel;
    [now apply keeps_literal_loop|apply keeps_sector_loop].
Qed.

Lemma keeps_chunk : keeps P (chunk L).
Proof.
  unfold chunk. apply keeps_bind; [apply P_fgetc|].
  intros [c|]; [|apply keeps_throw].
  apply keeps_bind; [apply P_read_count|]. intros num. apply keeps_dispatch.
Qed.

Lemma keeps_chunks (fuel : nat) : keeps P (chunks L fuel).
Proof.
  pose proof keeps_chunk.
  induction fuel as [|fuel IH]; cbn [chunks].
  - apply keeps_out_of_fuel.
  - repeat keeps_step.
Qed.

Lemma keeps_header : keeps P header.
Proof. unfold header, expect. repeat keeps_step. Qed.

Lemma keeps_trailer : keeps P trailer.
Proof.
  unfold trailer. apply keeps_bind; [apply P_fread|]. intros k.
  apply keeps_if; [apply keeps_throw|].
  intros st H. cbv zeta. now destruct (_ || _).
Qed.

Lemma keeps_decode : keeps P (header ;; fueled (chunks L)).
Proof.
  apply keeps_bind; [apply keeps_header|]. intros _.
  apply keeps_fueled, keeps_chunks.
Qed.

Lemma keeps_decoder : keeps P (header ;; fueled (chunks L) ;; trailer).
Proof.
  apply keeps_bind; [apply keeps_header|]. intros _.
  apply keeps_bind; [apply keeps_fueled, keeps_chunks|]. intros _.
  apply keeps_trailer.
Qed.

End Keeps.

(** ** The decoder writes bytes *)

Lemma is_byte_land (x : Z) : is_byte (Z.land x 0xFF).
Proof.
  unfold is_byte. change 0xFF with (Z.ones 8). rewrite Z.land_ones by lia.
  apply Z.mod_pos_bound. lia.
Qed.

Lemma is_byte_lxor (a b : Z) : is_byte a -> is_byte b -> is_byte (Z.lxor a b).
Proof. unfold is_byte. intros Ha Hb. apply (lxor_bound 8); lia. Qed.

Lemma is_byte_rd (a : list Z) (i : Z) : Forall is_byte a -> is_byte (rd a i).
Proof. apply rd_Forall. unfold is_byte. lia. Qed.

Lemma Forall_list_inserts {A} (Q : A -> Prop) (k : list A) : forall (i : nat) (l : list A),
  Forall Q k -> Forall Q l -> Forall Q (list_inserts i k l).
Proof.
  induction k as [|x k IH]; intros i l Hk Hl; [exact Hl|].
  apply Forall_cons in Hk as [Hx Hk]. cbn [list_inserts].
  apply Forall_insert; [|exact Hx]. now apply IH.
Qed.

Lemma is_byte_le32 (e : Z) : Forall is_byte (le32 e).
Proof. unfold le32. repeat constructor; apply is_byte_land. Qed.

Lemma is_byte_parityWalk (f buf : list Z) (m inc : Z) (n : nat) : forall index a b,
  Forall is_byte buf -> is_byte b ->
  is_byte (parityWalk f buf m inc n index a b).2.
Proof.
  induction n as [|n IH]; intros index a b Hbuf Hb; [exact Hb|].
  cbn [parityWalk]. apply IH; [exact Hbuf|].
  apply is_byte_lxor; [exact Hb|now apply is_byte_rd].
Qed.

Lemma is_byte_computeParity (f g buf : list Z) (mc nc mult inc : Z) :
  Forall is_byte g -> Forall is_byte buf ->
  Forall is_byte (computeParity f g buf mc nc mult inc).
Proof.
  intros Hg Hbuf. unfold computeParity. cbv zeta.
  assert (Hpair : forall major,
            is_byte (parityPair f g buf mc nc mult inc major).1
            /\ is_byte (parityPair f g buf mc nc mult inc major).2).
  { intros major. unfold parityPair. cbv zeta.
    pose proof (is_byte_parityWalk f buf (mc * nc) inc (Z.to_nat nc)
                  (Z.shiftr major 1 * mult + Z.land major 1) 0 0 Hbuf) as Hw.
    destruct (parityWalk _ _ _ _ _ _ _ _) as [a b]. cbn [fst snd] in *.
    assert (is_byte b) by (apply Hw; unfold is_byte; lia).
    split; [now apply is_byte_rd|].
    apply is_byte_lxor; [now apply is_byte_rd|assumption]. }
  apply Forall_app. split; apply Forall_fmap, Forall_forall; intros major _;
    apply Hpair.
Qed.

Lemma is_byte_ecc_generate (L : luts) (s : list Z) (zeroaddress : Z) :
  Forall is_byte (ecc_b_lut L) -> Forall is_byte s ->
  Forall is_byte (ecc_generate L s zeroaddress).
Proof.
  intros HL Hs.
  assert (H0 : forall s', Forall is_byte s' -> Forall is_byte (ecc_generate L s' 0)).
  { intros s' Hs'. rewrite ecc_generate_0.
    assert (Forall is_byte
              (list_inserts 0x81C
                 (computeParity (ecc_f_lut L) (ecc_b_lut L) (drop 0xC s') 86 24 2 86) s')).
    { apply Forall_list_inserts; [|exact Hs'].
      apply is_byte_computeParity; [exact HL|now apply Forall_drop]. }
    apply Forall_list_inserts; [|assumption].
    apply is_byte_computeParity; [exact HL|now apply Forall_drop]. }
  destruct (decide (zeroaddress = 0)) as [->|Hz]; [now apply H0|].
  rewrite ecc_generate_1 by exact Hz.
  apply Forall_list_inserts.
  - repeat constructor; now apply is_byte_rd.
  - apply H0, Forall_list_inserts; [|exact Hs].
    apply Forall_replicate. unfold is_byte. lia.
Qed.

Lemma is_byte_eccedc_generate (L : luts) (s : list Z) (type : Z) :
  Forall is_byte (ecc_b_lut L) -> Forall is_byte s ->
  Forall is_byte (eccedc_generate L s type).
Proof.
  intros HL Hs. unfold eccedc_generate.
  destruct (type =? 1); [|destruct (type =? 2); [|destruct (type =? 3)]];
    rewrite ?zero_fill_inserts, ?edc_computeblock_inserts.
  - apply is_byte_ecc_generate; [exact HL|].
    apply Forall_list_inserts; [apply Forall_replicate; unfold is_byte; lia|].
    apply Forall_list_inserts; [apply is_byte_le32|exact Hs].
  - apply is_byte_ecc_generate; [exact HL|].
    apply Forall_list_inserts; [apply is_byte_le32|exact Hs].
  - apply Forall_list_inserts; [apply is_byte_le32|exact Hs].
  - exact Hs.
Qed.

Lemma ecc_b_lut_bytes : Forall is_byte (ecc_b_lut tables).
Proof. apply (bool_decide_unpack _). vm_compute. reflexivity. Qed.

Lemma byte_state_decoder (L : luts) :
  Forall is_byte (ecc_b_lut L) ->
  keeps byte_state (header ;; fueled (chunks L) ;; trailer).
Proof.
  intros HL. apply keeps_decoder.
  - intros st (Hi & Ho & Hs). unfold fgetc.
    destruct (inp st) as [|c rest] eqn:E; [now rewrite <- E in Hi|].
    apply Forall_cons in Hi as [_ Hi]. now repeat split.
  - intros off n st (Hi & Ho & Hs). unfold fread, byte_state. cbn [inp out sector].
    split; [now apply Forall_drop|]. split; [exact Ho|].
    apply Forall_list_inserts; [now apply Forall_take|exact Hs].
  - intros c num bits st (Hi & Ho & Hs). unfold read_count.
    destruct (count_loop c num bits (inp st)) as [[n rest]|] eqn:E.
    + destruct (count_loop_front _ _ _ _ _ _ E) as (consumed & Hin & _).
      rewrite Hin in Hi. apply Forall_app in Hi as [_ Hi]. now repeat split.
    + repeat split; [constructor|exact Ho|exact Hs].
  - intros off v n Hv st (Hi & Ho & Hs). unfold memset, byte_state.
    cbn [inp out sector set_sector]. repeat split; try assumption.
    apply Forall_list_inserts; [now apply Forall_replicate|exact Hs].
  - intros i v Hv st (Hi & Ho & Hs). unfold poke, byte_state.
    cbn [inp out sector set_sector]. repeat split; try assumption.
    now apply Forall_insert.
  - intros i j st (Hi & Ho & Hs). unfold copy, byte_state.
    cbn [inp out sector set_sector]. repeat split; try assumption.
    apply Forall_insert; [exact Hs|now apply is_byte_rd].
  - intros type st (Hi & Ho & Hs). unfold generate, byte_state.
    cbn [inp out sector set_sector]. repeat split; try assumption.
    now apply is_byte_eccedc_generate.
  - intros off n _ st (Hi & Ho & Hs). unfold bind, checksum, fwrite, byte_state.
    cbn [inp out sector]. repeat split; try assumption.
    apply Forall_app. split; [exact Ho|]. now apply Forall_take, Forall_drop.
Qed.

(** X1: when every byte of the input is in 0..255, whatever [unecmify]
    has written when it returns, with success or with a failure, is
    made of bytes in 0..255: the checksum and parity bytes are masked or
    come out of the byte tables. *)
Theorem unecmify_writes_bytes (input : list Z) :
  Forall is_byte input ->
  exists st', final (unecmify tables input) = Some st' /\ Forall is_byte (out st').
Proof.
  intros Hin.
  pose proof (unecmify_total tables input) as Htot.
  pose proof (byte_state_decoder tables ecc_b_lut_bytes (initial input)) as H.
  unfold unecmify in *.
  destruct ((header;; fueled (chunks tables);; trailer) (initial input))
    as [a st'|e st'|]; [| |now destruct Htot];
    (exists st'; split; [reflexivity|]); apply H;
    (split; [exact Hin|split; [constructor|]]);
    apply Forall_replicate; unfold is_byte; lia.
Qed.

Lemma unecmify_writes_bytes_witness :
  Forall is_byte sample_stream
  /\ exists st', final (unecmify tables sample_stream) = Some st'
                 /\ Forall is_byte (out st').
Proof.
  assert (H : Forall is_byte sample_stream)
    by (apply (bool_decide_unpack _); vm_compute; reflexivity).
  split; [exact H|apply (unecmify_writes_bytes sample_stream H)].
Defined.

(** ** The running checksum *)

Section Checked.
Variable L : luts.
Hypothesis lut_range : forall i, 0 <= rd (edc_lut L) i < 2 ^ 32.

Lemma accumulate_step (acc : Z) (bytes : list Z) :
  accumulate (edc_lut L) acc bytes = fold_left (edc_step L) bytes acc.
Proof. reflexivity. Qed.

Lemma accumulate_range (bytes : list Z) : forall acc,
  0 <= acc < 2 ^ 32 -> 0 <= accumulate (edc_lut L) acc bytes < 2 ^ 32.
Proof.
  induction bytes as [|b bytes IH]; intros acc Hacc; [exact Hacc|].
  apply IH, (edc_step_range L lut_range), Hacc.
Qed.

Lemma accumulate_app (acc : Z) (A B : list Z) :
  accumulate (edc_lut L) acc (A ++ B)
  = accumulate (edc_lut L) (accumulate (edc_lut L) acc A) B.
Proof. apply fold_left_app. Qed.

(** The checksum of a slice of the buffer that lies inside it. *)
Lemma checksum_slice (acc : Z) (s : list Z) (off n : nat) :
  0 <= acc < 2 ^ 32 -> (off + n <= length s)%nat -> Z.of_nat n < 2 ^ 16 ->
  edc_partial_computeblock L acc (drop off s) (Z.of_nat n)
  = accumulate (edc_lut L) acc (take n (drop off s)).
Proof.
  intros Hacc Hlen Hn.
  rewrite <- (take_drop n (drop off s)) at 1.
  assert (Ht : length (take n (drop off s)) = n)
    by (rewrite length_take, length_drop; lia).
  replace (Z.of_nat n) with (Z.of_nat (length (take n (drop off s))))
    by now rewrite Ht.
  apply (edc_partial_fold L); [exact Hacc|]. rewrite Ht. exact Hn.
Qed.

Lemma checked_primitives :
  keeps (checked L) fgetc
  /\ (forall off n, keeps (checked L) (fread off n))
  /\ (forall c num bits, keeps (checked L) (read_count c num bits))
  /\ (forall off v n, is_byte v -> keeps (checked L) (memset off v n))
  /\ (forall i v, is_byte v -> keeps (checked L) (poke i v))
  /\ (forall i j, keeps (checked L) (copy i j))
  /\ (forall type, keeps (checked L) (generate L type))
  /\ (forall off n, (off + n <= 2352)%nat ->
        keeps (checked L) (checksum L off (Z.of_nat n) ;; fwrite off n)).
Proof.
  repeat apply conj.
  - intros st H. unfold fgetc. now destruct (inp st).
  - intros off n st [Hs Hc]. split; [|exact Hc].
    cbn [sector]. now rewrite length_inserts.
  - intros c num bits st H. unfold read_count.
    now destruct (count_loop c num bits (inp st)) as [[n rest]|].
  - intros off v n _ st [Hs Hc]. split; [|exact Hc].
    cbn [sector set_sector]. now rewrite length_inserts.
  - intros i v _ st [Hs Hc]. split; [|exact Hc].
    cbn [sector set_sector]. now rewrite length_insert.
  - intros i j st [Hs Hc]. split; [|exact Hc].
    cbn [sector set_sector]. now rewrite length_insert.
  - intros type st [Hs Hc]. split; [|exact Hc].
    cbn [sector set_sector]. now rewrite length_eccedc_generate.
  - intros off n Hn st [Hs Hc]. unfold bind, checksum, fwrite, checked.
    cbn [sector out checkedc]. split; [exact Hs|].
    rewrite accumulate_app, <- Hc. apply checksum_slice; [|lia|lia].
    rewrite Hc. apply accumulate_range. lia.
Qed.

Lemma checked_chunk : keeps (checked L) (chunk L).
Proof.
  destruct checked_primitives as (H1 & H2 & H3 & H4 & H5 & H6 & H7 & H8).
  now apply keeps_chunk.
Qed.

Lemma checked_decode : keeps (checked L) (header ;; fueled (chunks L)).
Proof.
  destruct checked_primitives as (H1 & H2 & H3 & H4 & H5 & H6 & H7 & H8).
  now apply keeps_decode.
Qed.

End Checked.

Lemma checked_initial (L : luts) (input : list Z) : checked L (initial input).
Proof. split; reflexivity. Qed.

(** The trailer, when it is accepted, is the four bytes of [checkedc]. *)
Lemma trailer_Ok (st st' : state) :
  (4 <= length (sector st))%nat -> trailer st = Ok tt st' ->
  inp st = le32 (checkedc st) ++ inp st' /\ out st' = out st.
Proof.
  intros Hs H.
  destruct (decide (length (inp st) < 4)%nat) as [Hshort|Hlong].
  { destruct (trailer_short st Hshort) as (st1 & E). congruence. }
  destruct (trailer_spec st (take 4 (inp st)) (drop 4 (inp st))) as [Hok Hbad];
    [now rewrite take_drop|rewrite length_take; lia|exact Hs|].
  destruct (decide (take 4 (inp st) = le32 (checkedc st))) as [Heq|Hne].
  - rewrite (Hok Heq) in H. injection H as <-. cbn [inp out].
    now rewrite <- Heq, take_drop.
  - rewrite (Hbad Hne) in H. discriminate H.
Qed.

(** X2: when [unecmify] returns 0, the four bytes it read last, just
    before the input it left unread, are the checksum of everything it
    wrote, least significant byte first. *)
Theorem unecmify_trailer_is_output_checksum (input : list Z) (st' : state) :
  unecmify tables input = Ok tt st' ->
  exists body,
    input = body ++ le32 (accumulate (edc_lut tables) 0 (out st')) ++ inp st'.
Proof.
  intros H. rewrite unecmify_split in H.
  pose proof (checked_decode tables edc_lut_range (initial input)
                (checked_initial tables input)) as Hk.
  destruct ((header;; fueled (chunks tables)) (initial input))
    as [[] st|e st|] eqn:Hdec; try discriminate H.
  destruct Hk as [Hs Hc].
  destruct (orderly_decode tables _ _ _ Hdec) as (_ & body & Hin & _).
  destruct (trailer_Ok st st' ltac:(lia) H) as [Ht Ho].
  exists body. cbn [inp initial] in Hin. now rewrite Ho, <- Hc, <- Ht.
Qed.

Lemma unecmify_trailer_is_output_checksum_witness :
  unecmify tables sample_stream = Ok tt (State [] [0x41] 613433600
                                            (list_inserts 0 [0x00; 0x41; 0x90; 0x24]
                                               (0x41 :: replicate 2351 0)))
  /\ exists body, sample_stream = body ++ le32 (accumulate (edc_lut tables) 0 [0x41]) ++ [].
Proof.
  assert (H : unecmify tables sample_stream
              = Ok tt (State [] [0x41] 613433600
                         (list_inserts 0 [0x00; 0x41; 0x90; 0x24]
                            (0x41 :: replicate 2351 0))))
    by (vm_compute; reflexivity).
  split; [exact H|].
  apply (unecmify_trailer_is_output_checksum sample_stream _ H).
Defined.

(** ** Which failure is reported *)

Lemma raises_ret {A} (E : failure -> Prop) (a : A) : raises E (ret a).
Proof. intros st e st' H. discriminate H. Qed.

Lemma raises_throw {A} (E : failure -> Prop) (e : failure) : E e -> raises E (@throw A e).
Proof. intros He st e' st' H. unfold throw in H. injection H as <- _. exact He. Qed.

Lemma raises_bind {A B} (E : failure -> Prop) (m : M A) (k : A -> M B) :
  raises E m -> (forall a, raises E (k a)) -> raises E (bind m k).
Proof.
  intros Hm Hk st e st' H. unfold bind in H.
  destruct (m st) as [a st1|e1 st1|] eqn:E1; [|injection H as <- _|discriminate H].
  - apply (Hk a st1 e st' H).
  - apply (Hm st e1 st1 E1).
Qed.

Lemma raises_if {A} (E : failure -> Prop) (b : bool) (m1 m2 : M A) :
  raises E m1 -> raises E m2 -> raises E (if b then m1 else m2).
Proof. now destruct b. Qed.

Lemma raises_fueled {A} (E : failure -> Prop) (loop : nat -> M A) :
  (forall fuel, raises E (loop fuel)) -> raises E (fueled loop).
Proof. intros Hloop st e st' H. apply (Hloop _ st e st' H). Qed.

Lemma raises_weaken {A} (E E' : failure -> Prop) (m : M A) :
  (forall e, E e -> E' e) -> raises E m -> raises E' m.
Proof. intros HE Hm st e st' H. apply HE, (Hm st e st' H). Qed.

Ltac raises_step :=
  lazymatch goal with
  | |- raises _ (literal_loop _ _ _) => solve [auto]
  | |- raises _ (sector_loop _ _ _ _) => solve [auto]
  | |- raises _ (chunks _ _) => solve [auto]
  | |- raises _ (chunk _) => solve [auto]
  | |- raises _ (sector_rep _ _) => solve [auto]
  | |- raises _ (fueled _) => apply raises_fueled
  | |- raises _ (ret _) => apply raises_ret
  | |- raises _ (throw _) => apply raises_throw; assumption
  | |- raises _ (bind _ _) => apply raises_bind
  | |- raises _ (if _ then _ else _) => apply raises_if
  | |- forall _, raises _ _ => intro
  | |- raises _ (fun _ => OutOfFuel) => intros ? ? ? ?; discriminate
  | |- raises _ (read_count _ _ _) =>
      let H := fresh in
      intros ?st ?e ?st' H; unfold read_count in H;
      destruct (count_loop _ _ _ _) as [[? ?]|]; [discriminate H|];
      injection H as <- _; assumption
  | |- raises _ fgetc =>
      let H := fresh in
      intros ?st ?e ?st' H; unfold fgetc in H; destruct (inp _); discriminate H
  | |- raises _ _ =>
      let H := fresh in
      intros ?st ?e ?st' H;
      cbv beta delta [fread fwrite checksum memset poke copy generate] in H;
      discriminate H
  end.

Section Raises.
Variable L : luts.
Variable E : failure -> Prop.
Hypothesis E_eof : E UnexpectedEndOfStream.
Hypothesis E_length : E InvalidChunkLength.

Lemma raises_literal_loop (fuel : nat) : forall num,
  raises E (literal_loop L fuel num).
Proof.
  induction fuel as [|fuel IH]; intros num; cbn [literal_loop]; cbv zeta;
    repeat raises_step.
Qed.

Lemma raises_sector_rep (type : Z) : raises E (sector_rep L type).
Proof. unfold sector_rep, mirror_subheader. repeat raises_step. Qed.

Lemma raises_sector_loop (type : Z) (fuel : nat) : forall num,
  raises E (sector_loop L type fuel num).
Proof.
  pose proof (raises_sector_rep type).
  induction fuel as [|fuel IH]; intros num; cbn [sector_loop]; repeat raises_step.
Qed.

Lemma raises_chunk : raises E (chunk L).
Proof.
  pose proof raises_literal_loop. pose proof raises_sector_loop.
  unfold chunk. apply raises_bind; [raises_step|].
  intros [c|]; cbv beta iota; [|raises_step]. unfold dispatch. cbv zeta.
  repeat raises_step.
Qed.

Lemma raises_chunks (fuel : nat) : raises E (chunks L fuel).
Proof.
  pose proof raises_chunk.
  induction fuel as [|fuel IH]; cbn [chunks]; repeat raises_step.
Qed.

Lemma raises_header : E HeaderMissing -> raises E header.
Proof. intros He. unfold header, expect. repeat raises_step. Qed.

End Raises.

Lemma raises_trailer :
  raises (fun e => e = UnexpectedEndOfStream \/ e = ChecksumMismatch) trailer.
Proof.
  unfold trailer. apply raises_bind; [intros st e st' H; discriminate H|]. intros k.
  apply raises_if; [apply raises_throw; now left|].
  intros st e st' H. cbv zeta in H. destruct (_ || _); [|discriminate H].
  injection H as <- _. now right.
Qed.

(** One test of the magic: the byte read must be [ch]. *)
Lemma expect_then {A} (ch : Z) (k : M A) (st : state) :
  (e <- expect ch ;; if negb e then throw HeaderMissing else k) st
  = match inp st with
    | c :: rest =>
        if decide (c = ch) then k (set_inp rest st)
        else Err HeaderMissing (set_inp rest st)
    | [] => Err HeaderMissing st
    end.
Proof.
  unfold expect, bind, fgetc, ret.
  destruct (inp st) as [|c rest]; case_bool_decide as Hd; cbn [negb].
  - discriminate Hd.
  - reflexivity.
  - injection Hd as ->. now rewrite decide_True.
  - rewrite decide_False by congruence. reflexivity.
Qed.

Lemma header_magic (st : state) (rest : list Z) :
  inp st = magic ++ rest -> header st = Ok tt (set_inp rest st).
Proof.
  intros H. unfold header. rewrite !expect_then, H. reflexivity.
Qed.

Lemma header_other (st : state) :
  take 4 (inp st) <> magic ->
  exists st', header st = Err HeaderMissing st' /\ out st' = out st.
Proof.
  destruct st as [i o ck s]. cbn [inp]. intros H. unfold header.
  repeat (rewrite expect_then; cbn [inp set_inp out checkedc sector];
          match goal with
          | |- context [match ?i with [] => _ | _ :: _ => _ end] =>
              let c := fresh "c" in destruct i as [|c i];
              [eexists; split; reflexivity|];
              destruct (decide (c = _)) as [->|];
              [|eexists; split; reflexivity]
          end).
  exfalso. apply H. reflexivity.
Qed.

Lemma trailer_not_header (e : failure) :
  e = UnexpectedEndOfStream \/ e = ChecksumMismatch -> e <> HeaderMissing.
Proof. intros [-> | ->]; discriminate. Qed.

(** X3: [unecmify] reports "Header not found!" exactly when the input
    does not start with the four bytes 45 43 4D 00 (also when it is
    shorter), and then it has written nothing. *)
Theorem unecmify_header_missing (L : luts) (input : list Z) :
  take 4 input <> magic
  <-> exists st', unecmify L input = Err HeaderMissing st' /\ out st' = [].
Proof.
  unfold unecmify. split.
  - intros H. destruct (header_other (initial input) H) as (st' & E & Ho).
    exists st'. unfold bind at 1. now rewrite E.
  - intros (st' & H & _) Hm.
    assert (Hin : inp (initial input) = magic ++ drop 4 input)
      by (rewrite <- Hm; symmetry; apply take_drop).
    unfold bind at 1 in H. rewrite (header_magic _ _ Hin) in H.
    assert (R : raises (fun e => e <> HeaderMissing) (fueled (chunks L) ;; trailer)).
    { apply raises_bind.
      - apply raises_fueled. intros fuel. now apply raises_chunks.
      - intros _. apply (raises_weaken _ _ _ trailer_not_header raises_trailer). }
    now apply (R _ _ _ H).
Qed.

Lemma decode_not_mismatch (L : luts) :
  raises (fun e => e <> ChecksumMismatch) (header ;; fueled (chunks L)).
Proof.
  apply raises_bind; [now apply raises_header|]. intros _.
  apply raises_fueled. intros fuel. now apply raises_chunks.
Qed.

Lemma trailer_Err (st st' : state) :
  (4 <= length (sector st))%nat -> trailer st = Err ChecksumMismatch st' ->
  exists t, inp st = t ++ inp st' /\ length t = 4%nat /\ t <> le32 (checkedc st)
            /\ out st' = out st.
Proof.
  intros Hs H.
  destruct (decide (length (inp st) < 4)%nat) as [Hshort|Hlong].
  { destruct (trailer_short st Hshort) as (st1 & E). congruence. }
  destruct (trailer_spec st (take 4 (inp st)) (drop 4 (inp st))) as [Hok Hbad];
    [now rewrite take_drop|rewrite length_take; lia|exact Hs|].
  destruct (decide (take 4 (inp st) = le32 (checkedc st))) as [Heq|Hne].
  - rewrite (Hok Heq) in H. discriminate H.
  - rewrite (Hbad Hne) in H. injection H as <-. cbn [inp out].
    exists (take 4 (inp st)). rewrite take_drop, length_take.
    repeat split; [lia|exact Hne].
Qed.

(** X4: [unecmify] reports the "EDC error" only after the chunks were
    decoded up to the end-of-records indicator, and it does so when the
    four bytes that follow differ from the checksum of what was written. *)
Theorem unecmify_checksum_mismatch (input : list Z) (st' : state) :
  unecmify tables input = Err ChecksumMismatch st' ->
  exists body t st,
    (header ;; fueled (chunks tables)) (initial input) = Ok tt st
    /\ input = body ++ inp st /\ inp st = t ++ inp st' /\ length t = 4%nat
    /\ out st' = out st
    /\ t <> le32 (accumulate (edc_lut tables) 0 (out st')).
Proof.
  intros H. rewrite unecmify_split in H.
  pose proof (checked_decode tables edc_lut_range (initial input)
                (checked_initial tables input)) as Hk.
  pose proof (decode_not_mismatch tables (initial input)) as Hr.
  destruct ((header;; fueled (chunks tables)) (initial input))
    as [[] st|e st|] eqn:Hdec; [| |discriminate H].
  - destruct Hk as [Hs Hc].
    destruct (orderly_decode tables _ _ _ Hdec) as (_ & body & Hin & _).
    destruct (trailer_Err st st' ltac:(lia) H) as (t & Ht & Hlen & Hne & Ho).
    exists body, t, st. rewrite Ho, <- Hc. now repeat split.
  - injection H as -> _. now destruct (Hr _ _ eq_refl).
Qed.

Lemma unecmify_checksum_mismatch_witness :
  unecmify tables sample_bad_trailer = Err ChecksumMismatch sample_rejected
  /\ exists body t st,
       (header ;; fueled (chunks tables)) (initial sample_bad_trailer) = Ok tt st
       /\ sample_bad_trailer = body ++ inp st
       /\ inp st = t ++ inp sample_rejected /\ length t = 4%nat
       /\ out sample_rejected = out st
       /\ t <> le32 (accumulate (edc_lut tables) 0 (out sample_rejected)).
Proof.
  assert (H : unecmify tables sample_bad_trailer = Err ChecksumMismatch sample_rejected)
    by (vm_compute; reflexivity).
  split; [exact H|].
  apply (unecmify_checksum_mismatch sample_bad_trailer sample_rejected H).
Defined.

(** ** The checksum of a block followed by its checksum *)

Lemma land_FF_mod (x : Z) : Z.land x 0xFF = x mod 256.
Proof. change 0xFF with (Z.ones 8). now rewrite Z.land_ones by lia. Qed.

(** A step over the low byte of the accumulator shifts it out. *)
Lemma edc_step_low_byte (L : luts) (acc : Z) :
  rd (edc_lut L) 0 = 0 ->
  edc_step L acc (Z.land acc 0xFF) = Z.shiftr acc 8.
Proof.
  intros H0. unfold edc_step.
  assert (E : Z.land (Z.lxor acc (Z.land acc 0xFF)) 0xFF = 0).
  { apply Z.bits_inj'. intros n Hn.
    rewrite Z.land_spec, Z.lxor_spec, Z.land_spec, Z.bits_0.
    now destruct (Z.testbit acc n), (Z.testbit 0xFF n). }
  rewrite E, H0. apply Z.lxor_0_r.
Qed.

Lemma accumulate_le32 (L : luts) (acc : Z) :
  rd (edc_lut L) 0 = 0 -> 0 <= acc < 2 ^ 32 ->
  accumulate (edc_lut L) acc (le32 acc) = 0.
Proof.
  intros H0 Hacc.
  change (accumulate (edc_lut L) acc (le32 acc))
    with (fold_left (edc_step L) (le32 acc) acc).
  unfold le32. cbn [fold_left].
  replace (Z.shiftr acc 24) with (Z.shiftr (Z.shiftr (Z.shiftr acc 8) 8) 8)
    by (rewrite !Z.shiftr_shiftr by lia; reflexivity).
  replace (Z.shiftr acc 16) with (Z.shiftr (Z.shiftr acc 8) 8)
    by (rewrite !Z.shiftr_shiftr by lia; reflexivity).
  rewrite Z.shiftr_0_r, !(edc_step_low_byte L _ H0), !Z.shiftr_shiftr by lia.
  apply Z.shiftr_eq_0; [lia|].
  destruct (decide (acc = 0)) as [->|]; [reflexivity|].
  apply Z.log2_lt_pow2; lia.
Qed.

Lemma edc_lut_0 : rd (edc_lut tables) 0 = 0.
Proof. vm_compute. reflexivity. Qed.

(** When the checksum is stored right after the block it covers, the
    checksum of the block and the four stored bytes together is 0. *)
Lemma edc_stored_residue (mem : list Z) (src n : nat) :
  (src + n + 4 <= length mem)%nat -> Z.of_nat n + 4 < 2 ^ 16 ->
  edc_partial_computeblock tables 0
    (drop src (edc_computeblock tables mem src (Z.of_nat n) (src + n)))
    (Z.of_nat n + 4) = 0.
Proof.
  intros Hlen Hn. rewrite edc_computeblock_inserts.
  remember (edc_partial_computeblock tables 0 (drop src mem) (Z.of_nat n)) as e eqn:He.
  assert (Hd : drop src (list_inserts (src + n) (le32 e) mem)
               = take n (drop src mem) ++ le32 e ++ drop (src + n + 4) mem).
  { rewrite (inserts_at mem (take (src + n) mem) (take 4 (drop (src + n) mem))
               (drop (src + n + 4) mem) (le32 e) (src + n)).
    - rewrite <- (take_drop src (take (src + n) mem)) at 1.
      rewrite <- app_assoc, drop_app_length'
        by (rewrite length_take, length_take; lia).
      now rewrite <- take_drop_commute.
    - rewrite <- (take_drop (src + n) mem) at 1. f_equal.
      rewrite <- (take_drop 4 (drop (src + n) mem)) at 1.
      now rewrite drop_drop.
    - rewrite length_take; lia.
    - rewrite length_take, length_drop, length_le32; lia. }
  rewrite Hd, app_assoc.
  replace (Z.of_nat n + 4) with (Z.of_nat (length (take n (drop src mem) ++ le32 e)))
    by (rewrite length_app, length_take, length_drop, length_le32; lia).
  rewrite (edc_partial_fold tables)
    by (rewrite ?length_app, ?length_take, ?length_drop, ?length_le32; lia).
  change (fold_left (edc_step tables) (take n (drop src mem) ++ le32 e) 0)
    with (accumulate (edc_lut tables) 0 (take n (drop src mem) ++ le32 e)).
  rewrite accumulate_app.
  rewrite <- (checksum_slice tables 0 mem src n) by lia.
  rewrite <- He. apply accumulate_le32; [exact edc_lut_0|].
  rewrite He. apply (edc_partial_range tables edc_lut_range).
Qed.

(** X5: the checksum of data followed by its own checksum is 0.  For
    data of fewer than 65532 bytes and a 32-bit start value, the four
    bytes of [edc_partial_computeblock] over the data, least
    significant first, appended to the data bring the checksum to 0:
    [edc_lut] has 0 at index 0, so each of the four steps shifts one
    byte of the accumulator out. *)
Theorem edc_partial_residue (acc : Z) (data : list Z) :
  0 <= acc < 2 ^ 32 -> Z.of_nat (length data) + 4 < 2 ^ 16 ->
  let e := edc_partial_computeblock tables acc data (Z.of_nat (length data)) in
  edc_partial_computeblock tables acc (data ++ le32 e) (Z.of_nat (length data) + 4) = 0.
Proof.
  intros Hacc Hn e.
  assert (He : e = accumulate (edc_lut tables) acc data).
  { unfold e. rewrite <- (app_nil_r data) at 1.
    apply (edc_partial_fold tables); [exact Hacc|lia]. }
  replace (Z.of_nat (length data) + 4) with (Z.of_nat (length (data ++ le32 e)))
    by (rewrite length_app, length_le32; lia).
  rewrite <- (app_nil_r (data ++ le32 e)) at 1.
  rewrite (edc_partial_fold tables) by (rewrite ?length_app, ?length_le32; lia).
  change (fold_left (edc_step tables) (data ++ le32 e) acc)
    with (accumulate (edc_lut tables) acc (data ++ le32 e)).
  rewrite accumulate_app, <- He.
  apply accumulate_le32; [exact edc_lut_0|].
  rewrite He. now apply (accumulate_range tables edc_lut_range).
Qed.

Lemma edc_partial_residue_witness :
  0 <= 7 < 2 ^ 32 /\ Z.of_nat (length [5; 6]) + 4 < 2 ^ 16
  /\ (let e := edc_partial_computeblock tables 7 [5; 6] (Z.of_nat (length [5; 6])) in
      edc_partial_computeblock tables 7 ([5; 6] ++ le32 e) (Z.of_nat (length [5; 6]) + 4)
      = 0).
Proof.
  split; [lia|]. split; [simpl; lia|].
  apply (edc_partial_residue 7 [5; 6]); simpl; lia.
Defined.

Lemma le32_value_le32 (e : Z) : 0 <= e < 2 ^ 32 -> le32_value (le32 e) = e.
Proof.
  intros He.
  change (le32_value (le32 e))
    with (Z.land (Z.shiftr e 0) 0xFF + 2 ^ 8 * Z.land (Z.shiftr e 8) 0xFF
          + 2 ^ 16 * Z.land (Z.shiftr e 16) 0xFF + 2 ^ 24 * Z.land (Z.shiftr e 24) 0xFF).
  rewrite !land_FF_mod, Z.shiftr_0_r, !Z.shiftr_div_pow2 by lia.
  change (2 ^ 8) with 256.
  pose proof (Z.div_mod e 256 ltac:(lia)).
  pose proof (Z.mod_pos_bound e 256 ltac:(lia)).
  pose proof (Z.div_mod (e / 256) 256 ltac:(lia)).
  pose proof (Z.mod_pos_bound (e / 256) 256 ltac:(lia)).
  pose proof (Z.div_mod (e / 256 / 256) 256 ltac:(lia)).
  pose proof (Z.mod_pos_bound (e / 256 / 256) 256 ltac:(lia)).
  assert (E16 : e / 2 ^ 16 = e / 256 / 256) by (rewrite Z.div_div by lia; reflexivity).
  assert (E24 : e / 2 ^ 24 = e / 256 / 256 / 256)
    by (rewrite !Z.div_div by lia; reflexivity).
  rewrite E16, E24.
  assert (e / 256 / 256 / 256 < 256).
  { apply Z.div_lt_upper_bound; [lia|]. apply Z.div_lt_upper_bound; [lia|].
    apply Z.div_lt_upper_bound; lia. }
  assert (0 <= e / 256 / 256 / 256) by (repeat apply Z.div_pos; lia).
  rewrite (Z.mod_small (e / 256 / 256 / 256)) by lia.
  lia.
Qed.

(** X6: [edc_computeblock] stores the checksum of the block as four
    bytes at [dest], least significant first, and changes nothing else
    in memory. *)
Theorem edc_computeblock_stores (mem : list Z) (src dest : nat) (size : Z) :
  (dest + 4 <= length mem)%nat ->
  let mem' := edc_computeblock tables mem src size dest in
  length mem' = length mem
  /\ Forall is_byte (take 4 (drop dest mem'))
  /\ le32_value (take 4 (drop dest mem'))
     = edc_partial_computeblock tables 0 (drop src mem) size
  /\ forall i, (i < dest \/ dest + 4 <= i)%nat -> mem' !! i = mem !! i.
Proof.
  intros Hlen mem'. unfold mem'. rewrite edc_computeblock_inserts.
  remember (edc_partial_computeblock tables 0 (drop src mem) size) as e eqn:He.
  assert (Hs : take 4 (drop dest (list_inserts dest (le32 e) mem)) = le32 e)
    by (apply (slice_inserts_same mem (le32 e) dest); rewrite length_le32; lia).
  rewrite Hs. split; [apply length_inserts|]. split; [apply is_byte_le32|].
  split.
  - apply le32_value_le32. rewrite He. apply (edc_partial_range tables edc_lut_range).
  - intros i [Hi|Hi].
    + now apply list_lookup_inserts_lt.
    + apply list_lookup_inserts_ge. rewrite length_le32. lia.
Qed.

Lemma edc_computeblock_stores_witness :
  (2 + 4 <= length [5; 6; 0; 0; 0; 0; 9])%nat
  /\ let mem' := edc_computeblock tables [5; 6; 0; 0; 0; 0; 9] 0 2 2 in
     length mem' = length [5; 6; 0; 0; 0; 0; 9]
     /\ Forall is_byte (take 4 (drop 2 mem'))
     /\ le32_value (take 4 (drop 2 mem'))
        = edc_partial_computeblock tables 0 (drop 0 [5; 6; 0; 0; 0; 0; 9]) 2
     /\ forall i, (i < 2 \/ 2 + 4 <= i)%nat -> mem' !! i = [5; 6; 0; 0; 0; 0; 9] !! i.
Proof.
  split; [simpl; lia|].
  apply (edc_computeblock_stores [5; 6; 0; 0; 0; 0; 9] 0 2 2); simpl; lia.
Defined.

Lemma take_inserts_lt (l k : list Z) (n j : nat) :
  (n <= j)%nat -> take n (list_inserts j k l) = take n l.
Proof. intros H. apply (slice_inserts_lt l k 0 n j). lia. Qed.

(** The bytes of a sector before the parity area are those on which
    [ecc_generate] was called. *)
Lemma ecc_generate_head (L : luts) (s : list Z) (zeroaddress : Z) (n : nat) :
  (16 <= length s)%nat -> (n <= 0x81C)%nat ->
  take n (ecc_generate L s zeroaddress) = take n s.
Proof.
  intros Hlen Hn.
  assert (H0 : forall s', take 0x81C (ecc_generate L s' 0) = take 0x81C s').
  { intros s'. rewrite ecc_generate_0.
    now rewrite !take_inserts_lt by lia. }
  assert (H : take 0x81C (ecc_generate L s zeroaddress) = take 0x81C s).
  { destruct (decide (zeroaddress = 0)) as [->|Hz]; [apply H0|].
    apply list_eq. intros i. rewrite !lookup_take.
    destruct (decide (i < 0x81C)%nat) as [Hi|Hi]; [|reflexivity].
    destruct (decide (12 <= i < 16)%nat) as [Ha|Ha].
    - pose proof (ecc_generate_address L s zeroaddress Hlen) as E.
      apply (f_equal (fun l => l !! (i - 12)%nat)) in E.
      rewrite !lookup_take, !lookup_drop in E.
      destruct (decide (i - 12 < 4)%nat); [|lia].
      now replace (12 + (i - 12))%nat with i in E by lia.
    - rewrite ecc_generate_1 by exact Hz.
      destruct (decide (i < 12)%nat).
      + rewrite list_lookup_inserts_lt by lia.
        pose proof (H0 (list_inserts 12 (replicate 4 0) s)) as E.
        apply (f_equal (fun l => l !! i)) in E. rewrite !lookup_take in E.
        destruct (decide (i < 0x81C)%nat); [|lia].
        rewrite E. now apply list_lookup_inserts_lt.
      + rewrite list_lookup_inserts_ge by (cbn [length]; lia).
        pose proof (H0 (list_inserts 12 (replicate 4 0) s)) as E.
        apply (f_equal (fun l => l !! i)) in E. rewrite !lookup_take in E.
        destruct (decide (i < 0x81C)%nat); [|lia].
        rewrite E. apply list_lookup_inserts_ge. rewrite length_replicate. lia. }
  apply (f_equal (take n)) in H. rewrite !take_take in H.
  now rewrite Nat.min_l in H by lia.
Qed.

(** The checksum looks at the first [size] bytes only. *)
Lemma edc_partial_take (L : luts) (acc : Z) (X : list Z) (n : nat) :
  (n <= length X)%nat -> Z.of_nat n < 2 ^ 16 ->
  edc_partial_computeblock L acc X (Z.of_nat n)
  = edc_partial_computeblock L acc (take n X) (Z.of_nat n).
Proof.
  intros Hn Hs. rewrite <- (take_drop n X) at 1.
  apply edc_partial_prefix; [rewrite length_take; lia|exact Hs].
Qed.

Lemma edc_partial_same_slice (L : luts) (acc : Z) (X Y : list Z) (n : nat) :
  (n <= length X)%nat -> (n <= length Y)%nat -> Z.of_nat n < 2 ^ 16 ->
  take n X = take n Y ->
  edc_partial_computeblock L acc X (Z.of_nat n)
  = edc_partial_computeblock L acc Y (Z.of_nat n).
Proof.
  intros HX HY Hs E.
  rewrite (edc_partial_take L acc X n HX Hs), (edc_partial_take L acc Y n HY Hs).
  now rewrite E.
Qed.

(** X7: the sectors that [eccedc_generate] completes pass the check of
    their error-detection code: the checksum over the covered block and
    the stored code is 0, for Mode 1 (from offset 0), Mode 2 Form 1 and
    Mode 2 Form 2 (from offset 0x10); the parity bytes written
    afterwards leave that block alone. *)
Theorem eccedc_generate_edc_valid (s : list Z) :
  length s = 2352%nat ->
  edc_partial_computeblock tables 0 (eccedc_generate tables s 1) 0x814 = 0
  /\ edc_partial_computeblock tables 0 (drop 0x10 (eccedc_generate tables s 2)) 0x80C = 0
  /\ edc_partial_computeblock tables 0 (drop 0x10 (eccedc_generate tables s 3)) 0x920 = 0.
Proof.
  intros Hlen. split; [|split].
  - change (eccedc_generate tables s 1)
      with (ecc_generate tables
              (for_loop 8 0 (fun i sector => <[Z.to_nat (0x814 + i) := 0]> sector)
                 (edc_computeblock tables s 0 0x810 0x810)) 0).
    rewrite zero_fill_inserts.
    pose proof (edc_stored_residue s 0 0x810 ltac:(rewrite Hlen; lia) ltac:(lia))
      as R.
    etransitivity; [|exact R].
    change (Z.of_nat 0x810 + 4) with (Z.of_nat 0x814).
    change 0x814 with (Z.of_nat 0x814).
    change (Z.of_nat 0x810) with 0x810. change (0 + 0x810)%nat with 0x810%nat.
    apply edc_partial_same_slice;
      rewrite ?length_ecc_generate, ?length_inserts, ?length_drop,
        ?length_edc_computeblock, ?Hlen; try lia.
    rewrite ecc_generate_head
      by (rewrite ?length_inserts, ?length_edc_computeblock, ?Hlen; lia).
    now rewrite take_inserts_lt by lia.
  - change (eccedc_generate tables s 2)
      with (ecc_generate tables (edc_computeblock tables s 0x10 0x808 0x818) 1).
    pose proof (edc_stored_residue s 0x10 0x808 ltac:(rewrite Hlen; lia) ltac:(lia))
      as R.
    etransitivity; [|exact R].
    change (Z.of_nat 0x808 + 4) with (Z.of_nat 0x80C).
    change 0x80C with (Z.of_nat 0x80C).
    change (Z.of_nat 0x808) with 0x808. change (0x10 + 0x808)%nat with 0x818%nat.
    apply edc_partial_same_slice;
      rewrite ?length_drop, ?length_ecc_generate, ?length_edc_computeblock, ?Hlen;
      try lia.
    apply ecc_generate_frame; lia.
  - change (eccedc_generate tables s 3)
      with (edc_computeblock tables s 0x10 0x91C 0x92C).
    apply (edc_stored_residue s 0x10 0x91C); rewrite ?Hlen; lia.
Qed.

Lemma eccedc_generate_edc_valid_witness :
  length (replicate 2352 7) = 2352%nat
  /\ edc_partial_computeblock tables 0 (eccedc_generate tables (replicate 2352 7) 1) 0x814 = 0
  /\ edc_partial_computeblock tables 0
       (drop 0x10 (eccedc_generate tables (replicate 2352 7) 2)) 0x80C = 0
  /\ edc_partial_computeblock tables 0
       (drop 0x10 (eccedc_generate tables (replicate 2352 7) 3)) 0x920 = 0.
Proof.
  split; [reflexivity|]. apply (eccedc_generate_edc_valid (replicate 2352 7)).
  reflexivity.
Defined.

(** ** What a chunk writes *)

(** The parity of a sector whose parity area is still to be filled. *)
Lemma ecc_generate_0_segments (L : luts) (pre body old : list Z) :
  length pre = 12%nat -> length body = 2064%nat -> length old = 276%nat ->
  ecc_generate L (pre ++ body ++ old) 0
  = pre ++ body
    ++ computeParity (ecc_f_lut L) (ecc_b_lut L) body 86 24 2 86
    ++ computeParity (ecc_f_lut L) (ecc_b_lut L)
         (body ++ computeParity (ecc_f_lut L) (ecc_b_lut L) body 86 24 2 86) 52 43 86 88.
Proof.
  intros Hpre Hbody Hold. rewrite ecc_generate_0.
  rewrite (drop_app_length' pre) by (symmetry; exact Hpre).
  rewrite (computeParity_prefix 86 24 2 86) by (try lia; apply P_start_range).
  remember (computeParity (ecc_f_lut L) (ecc_b_lut L) body 86 24 2 86) as P eqn:EP.
  assert (HP : length P = 172%nat) by (subst P; rewrite length_computeParity; lia).
  rewrite (inserts_at (pre ++ body ++ old) (pre ++ body) (take 172 old) (drop 172 old)
             P 0x81C); cycle 1.
  { now rewrite <- app_assoc, take_drop. }
  { rewrite length_app. lia. }
  { rewrite length_take. lia. }
  assert (HB : (pre ++ body) ++ P ++ drop 172 old = pre ++ (body ++ P) ++ drop 172 old)
    by (now rewrite <- !app_assoc).
  rewrite HB. clear HB.
  rewrite (drop_app_length' pre) by (symmetry; exact Hpre).
  rewrite (computeParity_prefix 52 43 86 88)
    by (try (rewrite ?length_app, ?Hbody, ?HP; lia); apply Q_start_range).
  remember (computeParity (ecc_f_lut L) (ecc_b_lut L) (body ++ P) 52 43 86 88) as Q eqn:EQ.
  assert (HQ : length Q = 104%nat) by (subst Q; rewrite length_computeParity; lia).
  rewrite (inserts_at (pre ++ (body ++ P) ++ drop 172 old) (pre ++ body ++ P)
             (drop 172 old) [] Q 0x8C8); cycle 1.
  { now rewrite <- !app_assoc, app_nil_r. }
  { rewrite !length_app. lia. }
  { rewrite length_drop. lia. }
  now rewrite <- !app_assoc, app_nil_r.
Qed.

(** The sector of Mode 2 Form 1 once its bytes are read and its
    subheader is copied. *)
Lemma mode2_generate (L : luts) (bytes : list Z) :
  length bytes = 0x804%nat ->
  eccedc_generate L
    ((sync_pattern ++ [0; 0; 0; 0x02]) ++ (take 4 bytes ++ bytes) ++ replicate 280 0) 2
  = (sync_pattern ++ [0; 0; 0; 0x02]) ++ mode2form1_block L bytes.
Proof.
  intros Hb. unfold eccedc_generate, mode2form1_block.
  change (2 =? 1) with false. change (2 =? 2) with true. cbv beta iota zeta.
  rewrite edc_computeblock_inserts.
  assert (Hblock : length (take 4 bytes ++ bytes) = 2056%nat)
    by (now rewrite length_app, length_take, Hb).
  remember (take 4 bytes ++ bytes) as block eqn:Eblock.
  rewrite (drop_app_length' (sync_pattern ++ [0; 0; 0; 2])) by reflexivity.
  rewrite (edc_partial_accumulate L 0 block (replicate 280 0) 0x808)
    by (rewrite ?Hblock; reflexivity).
  change (wrap32 0) with 0.
  remember (le32 (accumulate (edc_lut L) 0 block)) as E eqn:EE.
  assert (HE : length E = 4%nat) by (subst E; reflexivity).
  rewrite (inserts_at ((sync_pattern ++ [0; 0; 0; 2]) ++ block ++ replicate 280 0)
             ((sync_pattern ++ [0; 0; 0; 2]) ++ block) (replicate 4 0) (replicate 276 0)
             E 0x818); cycle 1.
  { rewrite <- !app_assoc. now do 3 f_equal. }
  { rewrite length_app, Hblock. reflexivity. }
  { exact HE. }
  rewrite ecc_generate_1 by lia.
  remember (block ++ E) as be eqn:Ebe.
  assert (Hbe : length be = 2060%nat) by (subst be; rewrite length_app; lia).
  assert (HB : ((sync_pattern ++ [0; 0; 0; 2]) ++ block) ++ E ++ replicate 276 0
               = sync_pattern ++ [0; 0; 0; 2] ++ be ++ replicate 276 0)
    by (subst be; now rewrite <- !app_assoc).
  rewrite HB. clear HB.
  change (rd (sync_pattern ++ [0; 0; 0; 2] ++ be ++ replicate 276 0) 12) with 0.
  change (rd (sync_pattern ++ [0; 0; 0; 2] ++ be ++ replicate 276 0) 13) with 0.
  change (rd (sync_pattern ++ [0; 0; 0; 2] ++ be ++ replicate 276 0) 14) with 0.
  change (rd (sync_pattern ++ [0; 0; 0; 2] ++ be ++ replicate 276 0) 15) with 2.
  rewrite (inserts_at (sync_pattern ++ [0; 0; 0; 2] ++ be ++ replicate 276 0)
             sync_pattern [0; 0; 0; 2] (be ++ replicate 276 0) (replicate 4 0) 0xC
             eq_refl eq_refl eq_refl).
  assert (HB : sync_pattern ++ replicate 4 0 ++ be ++ replicate 276 0
               = sync_pattern ++ (replicate 4 0 ++ be) ++ replicate 276 0)
    by (now rewrite <- !app_assoc).
  rewrite HB. clear HB.
  rewrite (ecc_generate_0_segments L sync_pattern (replicate 4 0 ++ be) (replicate 276 0))
    by (rewrite ?length_app, ?length_replicate; lia || reflexivity).
  remember (computeParity (ecc_f_lut L) (ecc_b_lut L) (replicate 4 0 ++ be) 86 24 2 86)
    as P eqn:EP.
  remember (computeParity (ecc_f_lut L) (ecc_b_lut L) ((replicate 4 0 ++ be) ++ P)
              52 43 86 88) as Q eqn:EQ.
  rewrite (inserts_at (sync_pattern ++ (replicate 4 0 ++ be) ++ P ++ Q)
             sync_pattern (replicate 4 0) (be ++ P ++ Q) [0; 0; 0; 2] 0xC).
  - subst be. now rewrite <- !app_assoc.
  - now rewrite <- !app_assoc.
  - reflexivity.
  - reflexivity.
Qed.

Lemma length_mode2form1_block (L : luts) (bytes : list Z) :
  length bytes = 0x804%nat -> length (mode2form1_block L bytes) = 2336%nat.
Proof.
  intros Hb. unfold mode2form1_block. cbv zeta.
  rewrite !length_app, !length_computeParity, length_le32, length_take, Hb. reflexivity.
Qed.

Lemma mode2_buffer (bytes : list Z) :
  length bytes = 0x804%nat ->
  let B := list_inserts 0x14 bytes
             (<[0x0F%nat := 0x02]>
                (list_inserts 1 (replicate 10 0xFF) (replicate 2352 0))) in
  length B = 2352%nat
  /\ list_inserts 0x10 (take 4 (drop 0x14 B)) B
     = (sync_pattern ++ [0; 0; 0; 0x02]) ++ (take 4 bytes ++ bytes) ++ replicate 280 0.
Proof.
  intros Hb B.
  assert (E : <[0x0F%nat := 0x02]> (list_inserts 1 (replicate 10 0xFF) (replicate 2352 0))
              = ((sync_pattern ++ [0; 0; 0; 0x02]) ++ [0; 0; 0; 0])
                ++ replicate 0x804 0 ++ replicate 280 0)
    by (vm_compute; reflexivity).
  assert (HB : B = (sync_pattern ++ [0; 0; 0; 0x02]) ++ [0; 0; 0; 0]
                   ++ bytes ++ replicate 280 0).
  { unfold B. rewrite E.
    rewrite (inserts_at _ ((sync_pattern ++ [0; 0; 0; 0x02]) ++ [0; 0; 0; 0])
               (replicate 0x804 0) (replicate 280 0) bytes 0x14 eq_refl);
      [now rewrite <- !app_assoc|reflexivity|now rewrite length_replicate]. }
  clearbody B. subst B. split.
  { rewrite !length_app, length_replicate, Hb. reflexivity. }
  assert (Hd : drop 20 ((sync_pattern ++ [0; 0; 0; 0x02]) ++ [0; 0; 0; 0]
                        ++ bytes ++ replicate 280 0) = bytes ++ replicate 280 0)
    by (apply (drop_app_length' (sync_pattern ++ [0; 0; 0; 2] ++ [0; 0; 0; 0])); reflexivity).
  rewrite Hd, (take_app_le bytes) by lia.
  rewrite (inserts_at _ (sync_pattern ++ [0; 0; 0; 0x02]) [0; 0; 0; 0]
             (bytes ++ replicate 280 0) (take 4 bytes) 0x10 eq_refl);
    [now rewrite <- !app_assoc|reflexivity|now rewrite length_take, Hb].
Qed.

(** One turn of the loop of a sector chunk, for each type, on a state
    whose input holds the bytes of a sector. *)
Lemma sector_rep_mode1 (L : luts) (st : state) (address data rest : list Z) :
  length (sector st) = 2352%nat -> length address = 3%nat -> length data = 2048%nat ->
  inp st = address ++ data ++ rest ->
  sector_rep L 1 st
  = Ok tt (State rest (out st ++ mode1_sector L address data)
             (edc_partial_computeblock L (checkedc st) (mode1_sector L address data) 2352)
             (mode1_sector L address data)).
Proof.
  intros Hs Ha Hd Hin.
  pose proof (length_mode1_sector L address data Ha Hd) as Hlen.
  destruct st as [i o c s0]. simpl in Hs, Hin. subst i.
  unfold sector_rep. change (1 =? 1) with true.
  cbv beta iota zeta delta [bind memset poke fread generate checksum fwrite set_sector
                             ret throw inp out checkedc sector].
  rewrite (take_app_length' address (data ++ rest) 3 (eq_sym Ha)).
  rewrite (drop_app_length' address (data ++ rest) 3 (eq_sym Ha)).
  rewrite Ha. change (negb (3 =? 3)%nat) with false. cbv beta iota.
  rewrite (take_app_length' data rest 2048 (eq_sym Hd)).
  rewrite (drop_app_length' data rest 2048 (eq_sym Hd)).
  rewrite Hd, Nat.eqb_refl. cbv beta iota delta [negb].
  rewrite (inserts_whole (replicate 2352 0) s0) by (now rewrite length_replicate).
  rewrite (mode1_buffer address data Ha Hd), (mode1_generate L address data Ha Hd).
  rewrite drop_0, (take_ge (mode1_sector L address data) 2352) by lia. reflexivity.
Qed.

Lemma sector_rep_form1 (L : luts) (st : state) (bytes rest : list Z) :
  length (sector st) = 2352%nat -> length bytes = 0x804%nat ->
  inp st = bytes ++ rest ->
  sector_rep L 2 st
  = Ok tt (State rest (out st ++ mode2form1_block L bytes)
             (edc_partial_computeblock L (checkedc st) (mode2form1_block L bytes) 2336)
             ((sync_pattern ++ [0; 0; 0; 0x02]) ++ mode2form1_block L bytes)).
Proof.
  intros Hs Hb Hin.
  pose proof (length_mode2form1_block L bytes Hb) as Hblock.
  destruct st as [i o c s0]. simpl in Hs, Hin. subst i.
  destruct (mode2_buffer bytes Hb) as [HB HM]. cbv zeta in HB, HM.
  unfold sector_rep.
  change (2 =? 1) with false. change (2 =? 2) with true.
  cbv beta iota zeta delta [bind memset poke fread set_sector
                             ret throw inp out checkedc sector].
  rewrite (take_app_length' bytes rest 0x804 (eq_sym Hb)).
  rewrite (drop_app_length' bytes rest 0x804 (eq_sym Hb)).
  rewrite Hb, Nat.eqb_refl. cbv beta iota delta [negb].
  rewrite (inserts_whole (replicate 2352 0) s0) by (now rewrite length_replicate).
  rewrite mirror_subheader_spec by (cbn [sector]; rewrite HB; lia).
  cbv beta iota zeta delta [generate checksum fwrite set_sector
                             inp out checkedc sector].
  rewrite HM, (mode2_generate L bytes Hb).
  rewrite (drop_app_length' (sync_pattern ++ [0; 0; 0; 2])) by reflexivity.
  rewrite (take_ge (mode2form1_block L bytes) 2336) by lia. reflexivity.
Qed.

Lemma sector_rep_form2 (L : luts) (st : state) (bytes rest : list Z) :
  length (sector st) = 2352%nat -> length bytes = 0x918%nat ->
  inp st = bytes ++ rest ->
  sector_rep L 3 st
  = Ok tt (State rest (out st ++ mode2form2_block L bytes)
             (edc_partial_computeblock L (checkedc st) (mode2form2_block L bytes) 2336)
             ((sync_pattern ++ [0; 0; 0; 0x02]) ++ mode2form2_block L bytes)).
Proof.
  intros Hs Hb Hin.
  pose proof (length_mode2form2_block L bytes Hb) as Hblock.
  destruct st as [i o c s0]. simpl in Hs, Hin. subst i.
  destruct (mode3_buffer bytes Hb) as [HB HM]. cbv zeta in HB, HM.
  unfold sector_rep.
  change (3 =? 1) with false. change (3 =? 2) with false. change (3 =? 3) with true.
  cbv beta iota zeta delta [bind memset poke fread set_sector
                             ret throw inp out checkedc sector].
  rewrite (take_app_length' bytes rest 2328 (eq_sym Hb)).
  rewrite (drop_app_length' bytes rest 2328 (eq_sym Hb)).
  rewrite Hb, Nat.eqb_refl. cbv beta iota delta [negb].
  rewrite (inserts_whole (replicate 2352 0) s0) by (now rewrite length_replicate).
  rewrite mirror_subheader_spec
    by (cbn [sector]; rewrite length_inserts, length_insert, length_inserts,
          length_replicate; lia).
  cbv beta iota zeta delta [generate checksum fwrite set_sector
                             inp out checkedc sector].
  rewrite HM, (mode3_generate L bytes Hb).
  rewrite (drop_app_length' (sync_pattern ++ [0; 0; 0; 2])) by reflexivity.
  rewrite (take_ge (mode2form2_block L bytes) 2336) by lia. reflexivity.
Qed.

Lemma sector_rep_block (L : luts) (type : Z) (st : state) (bytes rest : list Z) :
  1 <= type <= 3 ->
  length (sector st) = 2352%nat -> length bytes = sector_need type ->
  inp st = bytes ++ rest ->
  exists st',
    sector_rep L type st = Ok tt st'
    /\ inp st' = rest /\ out st' = out st ++ sector_block L type bytes
    /\ length (sector st') = 2352%nat.
Proof.
  intros Ht Hs Hb Hin.
  assert (Hc : type = 1 \/ type = 2 \/ type = 3) by lia.
  destruct Hc as [-> | [-> | ->]].
  - change (sector_need 1) with 2051%nat in Hb.
    eexists. split.
    + apply (sector_rep_mode1 L st (take 3 bytes) (drop 3 bytes) rest Hs).
      * rewrite length_take. lia.
      * rewrite length_drop. lia.
      * now rewrite app_assoc, take_drop.
    + cbn [inp out sector]. repeat split.
      apply length_mode1_sector; [rewrite length_take|rewrite length_drop]; lia.
  - change (sector_need 2) with 0x804%nat in Hb.
    eexists. split; [apply (sector_rep_form1 L st bytes rest Hs Hb Hin)|].
    cbn [inp out sector]. repeat split.
    rewrite length_app, (length_mode2form1_block L bytes Hb). reflexivity.
  - change (sector_need 3) with 0x918%nat in Hb.
    eexists. split; [apply (sector_rep_form2 L st bytes rest Hs Hb Hin)|].
    cbn [inp out sector]. repeat split.
    rewrite length_app, (length_mode2form2_block L bytes Hb). reflexivity.
Qed.

(** The loop of a sector chunk over the bytes of [records]. *)
Lemma sector_loop_blocks (L : luts) (type : Z) (fuel : nat) :
  forall (records : list (list Z)) (st : state) (rest : list Z),
  1 <= type <= 3 ->
  Forall (fun r => length r = sector_need type) records ->
  length (sector st) = 2352%nat -> inp st = concat records ++ rest ->
  (length records <= fuel)%nat ->
  exists st',
    sector_loop L type fuel (Z.of_nat (length records)) st = Ok tt st'
    /\ inp st' = rest
    /\ out st' = out st ++ concat (sector_block L type <$> records)
    /\ length (sector st') = 2352%nat.
Proof.
  induction fuel as [|fuel IH]; intros records st rest Ht Hr Hs Hin Hf.
  - destruct records; [|cbn [length] in Hf; lia].
    exists st. cbn. now rewrite app_nil_r.
  - destruct records as [|r records].
    + exists st. cbn. now rewrite app_nil_r.
    + apply Forall_cons in Hr as [Hr0 Hr]. cbn [concat] in Hin.
      rewrite <- app_assoc in Hin.
      destruct (sector_rep_block L type st r (concat records ++ rest) Ht Hs Hr0 Hin)
        as (st1 & E1 & Hi1 & Ho1 & Hs1).
      destruct (IH records st1 rest Ht Hr Hs1 Hi1 ltac:(cbn [length] in Hf; lia))
        as (st2 & E2 & Hi2 & Ho2 & Hs2).
      exists st2. cbn [sector_loop].
      replace (Z.of_nat (length (r :: records)) =? 0) with false
        by (symmetry; apply Z.eqb_neq; cbn [length]; lia).
      unfold bind. rewrite E1.
      replace (Z.of_nat (length (r :: records)) - 1) with (Z.of_nat (length records))
        by (cbn [length]; lia).
      rewrite E2. repeat split; [exact Hi2| |exact Hs2].
      rewrite Ho2, Ho1, fmap_cons. cbn [concat]. now rewrite app_assoc.
Qed.

(** The loop of a literal chunk copies its input to the output. *)
Lemma literal_loop_copy (L : luts) (fuel : nat) :
  forall (payload : list Z) (st : state) (rest : list Z),
  length (sector st) = 2352%nat -> inp st = payload ++ rest ->
  (length payload <= fuel)%nat ->
  exists st',
    literal_loop L fuel (Z.of_nat (length payload)) st = Ok tt st'
    /\ inp st' = rest /\ out st' = out st ++ payload
    /\ length (sector st') = 2352%nat.
Proof.
  induction fuel as [|fuel IH]; intros payload st rest Hs Hin Hf.
  - destruct payload; [|cbn [length] in Hf; lia].
    exists st. cbn. now rewrite app_nil_r.
  - destruct (decide (payload = [])) as [->|Hne].
    { exists st. cbn. now rewrite app_nil_r. }
    assert (Hpos : (0 < length payload)%nat) by (destruct payload; [done|cbn; lia]).
    cbn [literal_loop].
    replace (Z.of_nat (length payload) =? 0) with false
      by (symmetry; apply Z.eqb_neq; lia).
    cbv zeta.
    assert (Hb : exists n, (if Z.of_nat (length payload) >? 2352 then 2352
                            else wrap16 (Z.of_nat (length payload))) = Z.of_nat n
                           /\ (0 < n <= 2352)%nat /\ (n <= length payload)%nat).
    { destruct (Z.of_nat (length payload) >? 2352) eqn:E.
      - exists 2352%nat. lia.
      - exists (length payload). rewrite wrap16_small by lia. lia. }
    destruct Hb as (n & -> & Hn & Hnl). rewrite Nat2Z.id.
    assert (Ht : length (take n payload) = n) by (rewrite length_take; lia).
    rewrite (bind_Ok _ _ _ _ _
               (fread_exact 0 n st (take n payload) (drop n payload ++ rest)
                  ltac:(now rewrite app_assoc, take_drop) Ht)).
    rewrite Z.eqb_refl. cbn [negb].
    unfold bind at 1, checksum at 1. unfold bind at 1, fwrite at 1.
    cbn [inp out checkedc sector].
    assert (Hsl : take n (drop 0 (list_inserts 0 (take n payload) (sector st)))
                  = take n payload).
    { rewrite <- Ht at 1. apply slice_inserts_same. lia. }
    rewrite Hsl.
    match goal with |- context [literal_loop L fuel _ ?s] => remember s as st1 eqn:E1 end.
    destruct (IH (drop n payload) st1 rest) as (st2 & E2 & Hi2 & Ho2 & Hs2).
    + subst st1. cbn [sector]. now rewrite length_inserts.
    + subst st1. reflexivity.
    + rewrite length_drop. lia.
    + exists st2.
      replace (Z.of_nat (length payload) - Z.of_nat n)
        with (Z.of_nat (length (drop n payload))) by (rewrite length_drop; lia).
      rewrite E2. repeat split; [exact Hi2| |exact Hs2].
      rewrite Ho2. subst st1. cbn [out]. now rewrite <- app_assoc, take_drop.
Qed.

(** What [dispatch] does with a count that is neither the indicator nor
    too large. *)
Lemma dispatch_loop (L : luts) (type num : Z) (n : nat) (st : state) :
  num = Z.of_nat n - 1 -> (0 < n)%nat -> Z.of_nat n < 2 ^ 63 -> Z.of_nat n <> 2 ^ 32 ->
  dispatch L type num st
  = ((if type =? 0 then fueled (fun fuel => literal_loop L fuel (Z.of_nat n))
      else fueled (fun fuel => sector_loop L type fuel (Z.of_nat n))) ;; ret false) st.
Proof.
  intros -> Hpos Hmax Hne. unfold dispatch.
  replace (Z.of_nat n - 1 =? 0xFFFFFFFF) with false by (symmetry; apply Z.eqb_neq; lia).
  cbv zeta. replace (Z.of_nat n - 1 + 1) with (Z.of_nat n) by lia.
  unfold uint64. rewrite Z.mod_small by lia.
  replace (Z.of_nat n >=? 0x8000000000000000) with false; [reflexivity|].
  symmetry. rewrite Z.geb_leb. apply Z.leb_gt. lia.
Qed.

(** X8: a literal chunk.  When a header of at most nine continuation
    bytes has type 0 and holds the count [n - 1], for [n] from 1 to
    [2 ^ 63 - 1] other than [2 ^ 32] (the count [0xFFFFFFFF] is the
    end-of-records indicator and ends the loop), and [n] bytes follow,
    the turn of the loop reads the header and these bytes, writes the
    [n] bytes unchanged, and goes on with the next chunk. *)
Theorem chunk_literal (L : luts) (first : Z) (more payload : list Z) :
  chain first more = true -> (length more <= 9)%nat ->
  Z.land first 3 = 0 ->
  uint64 (rawCount first more) = Z.of_nat (length payload) - 1 ->
  (0 < length payload)%nat -> Z.of_nat (length payload) < 2 ^ 63 ->
  Z.of_nat (length payload) <> 2 ^ 32 ->
  chunk_writes L (first :: more ++ payload) payload.
Proof.
  intros Hc Hm Ht Hn Hpos Hmax Hne st rest Hs Hin.
  rewrite (chunk_header L st first more (payload ++ rest))
    by (try assumption; rewrite Hin; cbn; now rewrite <- app_assoc).
  rewrite (dispatch_loop L _ _ (length payload)) by assumption.
  rewrite Ht. change (0 =? 0) with true. cbv beta iota.
  unfold bind, fueled.
  destruct (literal_loop_copy L (S (length (inp (set_inp (payload ++ rest) st))))
              payload (set_inp (payload ++ rest) st) rest)
    as (st' & E & Hi & Ho & Hs'); [exact Hs|reflexivity| |].
  { cbn [inp set_inp]. rewrite length_app. lia. }
  rewrite E. exists st'. now repeat split.
Qed.

Lemma chunk_literal_witness :
  chain 0x04 [] = true /\ (length (@nil Z) <= 9)%nat
  /\ Z.land 0x04 3 = 0
  /\ uint64 (rawCount 0x04 []) = Z.of_nat (length [0x41; 0x42]) - 1
  /\ (0 < length [0x41; 0x42])%nat /\ Z.of_nat (length [0x41; 0x42]) < 2 ^ 63
  /\ Z.of_nat (length [0x41; 0x42]) <> 2 ^ 32
  /\ chunk_writes tables (0x04 :: [] ++ [0x41; 0x42]) [0x41; 0x42].
Proof.
  split; [reflexivity|]. split; [simpl; lia|]. split; [reflexivity|].
  split; [reflexivity|]. split; [simpl; lia|]. split; [simpl; lia|].
  split; [simpl; lia|].
  apply (chunk_literal tables 0x04 [] [0x41; 0x42]);
    first [reflexivity|simpl; lia].
Defined.

Lemma length_concat_ge (records : list (list Z)) (k : nat) :
  (0 < k)%nat -> Forall (fun r => length r = k) records ->
  (length records <= length (concat records))%nat.
Proof.
  intros Hk H. induction H as [|r records Hr _ IH]; [reflexivity|].
  cbn [concat length]. rewrite length_app. lia.
Qed.

Lemma sector_need_pos (type : Z) : (0 < sector_need type)%nat.
Proof. unfold sector_need. destruct (type =? 1), (type =? 2); lia. Qed.

(** X9: a sector chunk.  When a header of at most nine continuation
    bytes has type 1, 2 or 3 and holds the count [n - 1], for [n] from
    1 to [2 ^ 63 - 1] other than [2 ^ 32] (the count [0xFFFFFFFF] is
    the end-of-records indicator and ends the loop whatever the type),
    and the bytes of [n] sectors follow (2051, 2052 or 2328 bytes each),
    the turn of the loop reads the header and these bytes and writes
    the [n] rebuilt sectors in order: 2352 bytes each for type 1, the
    2336 bytes from offset 0x10 for types 2 and 3. *)
Theorem chunk_sectors (L : luts) (first : Z) (more : list Z) (records : list (list Z)) :
  chain first more = true -> (length more <= 9)%nat ->
  Z.land first 3 <> 0 ->
  Forall (fun r => length r = sector_need (Z.land first 3)) records ->
  uint64 (rawCount first more) = Z.of_nat (length records) - 1 ->
  (0 < length records)%nat -> Z.of_nat (length records) < 2 ^ 63 ->
  Z.of_nat (length records) <> 2 ^ 32 ->
  chunk_writes L (first :: more ++ concat records)
    (concat (sector_block L (Z.land first 3) <$> records)).
Proof.
  intros Hc Hm Ht Hr Hn Hpos Hmax Hne st rest Hs Hin.
  pose proof (land3_range first) as Hty.
  rewrite (chunk_header L st first more (concat records ++ rest))
    by (try assumption; rewrite Hin; cbn; now rewrite <- app_assoc).
  rewrite (dispatch_loop L _ _ (length records)) by assumption.
  replace (Z.land first 3 =? 0) with false by (symmetry; now apply Z.eqb_neq).
  unfold bind, fueled.
  destruct (sector_loop_blocks L (Z.land first 3)
              (S (length (inp (set_inp (concat records ++ rest) st))))
              records (set_inp (concat records ++ rest) st) rest)
    as (st' & E & Hi & Ho & Hs'); [lia|exact Hr|exact Hs|reflexivity| |].
  { cbn [inp set_inp]. rewrite length_app.
    pose proof (length_concat_ge records _ (sector_need_pos _) Hr). lia. }
  rewrite E. exists st'. now repeat split.
Qed.

Lemma chunk_sectors_witness :
  chain 0x01 [] = true /\ (length (@nil Z) <= 9)%nat
  /\ Z.land 0x01 3 <> 0
  /\ Forall (fun r => length r = sector_need (Z.land 0x01 3))
       [sample_address ++ sample_data]
  /\ uint64 (rawCount 0x01 []) = Z.of_nat (length [sample_address ++ sample_data]) - 1
  /\ (0 < length [sample_address ++ sample_data])%nat
  /\ Z.of_nat (length [sample_address ++ sample_data]) < 2 ^ 63
  /\ Z.of_nat (length [sample_address ++ sample_data]) <> 2 ^ 32
  /\ chunk_writes tables (0x01 :: [] ++ concat [sample_address ++ sample_data])
       (concat (sector_block tables (Z.land 0x01 3) <$> [sample_address ++ sample_data])).
Proof.
  assert (Hr : Forall (fun r => length r = sector_need (Z.land 0x01 3))
                 [sample_address ++ sample_data])
    by (constructor; [reflexivity|constructor]).
  assert (Ht : Z.land 0x01 3 <> 0) by (vm_compute; discriminate).
  split; [reflexivity|]. split; [simpl; lia|]. split; [exact Ht|].
  split; [exact Hr|]. split; [reflexivity|]. split; [simpl; lia|].
  split; [simpl; lia|]. split; [simpl; lia|].
  apply (chunk_sectors tables 0x01 [] [sample_address ++ sample_data]);
    first [exact Hr|exact Ht|reflexivity|simpl; lia].
Defined.

(** X10: a sector of Mode 2 Form 1 (type 2).  From 2052 bytes of input
    the turn writes 2336 bytes: the subheader (the first four bytes
    read), the bytes read, the checksum of these 2056 bytes, 172 bytes
    of P parity and 104 bytes of Q parity, both computed with zeros in
    place of the address and mode bytes.  The checksum of the 2056
    bytes and the running checksum over the 2336 bytes written are
    stated with [accumulate], the fold of the specification; the
    running one starts from [checkedc], an [ecc_uint32], which is a
    value that [wrap32] leaves as it is. *)
Theorem mode2_form1_sector (L : luts) (st : state) (bytes rest : list Z) :
  length (sector st) = 2352%nat ->
  length bytes = 0x804%nat ->
  inp st = bytes ++ rest ->
  let block := mode2form1_block L bytes in
  sector_rep L 2 st
  = Ok tt (State rest (out st ++ block)
             (accumulate (edc_lut L) (wrap32 (checkedc st)) block)
             ((sync_pattern ++ [0; 0; 0; 0x02]) ++ block))
  /\ length block = 2336%nat
  /\ take 4 block = take 4 bytes
  /\ take 0x804 (drop 4 block) = bytes
  /\ take 4 (drop 0x808 block)
     = le32 (accumulate (edc_lut L) 0 (take 0x808 block))
  /\ take 172 (drop 0x80C block)
     = computeParity (ecc_f_lut L) (ecc_b_lut L)
         (replicate 4 0 ++ take 0x80C block) 86 24 2 86
  /\ drop 0x8B8 block
     = computeParity (ecc_f_lut L) (ecc_b_lut L)
         (replicate 4 0 ++ take 0x8B8 block) 52 43 86 88.
Proof.
  intros Hs Hb Hin block.
  pose proof (length_mode2form1_block L bytes Hb) as Hblock.
  split.
  { rewrite (sector_rep_form1 L st bytes rest Hs Hb Hin).
    rewrite (edc_partial_whole L (checkedc st) (mode2form1_block L bytes) 2336)
      by (rewrite ?Hblock; reflexivity).
    reflexivity. }
  split; [exact Hblock|]. clear Hblock.
  clear Hs Hin. subst block. unfold mode2form1_block. cbv zeta.
  assert (Ht : length (take 4 bytes) = 4%nat) by (now rewrite length_take, Hb).
  remember (le32 (accumulate (edc_lut L) 0 (take 4 bytes ++ bytes))) as E eqn:EE.
  assert (HE : length E = 4%nat) by (subst E; reflexivity).
  remember (computeParity (ecc_f_lut L) (ecc_b_lut L)
              (replicate 4 0 ++ (take 4 bytes ++ bytes) ++ E) 86 24 2 86) as P eqn:EP.
  assert (HP : length P = 172%nat) by (subst P; rewrite length_computeParity; lia).
  remember (computeParity (ecc_f_lut L) (ecc_b_lut L)
              ((replicate 4 0 ++ (take 4 bytes ++ bytes) ++ E) ++ P) 52 43 86 88)
    as Q eqn:EQ.
  remember ((take 4 bytes ++ bytes) ++ E ++ P ++ Q) as s eqn:Es.
  assert (S0 : take 0x808 s = take 4 bytes ++ bytes).
  { subst s. apply take_app_length'. rewrite length_app. lia. }
  assert (S1 : take 0x80C s = (take 4 bytes ++ bytes) ++ E).
  { subst s. rewrite app_assoc. apply take_app_length'. rewrite !length_app. lia. }
  assert (S2 : take 0x8B8 s = ((take 4 bytes ++ bytes) ++ E) ++ P).
  { subst s. rewrite 2!app_assoc. apply take_app_length'. rewrite !length_app. lia. }
  rewrite S0, S1, S2, <- EE, <- EP.
  rewrite (app_assoc (replicate 4 0) ((take 4 bytes ++ bytes) ++ E) P).
  rewrite <- EQ. repeat split.
  - subst s. rewrite <- app_assoc. apply take_app_length'. now rewrite Ht.
  - apply (slice_mid s (take 4 bytes) bytes (E ++ P ++ Q));
      [subst s; now rewrite <- !app_assoc|exact Ht|exact Hb].
  - apply (slice_mid s (take 4 bytes ++ bytes) E (P ++ Q));
      [exact Es|rewrite length_app; lia|exact HE].
  - apply (slice_mid s ((take 4 bytes ++ bytes) ++ E) P Q);
      [subst s; now rewrite <- !app_assoc|rewrite !length_app; lia|exact HP].
  - subst s. rewrite 2!app_assoc.
    apply drop_app_length'. rewrite !length_app. lia.
Qed.

Lemma mode2_form1_sector_witness :
  length (sector sample_mode2form1) = 2352%nat
  /\ length sample_form1 = 0x804%nat
  /\ inp sample_mode2form1 = sample_form1 ++ []
  /\ (let block := mode2form1_block tables sample_form1 in
      sector_rep tables 2 sample_mode2form1
      = Ok tt (State [] (out sample_mode2form1 ++ block)
                 (accumulate (edc_lut tables) (wrap32 (checkedc sample_mode2form1)) block)
                 ((sync_pattern ++ [0; 0; 0; 0x02]) ++ block))).
Proof.
  assert (H1 : length (sector sample_mode2form1) = 2352%nat) by reflexivity.
  assert (H2 : length sample_form1 = 0x804%nat) by reflexivity.
  assert (H3 : inp sample_mode2form1 = sample_form1 ++ []) by reflexivity.
  split; [exact H1|]. split; [exact H2|]. split; [exact H3|].
  exact (proj1 (mode2_form1_sector tables sample_mode2form1 sample_form1 [] H1 H2 H3)).
Defined.

(** ** Well-formed streams are decoded *)

Lemma piece_writes (L : luts) (p : piece) :
  well_formed p -> chunk_writes L (piece_bytes p) (piece_output L p).
Proof.
  destruct p as [first more payload|first more records]; cbn [well_formed].
  - intros (Hc & Hm & Ht & Hn & Hpos & Hmax & Hne) st rest Hs Hin.
    cbn [piece_bytes piece_output] in *.
    rewrite (chunk_header L st first more (payload ++ rest))
      by (try assumption; rewrite Hin; cbn; now rewrite <- app_assoc).
    rewrite (dispatch_loop L _ _ (length payload)) by assumption.
    rewrite Ht. change (0 =? 0) with true. cbv beta iota.
    unfold bind, fueled.
    destruct (literal_loop_copy L (S (length (inp (set_inp (payload ++ rest) st))))
                payload (set_inp (payload ++ rest) st) rest)
      as (st' & E & Hi & Ho & Hs'); [exact Hs|reflexivity| |].
    { cbn [inp set_inp]. rewrite length_app. lia. }
    rewrite E. exists st'. now repeat split.
  - intros (Hc & Hm & Ht & Hr & Hn & Hpos & Hmax & Hne) st rest Hs Hin.
    cbn [piece_bytes piece_output] in *.
    pose proof (land3_range first) as Hty.
    rewrite (chunk_header L st first more (concat records ++ rest))
      by (try assumption; rewrite Hin; cbn; now rewrite <- app_assoc).
    rewrite (dispatch_loop L _ _ (length records)) by assumption.
    replace (Z.land first 3 =? 0) with false by (symmetry; now apply Z.eqb_neq).
    unfold bind, fueled.
    destruct (sector_loop_blocks L (Z.land first 3)
                (S (length (inp (set_inp (concat records ++ rest) st))))
                records (set_inp (concat records ++ rest) st) rest)
      as (st' & E & Hi & Ho & Hs'); [lia|exact Hr|exact Hs|reflexivity| |].
    { cbn [inp set_inp]. rewrite length_app.
      pose proof (length_concat_ge records _ (sector_need_pos _) Hr). lia. }
    rewrite E. exists st'. now repeat split.
Qed.

Lemma length_pieces (pieces : list piece) :
  (length pieces <= length (concat (piece_bytes <$> pieces)))%nat.
Proof.
  induction pieces as [|p pieces IH]; [reflexivity|].
  rewrite fmap_cons. cbn [concat length]. rewrite length_app.
  destruct p; cbn [piece_bytes length]; lia.
Qed.

Section Stream.
Variable L : luts.
Hypothesis lut_range : forall i, 0 <= rd (edc_lut L) i < 2 ^ 32.

(** The loop over the chunks, chunk after chunk. *)
Lemma chunks_pieces (pieces : list piece) : forall (st : state) (tail : list Z),
  Forall well_formed pieces -> checked L st ->
  inp st = concat (piece_bytes <$> pieces) ++ tail ->
  exists st',
    checked L st' /\ inp st' = tail
    /\ out st' = out st ++ concat (piece_output L <$> pieces)
    /\ forall k, chunks L (length pieces + k) st = chunks L k st'.
Proof.
  induction pieces as [|p pieces IH]; intros st tail Hwf Hck Hin.
  - exists st. cbn. now rewrite app_nil_r.
  - apply Forall_cons in Hwf as [Hp Hwf].
    rewrite fmap_cons in Hin. cbn [concat] in Hin. rewrite <- app_assoc in Hin.
    destruct (piece_writes L p Hp st _ (proj1 Hck) Hin) as (st1 & E1 & Hi1 & Ho1 & Hs1).
    pose proof (checked_chunk L lut_range st Hck) as Hck1. rewrite E1 in Hck1.
    destruct (IH st1 tail Hwf Hck1 Hi1) as (st2 & Hck2 & Hi2 & Ho2 & Hrun).
    exists st2. split; [exact Hck2|]. split; [exact Hi2|]. split.
    + rewrite Ho2, Ho1, !fmap_cons. cbn [concat]. now rewrite app_assoc.
    + intros k. cbn [length Nat.add chunks]. unfold bind at 1. rewrite E1. apply Hrun.
Qed.

(** The end-of-records indicator ends the loop. *)
Lemma chunks_indicator (st : state) (first : Z) (more rest : list Z) (k : nat) :
  inp st = first :: more ++ rest -> chain first more = true -> (length more <= 9)%nat ->
  uint64 (rawCount first more) = 0xFFFFFFFF ->
  chunks L (S k) st = Ok tt (set_inp rest st).
Proof.
  intros Hin Hc Hm Hn. cbn [chunks]. unfold bind at 1.
  rewrite (chunk_header L st first more rest Hin Hc Hm), Hn.
  reflexivity.
Qed.

End Stream.

(** X11: every well-formed stream is decoded.  For a stream made of
    the magic, well-formed chunks (literal chunks and sector chunks),
    the end-of-records indicator and the checksum of the expected
    output, [unecmify] returns 0, has written the payload of the
    literal chunks and the rebuilt sectors in order, and leaves unread
    whatever follows the checksum. *)
Theorem unecmify_decodes_well_formed
    (pieces : list piece) (first : Z) (more junk : list Z) :
  Forall well_formed pieces ->
  chain first more = true -> (length more <= 9)%nat ->
  uint64 (rawCount first more) = 0xFFFFFFFF ->
  exists st',
    unecmify tables
      (magic ++ concat (piece_bytes <$> pieces) ++ (first :: more)
       ++ le32 (accumulate (edc_lut tables) 0 (concat (piece_output tables <$> pieces)))
       ++ junk)
    = Ok tt st'
    /\ out st' = concat (piece_output tables <$> pieces) /\ inp st' = junk.
Proof.
  intros Hwf Hc Hm Hn.
  remember (le32 (accumulate (edc_lut tables) 0
                    (concat (piece_output tables <$> pieces)))) as t eqn:Et.
  remember (concat (piece_bytes <$> pieces) ++ (first :: more) ++ t ++ junk) as body
    eqn:Eb.
  rewrite unecmify_split. unfold bind at 1.
  rewrite (header_magic (initial (magic ++ body)) body eq_refl).
  remember (set_inp body (initial (magic ++ body))) as st0 eqn:E0.
  assert (Hck0 : checked tables st0) by (subst st0; split; reflexivity).
  assert (Hin0 : inp st0 = concat (piece_bytes <$> pieces) ++ (first :: more) ++ t ++ junk)
    by (subst st0 body; reflexivity).
  destruct (chunks_pieces tables edc_lut_range pieces st0 _ Hwf Hck0 Hin0)
    as (st1 & [Hs1 Hc1] & Hi1 & Ho1 & Hrun).
  unfold fueled.
  pose proof (length_pieces pieces) as Hlen.
  replace (S (length (inp st0)))
    with (length pieces + S (length (inp st0) - length pieces))%nat
    by (rewrite Hin0, length_app; lia).
  rewrite Hrun.
  rewrite (chunks_indicator tables st1 first more (t ++ junk) _ Hi1 Hc Hm Hn).
  destruct (trailer_spec (set_inp (t ++ junk) st1) t junk) as [Hok _];
    [reflexivity|subst t; reflexivity|cbn [sector set_inp]; lia|].
  eexists. split.
  - apply Hok. cbn [checkedc set_inp]. rewrite Hc1, Ho1, Et.
    subst st0. reflexivity.
  - cbn [out inp set_inp]. split; [|reflexivity]. rewrite Ho1. subst st0. reflexivity.
Qed.

Lemma unecmify_decodes_well_formed_witness :
  Forall well_formed sample_pieces
  /\ chain 0xFC [0xFF; 0xFF; 0xFF; 0x3F] = true
  /\ (length [0xFF; 0xFF; 0xFF; 0x3F] <= 9)%nat
  /\ uint64 (rawCount 0xFC [0xFF; 0xFF; 0xFF; 0x3F]) = 0xFFFFFFFF
  /\ exists st',
       unecmify tables
         (magic ++ concat (piece_bytes <$> sample_pieces)
          ++ (0xFC :: [0xFF; 0xFF; 0xFF; 0x3F])
          ++ le32 (accumulate (edc_lut tables) 0
                     (concat (piece_output tables <$> sample_pieces)))
          ++ [9; 9])
       = Ok tt st'
       /\ out st' = concat (piece_output tables <$> sample_pieces) /\ inp st' = [9; 9].
Proof.
  assert (Ht : Z.land 0x01 3 <> 0) by (vm_compute; discriminate).
  assert (Hr : Forall (fun r => length r = sector_need (Z.land 0x01 3))
                 [sample_address ++ sample_data])
    by (constructor; [reflexivity|constructor]).
  assert (H1 : well_formed (Literal 0x04 [] [0x41; 0x42])).
  { split; [reflexivity|]. split; [simpl; lia|]. split; [reflexivity|].
    split; [reflexivity|]. split; [simpl; lia|]. split; simpl; lia. }
  assert (H2 : well_formed (Sectors 0x01 [] [sample_address ++ sample_data])).
  { split; [reflexivity|]. split; [simpl; lia|]. split; [exact Ht|].
    split; [exact Hr|]. split; [reflexivity|]. split; [simpl; lia|].
    split; simpl; lia. }
  assert (Hwf : Forall well_formed sample_pieces)
    by (constructor; [exact H1|constructor; [exact H2|constructor]]).
  assert (Hc : chain 0xFC [0xFF; 0xFF; 0xFF; 0x3F] = true) by reflexivity.
  assert (Hm : (length [0xFF; 0xFF; 0xFF; 0x3F] <= 9)%nat) by (simpl; lia).
  assert (Hn : uint64 (rawCount 0xFC [0xFF; 0xFF; 0xFF; 0x3F]) = 0xFFFFFFFF) by reflexivity.
  split; [exact Hwf|]. split; [exact Hc|]. split; [exact Hm|]. split; [exact Hn|].
  exact (unecmify_decodes_well_formed sample_pieces 0xFC [0xFF; 0xFF; 0xFF; 0x3F] [9; 9]
           Hwf Hc Hm Hn).
Defined.

(** ** The parity bytes complete valid code words *)

(** The inner loop as two folds over the bytes it reads. *)
Lemma ecc_minor_loop_folds (L : luts) (src : list Z) (size minor_inc : Z) (n : nat) :
  forall index a b,
  exists index',
    ecc_minor_loop L src size minor_inc n index a b
    = (index',
       fold_left (fun a t => rd (ecc_f_lut L) (Z.lxor a t))
         (rd src <$> ecc_indices size minor_inc n index) a,
       fold_left Z.lxor (rd src <$> ecc_indices size minor_inc n index) b).
Proof.
  induction n as [|n IH]; intros index a b; cbn [ecc_minor_loop ecc_indices].
  - exists index. reflexivity.
  - cbv zeta. rewrite fmap_cons. cbn [fold_left]. apply IH.
Qed.

(** The accumulator of the loop is the polynomial value, multiplied once
    more. *)
Lemma horner_shift (L : luts) (w : list Z) : forall s,
  fold_left (fun a t => rd (ecc_f_lut L) (Z.lxor a t)) w (rd (ecc_f_lut L) s)
  = rd (ecc_f_lut L) (fold_left (fun s t => Z.lxor (rd (ecc_f_lut L) s) t) w s).
Proof.
  induction w as [|t w IH]; intros s; [reflexivity|]. cbn [fold_left]. apply IH.
Qed.

Lemma fold_lxor_byte (w : list Z) : forall b,
  Forall is_byte w -> is_byte b -> is_byte (fold_left Z.lxor w b).
Proof.
  induction w as [|t w IH]; intros b Hw Hb; [exact Hb|].
  apply Forall_cons in Hw as [Ht Hw]. cbn [fold_left].
  apply IH; [exact Hw|now apply is_byte_lxor].
Qed.

Lemma ecc_f_lut_bytes : Forall is_byte (ecc_f_lut tables).
Proof. apply (bool_decide_unpack _). vm_compute. reflexivity. Qed.

Lemma ecc_f_lut_0 : rd (ecc_f_lut tables) 0 = 0.
Proof. vm_compute. reflexivity. Qed.

(** The parity bytes for an accumulator [a] and a sum [b] extend the
    word to one whose polynomial value is 0: a check of the tables,
    entry by entry. *)
Lemma parity_bytes_poly (a b : Z) :
  is_byte a -> is_byte b ->
  let p0 := rd (ecc_b_lut tables) (Z.lxor (rd (ecc_f_lut tables) a) b) in
  Z.lxor (rd (ecc_f_lut tables) (Z.lxor a p0)) (Z.lxor p0 b) = 0.
Proof.
  intros Ha Hb.
  pose proof (below_256
    (fun a => forallb
       (fun b =>
          let p0 := rd (ecc_b_lut tables) (Z.lxor (rd (ecc_f_lut tables) a) b) in
          Z.lxor (rd (ecc_f_lut tables) (Z.lxor a p0)) (Z.lxor p0 b) =? 0)
       (Z.of_nat <$> seq 0 256))) as H.
  specialize (H ltac:(vm_compute; reflexivity) a Ha). cbv beta in H.
  pose proof (below_256 _ H b Hb) as H'. cbv beta zeta in H'.
  cbv zeta. now apply Z.eqb_eq.
Qed.

Lemma rd_drop (l : list Z) (n : nat) (i : Z) :
  0 <= i -> rd (drop n l) i = rd l (Z.of_nat n + i).
Proof.
  intros Hi. unfold rd. rewrite lookup_drop. do 2 f_equal. lia.
Qed.

Lemma rd_inserts_in (l k : list Z) (j : nat) (i : Z) :
  0 <= i < Z.of_nat (length k) -> (j + length k <= length l)%nat ->
  rd (list_inserts j k l) (Z.of_nat j + i) = rd k i.
Proof.
  intros Hi Hl. unfold rd. rewrite list_lookup_inserts by lia. do 2 f_equal. lia.
Qed.

Lemma rd_inserts_out (l k : list Z) (j : nat) (i : Z) :
  0 <= i -> i < Z.of_nat j \/ Z.of_nat (j + length k) <= i ->
  rd (list_inserts j k l) i = rd l i.
Proof.
  intros Hi [H|H]; unfold rd.
  - now rewrite list_lookup_inserts_lt by lia.
  - now rewrite list_lookup_inserts_ge by lia.
Qed.

Lemma computeParity_lookup (f g buf : list Z) (mc nc mult inc major : Z) :
  0 <= major < mc ->
  rd (computeParity f g buf mc nc mult inc) major
    = (parityPair f g buf mc nc mult inc major).1
  /\ rd (computeParity f g buf mc nc mult inc) (mc + major)
     = (parityPair f g buf mc nc mult inc major).2.
Proof.
  intros Hm. unfold computeParity, rd. cbv zeta.
  assert (Hseq : (Z.of_nat <$> seq 0 (Z.to_nat mc)) !! Z.to_nat major = Some major).
  { rewrite list_lookup_fmap.
    rewrite (proj2 (lookup_seq 0 (Z.to_nat mc) (Z.to_nat major) (Z.to_nat major)))
      by (split; lia).
    cbn. f_equal. lia. }
  split.
  - rewrite lookup_app_l by (rewrite !length_fmap, length_seq; lia).
    now rewrite list_lookup_fmap, Hseq.
  - rewrite lookup_app_r by (rewrite !length_fmap, length_seq; lia).
    rewrite !length_fmap, length_seq.
    replace (Z.to_nat (mc + major) - Z.to_nat mc)%nat with (Z.to_nat major) by lia.
    now rewrite list_lookup_fmap, Hseq.
Qed.

Section Codeword.
Variable L : luts.
Hypothesis f_lut_0 : rd (ecc_f_lut L) 0 = 0.
Hypothesis f_lut_bytes : Forall is_byte (ecc_f_lut L).
Hypothesis parity_poly : forall a b, is_byte a -> is_byte b ->
  Z.lxor (rd (ecc_f_lut L)
            (Z.lxor a (rd (ecc_b_lut L) (Z.lxor (rd (ecc_f_lut L) a) b))))
    (Z.lxor (rd (ecc_b_lut L) (Z.lxor (rd (ecc_f_lut L) a) b)) b) = 0.
Variables major_count minor_count major_mult minor_inc : Z.
Hypothesis size_pos : 0 < major_count * minor_count.
Hypothesis size_u32 : 2 * (major_count * minor_count) <= 2 ^ 32.
Hypothesis inc_range : 0 <= minor_inc <= major_count * minor_count.
Hypothesis mult_pos : 0 <= major_mult.
Hypothesis start_range : forall major, 0 <= major < major_count ->
  0 <= major / 2 * major_mult + major mod 2 < major_count * minor_count.

(** A code word lies in the first [major_count * minor_count] bytes. *)
Lemma ecc_codeword_ext (src src' : list Z) (major : Z) :
  (forall k, 0 <= k < major_count * minor_count -> rd src k = rd src' k) ->
  0 <= major < major_count ->
  ecc_codeword src major_count minor_count major_mult minor_inc major
  = ecc_codeword src' major_count minor_count major_mult minor_inc major.
Proof.
  intros H Hm. unfold ecc_codeword. rewrite wrap32_small by lia.
  destruct (ecc_start_index_small major_count minor_count major_mult
              size_u32 mult_pos start_range major Hm) as [_ Hr].
  pose proof (ecc_indices_range major_count minor_count minor_inc size_pos size_u32
                inc_range (Z.to_nat minor_count) _ Hr) as Hall.
  apply Forall_fmap_ext_1. eapply Forall_impl; [exact Hall|].
  intros k Hk. now apply H.
Qed.

Lemma ecc_codeword_bytes (src : list Z) (major : Z) :
  Forall is_byte src ->
  Forall is_byte (ecc_codeword src major_count minor_count major_mult minor_inc major).
Proof.
  intros H. unfold ecc_codeword. apply Forall_fmap, Forall_forall.
  intros k _. now apply is_byte_rd.
Qed.

(** The two bytes computed for a code word make both its checks 0. *)
Lemma parityPair_syndromes (buf : list Z) (major : Z) :
  Forall is_byte buf -> 0 <= major < major_count ->
  let w := ecc_codeword buf major_count minor_count major_mult minor_inc major in
  let pair := parityPair (ecc_f_lut L) (ecc_b_lut L) buf
                major_count minor_count major_mult minor_inc major in
  syndrome_sum (w ++ [pair.1; pair.2]) = 0
  /\ syndrome_poly L (w ++ [pair.1; pair.2]) = 0.
Proof.
  intros Hbuf Hm w pair.
  pose proof (ecc_codeword_bytes buf major Hbuf) as Hw. fold w in Hw.
  subst pair. unfold parityPair.
  destruct (ecc_start_index_small major_count minor_count major_mult
              size_u32 mult_pos start_range major Hm) as [Hs Hr].
  rewrite <- Hs.
  destruct (ecc_minor_loop_walk L major_count minor_count minor_inc size_pos
              size_u32 inc_range buf (Z.to_nat minor_count)
              (ecc_start_index major_mult major) 0 0 Hr) as (i1 & E1 & _).
  destruct (ecc_minor_loop_folds L buf (major_count * minor_count) minor_inc
              (Z.to_nat minor_count) (ecc_start_index major_mult major) 0 0)
    as (i2 & E2).
  rewrite E1 in E2. clear E1.
  assert (Ew : rd buf <$> ecc_indices (major_count * minor_count) minor_inc
                 (Z.to_nat minor_count) (ecc_start_index major_mult major) = w)
    by (unfold w, ecc_codeword; now rewrite wrap32_small by lia).
  rewrite Ew in E2.
  destruct (parityWalk _ _ _ _ _ _ _ _) as [a b]. cbn [fst snd] in E2.
  injection E2 as _ Ha Hb. cbv zeta. cbn [fst snd].
  assert (Hbb : is_byte b).
  { rewrite Hb. apply fold_lxor_byte; [exact Hw|]. unfold is_byte. lia. }
  assert (Haa : a = rd (ecc_f_lut L) (syndrome_poly L w)).
  { rewrite Ha. pose proof (horner_shift L w 0) as Hh.
    rewrite f_lut_0 in Hh. exact Hh. }
  assert (Hab : is_byte a) by (rewrite Haa; now apply is_byte_rd).
  split.
  - unfold syndrome_sum. rewrite fold_left_app. cbn [fold_left]. rewrite <- Hb.
    remember (rd (ecc_b_lut L) (Z.lxor (rd (ecc_f_lut L) a) b)) as p0 eqn:Ep.
    rewrite (Z.lxor_comm p0 b), Z.lxor_nilpotent. reflexivity.
  - unfold syndrome_poly. rewrite fold_left_app. cbn [fold_left].
    fold (syndrome_poly L w). rewrite <- Haa.
    apply (parity_poly a b Hab Hbb).
Qed.

End Codeword.

Section Sector.
Variable L : luts.
Hypothesis f_lut_0 : rd (ecc_f_lut L) 0 = 0.
Hypothesis f_lut_bytes : Forall is_byte (ecc_f_lut L).
Hypothesis b_lut_bytes : Forall is_byte (ecc_b_lut L).
Hypothesis parity_poly : forall a b, is_byte a -> is_byte b ->
  Z.lxor (rd (ecc_f_lut L)
            (Z.lxor a (rd (ecc_b_lut L) (Z.lxor (rd (ecc_f_lut L) a) b))))
    (Z.lxor (rd (ecc_b_lut L) (Z.lxor (rd (ecc_f_lut L) a) b)) b) = 0.

(** The code words of a sector whose parity was generated in place. *)
Lemma ecc_generate_0_codewords (s : list Z) :
  length s = 2352%nat -> Forall is_byte s ->
  let s' := ecc_generate L s 0 in
  (forall major, 0 <= major < 86 ->
     let w := ecc_codeword (drop 0xC s') 86 24 2 86 major
              ++ [rd s' (0x81C + major); rd s' (0x81C + 86 + major)] in
     syndrome_sum w = 0 /\ syndrome_poly L w = 0)
  /\ (forall major, 0 <= major < 52 ->
        let w := ecc_codeword (drop 0xC s') 52 43 86 88 major
                 ++ [rd s' (0x8C8 + major); rd s' (0x8C8 + 52 + major)] in
        syndrome_sum w = 0 /\ syndrome_poly L w = 0).
Proof.
  intros Hlen Hs s'. subst s'. rewrite ecc_generate_0.
  remember (computeParity (ecc_f_lut L) (ecc_b_lut L) (drop 0xC s) 86 24 2 86) as P eqn:EP.
  assert (HP : length P = 172%nat) by (subst P; rewrite length_computeParity; lia).
  remember (list_inserts 0x81C P s) as s1 eqn:E1.
  assert (Hlen1 : length s1 = 2352%nat) by (subst s1; now rewrite length_inserts).
  assert (Hs1 : Forall is_byte s1).
  { subst s1. apply Forall_list_inserts; [|exact Hs].
    subst P. apply is_byte_computeParity; [exact b_lut_bytes|now apply Forall_drop]. }
  remember (computeParity (ecc_f_lut L) (ecc_b_lut L) (drop 0xC s1) 52 43 86 88) as Q eqn:EQ.
  assert (HQ : length Q = 104%nat) by (subst Q; rewrite length_computeParity; lia).
  remember (list_inserts 0x8C8 Q s1) as s2 eqn:E2.
  split.
  - intros major Hm. cbv zeta.
    assert (Hw : ecc_codeword (drop 0xC s2) 86 24 2 86 major
                 = ecc_codeword (drop 0xC s) 86 24 2 86 major).
    { apply ecc_codeword_ext; try lia; [apply P_start_range|].
      intros k Hk. rewrite !rd_drop by lia. subst s2 s1.
      rewrite !rd_inserts_out by lia. reflexivity. }
    assert (H0 : rd s2 (0x81C + major) = rd P major).
    { subst s2. rewrite rd_inserts_out by lia. subst s1.
      apply (rd_inserts_in s P 0x81C major); lia. }
    assert (H1 : rd s2 (0x81C + 86 + major) = rd P (86 + major)).
    { subst s2. rewrite rd_inserts_out by lia. subst s1.
      replace (0x81C + 86 + major) with (Z.of_nat 0x81C + (86 + major)) by lia.
      apply (rd_inserts_in s P 0x81C (86 + major)); lia. }
    rewrite Hw, H0, H1. subst P.
    destruct (computeParity_lookup (ecc_f_lut L) (ecc_b_lut L) (drop 0xC s)
                86 24 2 86 major Hm) as [-> ->].
    apply (parityPair_syndromes L f_lut_0 f_lut_bytes parity_poly 86 24 2 86);
      try lia; [apply P_start_range|now apply Forall_drop].
  - intros major Hm. cbv zeta.
    assert (Hw : ecc_codeword (drop 0xC s2) 52 43 86 88 major
                 = ecc_codeword (drop 0xC s1) 52 43 86 88 major).
    { apply ecc_codeword_ext; try lia; [apply Q_start_range|].
      intros k Hk. rewrite !rd_drop by lia. subst s2.
      rewrite !rd_inserts_out by lia. reflexivity. }
    assert (H0 : rd s2 (0x8C8 + major) = rd Q major).
    { subst s2. apply (rd_inserts_in s1 Q 0x8C8 major); lia. }
    assert (H1 : rd s2 (0x8C8 + 52 + major) = rd Q (52 + major)).
    { subst s2.
      replace (0x8C8 + 52 + major) with (Z.of_nat 0x8C8 + (52 + major)) by lia.
      apply (rd_inserts_in s1 Q 0x8C8 (52 + major)); lia. }
    rewrite Hw, H0, H1. subst Q.
    destruct (computeParity_lookup (ecc_f_lut L) (ecc_b_lut L) (drop 0xC s1)
                52 43 86 88 major Hm) as [-> ->].
    apply (parityPair_syndromes L f_lut_0 f_lut_bytes parity_poly 52 43 86 88);
      try lia; [apply Q_start_range|now apply Forall_drop].
Qed.

End Sector.

(** With zeros in place of the address, the sector that [ecc_generate]
    completes is the one it completes from the zeroed sector. *)
Lemma ecc_generate_zeroed (L : luts) (s : list Z) (zeroaddress : Z) :
  length s = 2352%nat -> zeroaddress <> 0 ->
  list_inserts 0xC (replicate 4 0) (ecc_generate L s zeroaddress)
  = ecc_generate L (list_inserts 0xC (replicate 4 0) s) 0.
Proof.
  intros Hlen Hz. rewrite ecc_generate_1 by exact Hz.
  remember (list_inserts 12 (replicate 4 0) s) as s0 eqn:E0.
  assert (Hlen0 : length s0 = 2352%nat) by (subst s0; now rewrite length_inserts).
  pose proof (ecc_generate_address L s0 0 ltac:(lia)) as Ha.
  assert (Hz0 : take 4 (drop 12 s0) = replicate 4 0).
  { subst s0. apply (slice_inserts_same s (replicate 4 0) 12).
    rewrite length_replicate. lia. }
  rewrite Hz0 in Ha.
  remember (ecc_generate L s0 0) as X eqn:EX.
  assert (HX : length X = 2352%nat) by (subst X; now rewrite length_ecc_generate).
  apply list_eq. intros i.
  destruct (decide (12 <= i < 16)%nat) as [Hi|Hi].
  - rewrite list_lookup_inserts
      by (rewrite ?length_replicate, ?length_inserts; cbn [length]; lia).
    apply (f_equal (fun l => l !! (i - 12)%nat)) in Ha.
    rewrite lookup_take_lt, lookup_drop in Ha by lia.
    replace (12 + (i - 12))%nat with i in Ha by lia. now rewrite Ha.
  - destruct (decide (i < 12)%nat).
    + now rewrite !list_lookup_inserts_lt by lia.
    + now rewrite !list_lookup_inserts_ge
        by (rewrite ?length_replicate; cbn [length]; lia).
Qed.

(** X12: the parity bytes that [ecc_generate] writes complete valid
    code words.  In the sector it returns (taken with zeros in place of
    its address bytes when [zeroaddress] is set), each of the 86 P code
    words and each of the 52 Q code words, the bytes the engine read
    followed by the two parity bytes it stored, has both checks 0: the
    sum of its bytes and its value as a polynomial at the generating
    element of the field of 256 elements. *)
Theorem ecc_generate_codewords (s : list Z) (zeroaddress : Z) :
  length s = 2352%nat -> Forall is_byte s ->
  let s' := ecc_generate tables s zeroaddress in
  let view := if zeroaddress =? 0 then s' else list_inserts 0xC (replicate 4 0) s' in
  (forall major, 0 <= major < 86 ->
     let w := ecc_codeword (drop 0xC view) 86 24 2 86 major
              ++ [rd view (0x81C + major); rd view (0x81C + 86 + major)] in
     syndrome_sum w = 0 /\ syndrome_poly tables w = 0)
  /\ (forall major, 0 <= major < 52 ->
        let w := ecc_codeword (drop 0xC view) 52 43 86 88 major
                 ++ [rd view (0x8C8 + major); rd view (0x8C8 + 52 + major)] in
        syndrome_sum w = 0 /\ syndrome_poly tables w = 0).
Proof.
  intros Hlen Hs s' view.
  assert (Hpoly : forall a b, is_byte a -> is_byte b ->
            Z.lxor (rd (ecc_f_lut tables)
                      (Z.lxor a (rd (ecc_b_lut tables)
                                   (Z.lxor (rd (ecc_f_lut tables) a) b))))
              (Z.lxor (rd (ecc_b_lut tables) (Z.lxor (rd (ecc_f_lut tables) a) b)) b)
            = 0)
    by (intros a b Ha Hb; apply (parity_bytes_poly a b Ha Hb)).
  assert (Hview : exists s0, length s0 = 2352%nat /\ Forall is_byte s0
                             /\ view = ecc_generate tables s0 0).
  { subst view s'. destruct (zeroaddress =? 0) eqn:Ez.
    - apply Z.eqb_eq in Ez. subst zeroaddress. exists s. now repeat split.
    - apply Z.eqb_neq in Ez. exists (list_inserts 0xC (replicate 4 0) s).
      split; [now rewrite length_inserts|]. split.
      + apply Forall_list_inserts; [|exact Hs].
        apply Forall_replicate. unfold is_byte. lia.
      + now apply ecc_generate_zeroed. }
  destruct Hview as (s0 & Hlen0 & Hs0 & ->).
  apply (ecc_generate_0_codewords tables ecc_f_lut_0 ecc_f_lut_bytes ecc_b_lut_bytes
           Hpoly s0 Hlen0 Hs0).
Qed.

Lemma ecc_generate_codewords_witness :
  length (replicate 2352 7) = 2352%nat /\ Forall is_byte (replicate 2352 7)
  /\ (let s' := ecc_generate tables (replicate 2352 7) 1 in
      let view := if 1 =? 0 then s' else list_inserts 0xC (replicate 4 0) s' in
      (forall major, 0 <= major < 86 ->
         let w := ecc_codeword (drop 0xC view) 86 24 2 86 major
                  ++ [rd view (0x81C + major); rd view (0x81C + 86 + major)] in
         syndrome_sum w = 0 /\ syndrome_poly tables w = 0)
      /\ (forall major, 0 <= major < 52 ->
            let w := ecc_codeword (drop 0xC view) 52 43 86 88 major
                     ++ [rd view (0x8C8 + major); rd view (0x8C8 + 52 + major)] in
            syndrome_sum w = 0 /\ syndrome_poly tables w = 0)).
Proof.
  assert (H1 : length (replicate 2352 7) = 2352%nat) by reflexivity.
  assert (H2 : Forall is_byte (replicate 2352 7))
    by (apply (bool_decide_unpack _); vm_compute; reflexivity).
  split; [exact H1|]. split; [exact H2|].
  exact (ecc_generate_codewords (replicate 2352 7) 1 H1 H2).
Defined.

(** ** Every run ends, and reading goes forward *)

Lemma reads_from_decoder (L : luts) (input : list Z) :
  keeps (reads_from input) (header ;; fueled (chunks L) ;; trailer).
Proof.
  apply keeps_decoder.
  - intros st (c & Hc). unfold fgetc.
    destruct (inp st) as [|b rest] eqn:E; [exists c; now rewrite E|].
    exists (c ++ [b]). cbn [inp set_inp]. now rewrite <- app_assoc.
  - intros off n st (c & Hc). unfold fread.
    exists (c ++ take n (inp st)). cbn [inp].
    now rewrite <- app_assoc, take_drop.
  - intros b num bits st (c & Hc). unfold read_count.
    destruct (count_loop b num bits (inp st)) as [[n rest]|] eqn:E.
    + destruct (count_loop_front _ _ _ _ _ _ E) as (consumed & Hin & _).
      exists (c ++ consumed). cbn [inp set_inp]. now rewrite <- app_assoc, <- Hin.
    + exists input. cbn [inp set_inp]. now rewrite app_nil_r.
  - intros off v n _ st H. exact H.
  - intros i v _ st H. exact H.
  - intros i j st H. exact H.
  - intros type st H. exact H.
  - intros off n _ st H. exact H.
Qed.

(** X13: [unecmify] returns on every input: each turn of each of its
    loops reads at least one byte, or is the last one.  When it
    returns, with 0 or with 1, what it has left unread is an end of the
    input. *)
Theorem unecmify_returns (L : luts) (input : list Z) :
  exists st',
    final (unecmify L input) = Some st'
    /\ exists consumed, input = consumed ++ inp st'.
Proof.
  pose proof (unecmify_total L input) as Htot.
  pose proof (reads_from_decoder L input (initial input)) as H.
  unfold unecmify in *.
  destruct ((header;; fueled (chunks L);; trailer) (initial input))
    as [a st'|e st'|]; [| |now destruct Htot];
    (exists st'; split; [reflexivity|]); apply H; now exists [].
Qed.

(** ** The size message *)

Lemma sint_small (bits x : Z) :
  0 < bits -> - 2 ^ (bits - 1) <= x < 2 ^ (bits - 1) -> sint bits x = x.
Proof.
  intros Hb Hx. unfold sint.
  assert (E : 2 ^ bits = 2 * 2 ^ (bits - 1)).
  { replace bits with (Z.succ (bits - 1)) at 1 by lia. apply Z.pow_succ_r. lia. }
  rewrite Z.mod_small by lia. lia.
Qed.

Lemma GetByteSize_loop_spec (limit size : Z) (turns : nat) : forall k,
  0 <= k -> k + Z.of_nat turns = limit ->
  exists k',
    GetByteSize_loop turns limit size (10 * k) k = (10 * k', k')
    /\ k <= k' <= limit
    /\ (k' < limit -> Z.shiftr size (10 * k') < 1024)
    /\ forall i, k <= i < k' -> 1024 <= Z.shiftr size (10 * i).
Proof.
  induction turns as [|turns IH]; intros k Hk Hl; cbn [GetByteSize_loop].
  - exists k. replace (k <? limit) with false by (symmetry; apply Z.ltb_ge; lia).
    rewrite andb_false_r. repeat split; lia.
  - destruct ((Z.shiftr size (10 * k) >=? 1024) && (k <? limit)) eqn:E.
    + apply andb_true_iff in E as [E1 E2].
      rewrite Z.geb_leb in E1. apply Z.leb_le in E1.
      destruct (IH (k + 1) ltac:(lia) ltac:(lia)) as (k' & Ek & Hr & Hs & Ha).
      exists k'. replace (10 * k + 10) with (10 * (k + 1)) by lia.
      split; [exact Ek|]. split; [lia|]. split; [exact Hs|].
      intros i Hi. destruct (decide (i = k)) as [->|]; [exact E1|]. apply Ha. lia.
    + exists k. split; [reflexivity|]. split; [lia|]. split; [|intros; lia].
      intros Hlim. apply andb_false_iff in E as [E|E].
      * rewrite Z.geb_leb in E. apply Z.leb_gt in E. exact E.
      * apply Z.ltb_ge in E. lia.
Qed.

Lemma shiftr_10 (size k : Z) : 0 <= k -> Z.shiftr size (10 * k) = size / 1024 ^ k.
Proof.
  intros Hk. rewrite Z.shiftr_div_pow2 by lia.
  now rewrite Z.pow_mul_r by lia.
Qed.

(** X14: the size message for a size below [2 ^ 60].  [GetByteSize]
    picks the unit number [k] of "byte", "KiB", ... "PiB" for which the
    size in that unit is below 1024 (and at least 1, but for "byte"),
    and writes that whole number, a point, the hundredths of the rest
    rounded down (one digit when they are below 10), a space and the
    unit. *)
Theorem GetByteSize_text (pointer_size size : Z) :
  1 <= pointer_size -> 0 <= size < 2 ^ 60 ->
  exists (k : nat) (name : string),
    postfix !! k = Some name
    /\ GetByteSize pointer_size size
       = Some (pretty (size / 1024 ^ Z.of_nat k) +:+ "."
               +:+ pretty (size mod 1024 ^ Z.of_nat k * 100 / 1024 ^ Z.of_nat k)
               +:+ " " +:+ name)
    /\ 0 <= size / 1024 ^ Z.of_nat k < 1024
    /\ (k = 0%nat \/ 1 <= size / 1024 ^ Z.of_nat k)
    /\ 0 <= size mod 1024 ^ Z.of_nat k * 100 / 1024 ^ Z.of_nat k < 100.
Proof.
  intros Hp Hsize. unfold GetByteSize. cbv zeta.
  destruct (GetByteSize_loop_spec (6 * pointer_size) size (Z.to_nat (6 * pointer_size)) 0
              ltac:(lia) ltac:(lia)) as (k' & Ek & Hr & Hs & Ha).
  change (10 * 0) with 0 in Ek. rewrite Ek. clear Ek.
  assert (H50 : Z.shiftr size (10 * 5) < 1024).
  { rewrite shiftr_10 by lia. apply Z.div_lt_upper_bound; lia. }
  assert (Hk5 : k' <= 5).
  { destruct (decide (k' <= 5)) as [|Hn]; [assumption|].
    specialize (Ha 5 ltac:(lia)). lia. }
  specialize (Hs ltac:(lia)). rewrite shiftr_10 in Hs by lia.
  assert (Hpow : 0 < 1024 ^ k') by (apply Z.pow_pos_nonneg; lia).
  assert (Hpow60 : 1024 ^ k' <= 2 ^ 50).
  { change (2 ^ 50) with (1024 ^ 5). apply Z.pow_le_mono_r; lia. }
  assert (Hres : 0 <= size / 1024 ^ k') by (apply Z.div_pos; lia).
  pose proof (Z.div_mod size (1024 ^ k') ltac:(lia)) as Hdm.
  pose proof (Z.mod_pos_bound size (1024 ^ k') Hpow) as Hmod.
  rewrite shiftr_10 by lia.
  rewrite (sint_small 32 (size / 1024 ^ k')) by lia.
  rewrite Z.shiftl_mul_pow2 by lia.
  replace (2 ^ (10 * k')) with (1024 ^ k') by (now rewrite Z.pow_mul_r by lia).
  rewrite (sint_small 64 (size / 1024 ^ k' * 1024 ^ k')) by nia.
  replace (size - size / 1024 ^ k' * 1024 ^ k') with (size mod 1024 ^ k') by lia.
  rewrite (sint_small 64 (size mod 1024 ^ k')) by lia.
  rewrite (sint_small 64 (size mod 1024 ^ k' * 100)) by lia.
  rewrite shiftr_10 by lia.
  assert (Hdec : 0 <= size mod 1024 ^ k' * 100 / 1024 ^ k' < 100).
  { split; [apply Z.div_pos; lia|]. apply Z.div_lt_upper_bound; lia. }
  rewrite (sint_small 32 (size mod 1024 ^ k' * 100 / 1024 ^ k')) by lia.
  assert (Hunit : k' = 0 \/ 1 <= size / 1024 ^ k').
  { destruct (decide (k' = 0)) as [|Hn]; [now left|right].
    specialize (Ha (k' - 1) ltac:(lia)). rewrite shiftr_10 in Ha by lia.
    apply Z.div_le_lower_bound; [lia|].
    replace (1024 ^ k') with (1024 * 1024 ^ (k' - 1)).
    - assert (0 < 1024 ^ (k' - 1)) by (apply Z.pow_pos_nonneg; lia).
      pose proof (Z.div_mod size (1024 ^ (k' - 1)) ltac:(lia)).
      pose proof (Z.mod_pos_bound size (1024 ^ (k' - 1)) ltac:(lia)). nia.
    - rewrite <- Z.pow_succ_r by lia. f_equal. lia. }
  exists (Z.to_nat k'). rewrite Z2Nat.id by lia.
  assert (Hname : exists name, postfix !! Z.to_nat k' = Some name).
  { assert (Hc : k' = 0 \/ k' = 1 \/ k' = 2 \/ k' = 3 \/ k' = 4 \/ k' = 5) by lia.
    destruct Hc as [-> | [-> | [-> | [-> | [-> | ->]]]]]; eexists; reflexivity. }
  destruct Hname as (name & Hname). exists name. rewrite Hname.
  split; [reflexivity|]. split; [reflexivity|]. split; [lia|]. split; [|exact Hdec].
  destruct Hunit as [->|H1]; [now left|now right].
Qed.

Lemma GetByteSize_text_witness :
  1 <= 8 /\ 0 <= 1536 < 2 ^ 60
  /\ exists (k : nat) (name : string),
       postfix !! k = Some name
       /\ GetByteSize 8 1536
          = Some (pretty (1536 / 1024 ^ Z.of_nat k) +:+ "."
                  +:+ pretty (1536 mod 1024 ^ Z.of_nat k * 100 / 1024 ^ Z.of_nat k)
                  +:+ " " +:+ name)
       /\ 0 <= 1536 / 1024 ^ Z.of_nat k < 1024
       /\ (k = 0%nat \/ 1 <= 1536 / 1024 ^ Z.of_nat k)
       /\ 0 <= 1536 mod 1024 ^ Z.of_nat k * 100 / 1024 ^ Z.of_nat k < 100.
Proof.
  split; [lia|]. split; [lia|]. apply (GetByteSize_text 8 1536); lia.
Defined.

(** X15: the size message for a size of [2 ^ 60] or more.  The loop
    test compares the unit number with [sizeof(postfix)], the size of
    the table in bytes, not with its six entries: from [2 ^ 60] on the
    loop takes six turns and the entry number 6 of [postfix], past the
    end of the table, is read. *)
Theorem GetByteSize_past_table (pointer_size size : Z) :
  1 <= pointer_size -> 2 ^ 60 <= size < 2 ^ 63 ->
  GetByteSize_loop (Z.to_nat (6 * pointer_size)) (6 * pointer_size) size 0 0 = (60, 6)
  /\ postfix !! 6%nat = None
  /\ GetByteSize pointer_size size = None.
Proof.
  intros Hp Hsize.
  destruct (GetByteSize_loop_spec (6 * pointer_size) size (Z.to_nat (6 * pointer_size)) 0
              ltac:(lia) ltac:(lia)) as (k' & Ek & Hr & Hs & Ha).
  change (10 * 0) with 0 in Ek.
  assert (Hk : k' = 6).
  { destruct (decide (6 <= k')) as [Hge|Hlt].
    - destruct (decide (k' = 6)) as [|Hn]; [assumption|].
      specialize (Ha 6 ltac:(lia)). rewrite shiftr_10 in Ha by lia.
      assert (size / 1024 ^ 6 < 1024) by (apply Z.div_lt_upper_bound; lia). lia.
    - specialize (Hs ltac:(lia)). rewrite shiftr_10 in Hs by lia.
      assert (1024 ^ k' <= 1024 ^ 5) by (apply Z.pow_le_mono_r; lia).
      assert (0 < 1024 ^ k') by (apply Z.pow_pos_nonneg; lia).
      assert (1024 <= size / 1024 ^ k') by (apply Z.div_le_lower_bound; nia). lia. }
  subst k'. split; [exact Ek|]. split; [reflexivity|].
  unfold GetByteSize. cbv zeta. rewrite Ek. reflexivity.
Qed.

Lemma GetByteSize_past_table_witness :
  1 <= 8 /\ 2 ^ 60 <= 2 ^ 60 < 2 ^ 63
  /\ GetByteSize_loop (Z.to_nat (6 * 8)) (6 * 8) (2 ^ 60) 0 0 = (60, 6)
  /\ postfix !! 6%nat = None
  /\ GetByteSize 8 (2 ^ 60) = None.
Proof.
  split; [lia|]. split; [lia|]. apply (GetByteSize_past_table 8 (2 ^ 60)); lia.
Defined.

(** ** The progress message *)

(** X16: the progress message.  After [resetcounter(total)], a call
    [setcounter(n)] with [n] between 0 and [total] prints a percentage
    only when [n] is in another mebibyte than the position of the call
    before, and the percentage is between 0 and 100; the position is
    recorded in both cases. *)
Theorem setcounter_percentage (n total before : Z) :
  0 <= n <= total -> total < 2 ^ 63 - 64 ->
  let c := Counter before total in
  (setcounter n c).1 = Counter n total
  /\ ((setcounter n c).2 = None <-> Z.shiftr n 20 = Z.shiftr before 20)
  /\ forall p, (setcounter n c).2 = Some p -> 0 <= p <= 100.
Proof.
  intros Hn Ht c. unfold setcounter. cbn [mycounter mycounter_total c fst snd].
  split; [reflexivity|].
  destruct (Z.shiftr n 20 =? Z.shiftr before 20) eqn:E; cbn [negb].
  - apply Z.eqb_eq in E. split; [tauto|]. intros p Hp. discriminate Hp.
  - apply Z.eqb_neq in E. split; [split; [discriminate|tauto]|].
    intros p Hp. injection Hp as <-.
    rewrite (Z.quot_div_nonneg (n + 64) 128), (Z.quot_div_nonneg (total + 64) 128)
      by lia.
    assert (Ha : 0 <= (n + 64) / 128) by (apply Z.div_pos; lia).
    assert (Had : (n + 64) / 128 <= (total + 64) / 128)
      by (apply Z.div_le_mono; lia).
    destruct ((total + 64) / 128 =? 0) eqn:Ed.
    + apply Z.eqb_eq in Ed.
      rewrite Z.quot_div_nonneg by lia.
      replace ((n + 64) / 128) with 0 by lia.
      rewrite Z.mul_0_r, Z.div_0_l by lia. lia.
    + apply Z.eqb_neq in Ed.
      rewrite Z.quot_div_nonneg by lia.
      split; [apply Z.div_pos; lia|].
      apply Z.div_le_upper_bound; lia.
Qed.

Lemma setcounter_percentage_witness :
  0 <= 3000000 <= 4000000 /\ 4000000 < 2 ^ 63 - 64
  /\ (let c := Counter 100 4000000 in
      (setcounter 3000000 c).1 = Counter 3000000 4000000
      /\ ((setcounter 3000000 c).2 = None <-> Z.shiftr 3000000 20 = Z.shiftr 100 20)
      /\ forall p, (setcounter 3000000 c).2 = Some p -> 0 <= p <= 100).
Proof.
  split; [lia|]. split; [lia|]. apply (setcounter_percentage 3000000 4000000 100); lia.
Defined.

(** ** The command line *)

Lemma substring_all (s : string) : substring 0 (String.length s) s = s.
Proof.
  induction s as [|c s IH]; [reflexivity|].
  cbn [String.length substring]. now rewrite IH.
Qed.

Lemma substring_split (s : string) : forall n,
  (n <= String.length s)%nat ->
  substring 0 n s +:+ substring n (String.length s - n) s = s.
Proof.
  induction s as [|c s IH]; intros n Hn.
  - destruct n; [reflexivity|cbn in Hn; lia].
  - destruct n as [|n].
    + rewrite Nat.sub_0_r, substring_all. reflexivity.
    + change (String c (substring 0 n s +:+ substring n (String.length s - n) s)
              = String c s).
      f_equal. apply IH. cbn in Hn. lia.
Qed.

Lemma length_substring_0 (s : string) : forall n,
  (n <= String.length s)%nat -> String.length (substring 0 n s) = n.
Proof.
  induction s as [|c s IH]; intros n Hn.
  - destruct n; [reflexivity|cbn in Hn; lia].
  - destruct n as [|n]; [reflexivity|].
    cbn [substring String.length]. f_equal. apply IH. cbn in Hn. lia.
Qed.

(** X17: the command line with one argument.  [main] returns 0 exactly
    when the name has five characters or more, ends in ".ecm" in
    letters of either case, and both files can be opened: whether
    [unecmify] then reports a corrupt file or not makes no difference
    to the status.  The file it writes is named as the input without
    its last four characters, a name that is not empty and differs from
    the name of the input, and holds whatever [unecmify] wrote. *)
Theorem main_one_argument (prog infile : string)
    (read : string -> option (list Z)) (create : string -> bool) :
  let n := String.length infile in
  let r := main [prog; infile] read create in
  (r.1 = 0
   <-> (5 <= n)%nat
       /\ strcasecmp_eq (substring (n - 4) 4 infile) ".ecm" = true
       /\ exists input, read infile = Some input
                        /\ create (substring 0 (n - 4) infile) = true)
  /\ forall name content, r.2 = Some (name, content) ->
       infile = name +:+ substring (n - 4) 4 infile
       /\ name <> EmptyString /\ name <> infile
       /\ exists input, read infile = Some input
                        /\ content = written (unecmify tables input).
Proof.
  intros n r. subst r. unfold main, main_plan.
  cbn [length Nat.eqb negb andb lookup list_lookup]. fold n.
  destruct (n <? 5)%nat eqn:E5.
  { apply Nat.ltb_lt in E5. cbn [fst snd]. split.
    - split; [discriminate|]. intros (H & _). lia.
    - intros name content H. discriminate H. }
  apply Nat.ltb_ge in E5.
  destruct (strcasecmp_eq (substring (n - 4) 4 infile) ".ecm") eqn:Es; cbn [negb].
  2: { cbn [fst snd]. split.
       - split; [discriminate|]. intros (_ & H & _). discriminate H.
       - intros name content H. discriminate H. }
  destruct (read infile) as [input|] eqn:Er.
  2: { cbn [fst snd]. split.
       - split; [discriminate|]. intros (_ & _ & input & H & _). discriminate H.
       - intros name content H. discriminate H. }
  destruct (create (substring 0 (n - 4) infile)) eqn:Ec; cbn [fst snd].
  2: { split.
       - split; [discriminate|]. intros (_ & _ & input' & _ & H). discriminate H.
       - intros name content H. discriminate H. }
  split.
  - split; [|reflexivity]. intros _. split; [exact E5|]. split; [reflexivity|].
    exists input. now split.
  - intros name content H. injection H as <- <-.
    pose proof (substring_split infile (n - 4) ltac:(lia)) as Hsp.
    replace (String.length infile - (n - 4))%nat with 4%nat in Hsp by lia.
    pose proof (length_substring_0 infile (n - 4) ltac:(lia)) as Hl.
    split; [now symmetry|]. split; [|split].
    + intros E. rewrite E in Hl. cbn in Hl. lia.
    + intros E. rewrite E in Hl. fold n in Hl. lia.
    + exists input. split; reflexivity.
Qed.

(** ** More fuel changes nothing *)

Lemma refines_refl {A} (m : M A) : refines m m.
Proof. intros st. now right. Qed.

Lemma refines_bind {A B} (m : M A) (k1 k2 : A -> M B) :
  (forall a, refines (k1 a) (k2 a)) -> refines (bind m k1) (bind m k2).
Proof.
  intros Hk st. unfold bind. destruct (m st) as [a st1|e st1|]; [|now right|now left].
  apply Hk.
Qed.

Lemma refines_if {A} (b : bool) (m1 m2 k1 k2 : M A) :
  refines m1 k1 -> refines m2 k2 ->
  refines (if b then m1 else m2) (if b then k1 else k2).
Proof. now destruct b. Qed.

Lemma refines_out_of_fuel {A} (m : M A) : refines (fun _ => OutOfFuel) m.
Proof. intros st. now left. Qed.

Lemma literal_loop_S (L : luts) (fuel : nat) : forall num,
  refines (literal_loop L fuel num) (literal_loop L (S fuel) num).
Proof.
  induction fuel as [|fuel IH]; intros num.
  - cbn [literal_loop]. apply refines_if; [apply refines_refl|apply refines_out_of_fuel].
  - change (literal_loop L (S (S fuel)) num)
      with (if num =? 0 then ret tt
            else let b := if num >? 2352 then 2352 else wrap16 num in
                 k <- fread 0 (Z.to_nat b) ;;
                 if negb (Z.of_nat k =? b) then throw UnexpectedEndOfStream else
                 checksum L 0 b ;;
                 fwrite 0 (Z.to_nat b) ;;
                 literal_loop L (S fuel) (num - b)).
    cbn [literal_loop]. cbv zeta.
    apply refines_if; [apply refines_refl|].
    apply refines_bind. intros k. apply refines_if; [apply refines_refl|].
    apply refines_bind. intros _. apply refines_bind. intros _. apply IH.
Qed.

Lemma sector_loop_S (L : luts) (type : Z) (fuel : nat) : forall num,
  refines (sector_loop L type fuel num) (sector_loop L type (S fuel) num).
Proof.
  induction fuel as [|fuel IH]; intros num.
  - cbn [sector_loop]. apply refines_if; [apply refines_refl|apply refines_out_of_fuel].
  - change (sector_loop L type (S (S fuel)) num)
      with (if num =? 0 then ret tt
            else sector_rep L type ;; sector_loop L type (S fuel) (num - 1)).
    cbn [sector_loop].
    apply refines_if; [apply refines_refl|].
    apply refines_bind. intros _. apply IH.
Qed.

Lemma chunks_S (L : luts) (fuel : nat) :
  refines (chunks L fuel) (chunks L (S fuel)).
Proof.
  induction fuel as [|fuel IH].
  - apply refines_out_of_fuel.
  - change (chunks L (S (S fuel)))
      with (stop <- chunk L ;; if stop : bool then ret tt else chunks L (S fuel)).
    cbn [chunks]. apply refines_bind. intros stop.
    apply refines_if; [apply refines_refl|apply IH].
Qed.

(** Two amounts of fuel that are both enough give the same run. *)
Lemma refines_le {A} (loop : nat -> M A) :
  (forall fuel, refines (loop fuel) (loop (S fuel))) ->
  forall f f', (f <= f')%nat -> refines (loop f) (loop f').
Proof.
  intros HS f f' Hle. induction Hle as [|f' Hle IH]; [apply refines_refl|].
  intros st. destruct (IH st) as [H|H]; [now left|].
  rewrite H. apply HS.
Qed.

Lemma enough_fuel {A} (loop : nat -> M A) (f f' : nat) (st : state) :
  (forall fuel, refines (loop fuel) (loop (S fuel))) ->
  loop f st <> OutOfFuel -> loop f' st <> OutOfFuel ->
  loop f st = loop f' st.
Proof.
  intros HS Hf Hf'. destruct (Nat.le_ge_cases f f') as [Hle|Hle].
  - destruct (refines_le loop HS f f' Hle st) as [H|H]; [contradiction|exact H].
  - destruct (refines_le loop HS f' f Hle st) as [H|H]; [contradiction|now symmetry].
Qed.

(** ** Reading forward: more input and less input *)

Lemma set_inp_set_inp (i j : list Z) (st : state) :
  set_inp i (set_inp j st) = set_inp i st.
Proof. reflexivity. Qed.

Lemma forward_ret {A} (a : A) : forward (ret a).
Proof.
  intros st a' st' H. injection H as <- <-. exists []. split; [reflexivity|].
  split; [reflexivity|]. intros p q Hpq Hq. now destruct p, q.
Qed.

Lemma forward_throw {A} (e : failure) : forward (@throw A e).
Proof. intros st a st' H. discriminate H. Qed.

Lemma forward_if {A} (b : bool) (m1 m2 : M A) :
  forward m1 -> forward m2 -> forward (if b then m1 else m2).
Proof. now destruct b. Qed.

Lemma forward_bind {A B} (m : M A) (k : A -> M B) :
  forward m -> (forall a, forward (k a)) -> forward (bind m k).
Proof.
  intros Hm Hk st b st2 H. unfold bind in H.
  destruct (m st) as [a st1| |] eqn:E1; try discriminate H.
  destruct (Hm st a st1 E1) as (c1 & Hin1 & Hre1 & Htr1).
  destruct (Hk a st1 b st2 H) as (c2 & Hin2 & Hre2 & Htr2).
  exists (c1 ++ c2). split; [rewrite Hin1, Hin2; apply app_assoc|]. split.
  - intros unread. unfold bind. rewrite <- app_assoc, (Hre1 (c2 ++ unread)).
    rewrite <- (Hre2 unread). f_equal.
  - intros p q Hpq Hq. unfold bind.
    apply app_eq_inv in Hpq as [(k1 & Hc1 & Hq')|(k1 & Hp & Hc2)]; cycle 1.
    + subst p. rewrite (Hre1 k1).
      destruct (Htr2 k1 q Hc2 Hq) as (st'' & E). exists st''.
      rewrite <- E. f_equal.
    + destruct k1 as [|x k1].
      * rewrite app_nil_r in Hc1. subst p. cbn in Hq'. subst q.
        pose proof (Hre1 []) as E. rewrite app_nil_r in E. rewrite E.
        destruct (Htr2 [] c2 eq_refl Hq) as (st'' & E'). exists st''.
        rewrite <- E'. f_equal.
      * destruct (Htr1 p (x :: k1) Hc1 ltac:(discriminate)) as (st'' & E).
        exists st''. now rewrite E.
Qed.

(** Computations that leave the input alone. *)
Lemma forward_local {A} (m : M A) (a : A) (f : state -> list Z * Z * list Z) :
  (forall st, m st = Ok a (State (inp st) (f st).1.1 (f st).1.2 (f st).2)) ->
  (forall st i, f (set_inp i st) = f st) ->
  forward m.
Proof.
  intros Hm Hf st a' st' H. rewrite Hm in H. injection H as <- <-.
  exists []. split; [reflexivity|]. split.
  - intros unread. rewrite Hm, Hf. reflexivity.
  - intros p q Hpq Hq. now destruct p, q.
Qed.

Lemma forward_fwrite (off n : nat) : forward (fwrite off n).
Proof.
  apply (forward_local _ tt
           (fun st => (out st ++ take n (drop off (sector st)), checkedc st, sector st)));
    reflexivity.
Qed.

Lemma forward_checksum (L : luts) (off : nat) (size : Z) : forward (checksum L off size).
Proof.
  apply (forward_local _ tt
           (fun st => (out st,
                       edc_partial_computeblock L (checkedc st) (drop off (sector st)) size,
                       sector st)));
    reflexivity.
Qed.

Lemma forward_memset (off : nat) (v : Z) (n : nat) : forward (memset off v n).
Proof.
  apply (forward_local _ tt
           (fun st => (out st, checkedc st, list_inserts off (replicate n v) (sector st))));
    reflexivity.
Qed.

Lemma forward_poke (i : nat) (v : Z) : forward (poke i v).
Proof.
  apply (forward_local _ tt (fun st => (out st, checkedc st, <[i := v]> (sector st))));
    reflexivity.
Qed.

Lemma forward_copy (i j : nat) : forward (copy i j).
Proof.
  apply (forward_local _ tt
           (fun st => (out st, checkedc st,
                       <[i := rd (sector st) (Z.of_nat j)]> (sector st))));
    reflexivity.
Qed.

Lemma forward_generate (L : luts) (type : Z) : forward (generate L type).
Proof.
  apply (forward_local _ tt
           (fun st => (out st, checkedc st, eccedc_generate L (sector st) type)));
    reflexivity.
Qed.

(** A read of [n] bytes that is checked: what follows runs only when
    all [n] bytes were there. *)
Lemma forward_fread_checked {A} (off n : nat) (t : nat -> bool) (m : M A) :
  (forall k, t k = negb (k =? n)%nat) -> forward m ->
  forward (k <- fread off n ;; if t k then throw UnexpectedEndOfStream else m).
Proof.
  intros Ht Hm st a st' H. unfold bind, fread in H. rewrite Ht in H.
  destruct (length (take n (inp st)) =? n)%nat eqn:En; [|discriminate H].
  apply Nat.eqb_eq in En. cbn [negb] in H.
  destruct (Hm _ a st' H) as (c & Hin & Hre & Htr). cbn [inp] in Hin.
  exists (take n (inp st) ++ c). split.
  { rewrite <- app_assoc, <- Hin. symmetry. apply take_drop. }
  split.
  - intros unread. unfold bind, fread. cbn [inp set_inp out checkedc sector].
    rewrite <- app_assoc, take_app_length', drop_app_length' by (now rewrite En).
    rewrite Ht, En, Nat.eqb_refl. cbn [negb].
    rewrite <- (Hre unread). f_equal.
  - intros p q Hpq Hq. unfold bind, fread. cbn [inp set_inp out checkedc sector].
    rewrite Ht.
    apply app_eq_inv in Hpq as [(k1 & Hc1 & Hq')|(k1 & Hp & Hc2)]; cycle 1.
    + subst p. rewrite take_app_length', drop_app_length' by (now rewrite En).
      rewrite En, Nat.eqb_refl. cbn [negb].
      destruct (Htr k1 q Hc2 Hq) as (st'' & E). exists st''.
      rewrite <- E. f_equal.
    + destruct k1 as [|x k1].
      * rewrite app_nil_r in Hc1. subst p. cbn in Hq'. subst q.
        rewrite take_ge, drop_ge by lia.
        rewrite En, Nat.eqb_refl. cbn [negb].
        destruct (Htr [] c eq_refl Hq) as (st'' & E). exists st''.
        rewrite <- E. f_equal.
      * assert (Hlen : (length p < n)%nat).
        { rewrite <- En, Hc1, length_app. cbn [length]. lia. }
        rewrite take_ge by lia.
        replace (length p =? n)%nat with false by (symmetry; apply Nat.eqb_neq; lia).
        cbn [negb]. eexists. reflexivity.
Qed.

(** The byte that opens a chunk. *)
Lemma forward_fgetc_some {A} (k : Z -> M A) :
  (forall c, forward (k c)) ->
  forward (c <- fgetc ;;
           match c with
           | None => throw UnexpectedEndOfStream
           | Some c => k c
           end).
Proof.
  intros Hk st a st' H. unfold bind, fgetc in H.
  destruct (inp st) as [|b rest] eqn:Ein; [discriminate H|].
  destruct (Hk b _ a st' H) as (c & Hin & Hre & Htr). cbn [inp set_inp] in Hin.
  exists (b :: c). split; [now rewrite Hin|]. split.
  - intros unread. unfold bind, fgetc. cbn [inp set_inp app].
    rewrite <- (Hre unread). f_equal.
  - intros p q Hpq Hq. unfold bind, fgetc. cbn [inp set_inp].
    destruct p as [|x p].
    + eexists. reflexivity.
    + injection Hpq as <- Hc.
      destruct (Htr p q Hc Hq) as (st'' & E). exists st''.
      rewrite <- E. f_equal.
Qed.

Lemma count_loop_forward (input : list Z) : forall c num bits n rest,
  count_loop c num bits input = Some (n, rest) ->
  exists consumed,
    input = consumed ++ rest
    /\ (forall unread, count_loop c num bits (consumed ++ unread) = Some (n, unread))
    /\ (forall p q, consumed = p ++ q -> q <> [] -> count_loop c num bits p = None).
Proof.
  induction input as [|c' input IH]; intros c num bits n rest H;
    destruct (Z.land c 0x80 =? 0) eqn:E.
  - rewrite count_loop_stop in H by exact E. injection H as <- <-.
    exists []. split; [reflexivity|]. split.
    + intros unread. now apply count_loop_stop.
    + intros p q Hpq Hq. now destruct p, q.
  - simpl in H. rewrite E in H. discriminate H.
  - rewrite count_loop_stop in H by exact E. injection H as <- <-.
    exists []. split; [reflexivity|]. split.
    + intros unread. now apply count_loop_stop.
    + intros p q Hpq Hq. now destruct p, q.
  - rewrite count_loop_more in H by exact E.
    destruct (IH _ _ _ _ _ H) as (consumed & -> & Hre & Htr).
    exists (c' :: consumed). split; [reflexivity|]. split.
    + intros unread.
      change ((c' :: consumed) ++ unread) with (c' :: (consumed ++ unread)).
      rewrite count_loop_more by exact E. apply Hre.
    + intros p q Hpq Hq. destruct p as [|x p].
      * cbn [count_loop]. now rewrite E.
      * injection Hpq as <- Hc. rewrite count_loop_more by exact E.
        now apply (Htr p q).
Qed.

Lemma forward_read_count (c num bits : Z) : forward (read_count c num bits).
Proof.
  intros st n st' H. unfold read_count in H.
  destruct (count_loop c num bits (inp st)) as [[n' rest]|] eqn:E; [|discriminate H].
  injection H as <- <-.
  destruct (count_loop_forward _ _ _ _ _ _ E) as (consumed & Hin & Hre & Htr).
  exists consumed. split; [exact Hin|]. split.
  - intros unread. unfold read_count. cbn [inp set_inp]. now rewrite Hre.
  - intros p q Hpq Hq. unfold read_count. cbn [inp set_inp].
    rewrite (Htr p q Hpq Hq). eexists. reflexivity.
Qed.

(** A loop that is given fuel for the input at hand. *)
Lemma forward_fueled {A} (loop : nat -> M A) :
  (forall fuel, forward (loop fuel)) ->
  (forall fuel, refines (loop fuel) (loop (S fuel))) ->
  (forall fuel st, (length (inp st) < fuel)%nat -> loop fuel st <> OutOfFuel) ->
  forward (fueled loop).
Proof.
  intros Hloop HS Hfuel st a st' H. unfold fueled in H.
  destruct (Hloop _ st a st' H) as (c & Hin & Hre & Htr).
  exists c. split; [exact Hin|]. split.
  - intros unread. unfold fueled.
    rewrite <- (Hre unread). symmetry.
    apply (enough_fuel loop _ _ _ HS).
    + rewrite (Hre unread). discriminate.
    + apply Hfuel. lia.
  - intros p q Hpq Hq. unfold fueled.
    destruct (Htr p q Hpq Hq) as (st'' & E). exists st''.
    rewrite <- E. symmetry. apply (enough_fuel loop _ _ _ HS).
    + rewrite E. discriminate.
    + apply Hfuel. lia.
Qed.

Ltac forward_step :=
  lazymatch goal with
  | |- forward (literal_loop _ _ _) => solve [auto]
  | |- forward (sector_loop _ _ _ _) => solve [auto]
  | |- forward (chunks _ _) => solve [auto]
  | |- forward (chunk _) => solve [auto]
  | |- forward (sector_rep _ _) => solve [auto]
  | |- forward (ret _) => apply forward_ret
  | |- forward (throw _) => apply forward_throw
  | |- forward (fwrite _ _) => apply forward_fwrite
  | |- forward (checksum _ _ _) => apply forward_checksum
  | |- forward (memset _ _ _) => apply forward_memset
  | |- forward (poke _ _) => apply forward_poke
  | |- forward (copy _ _) => apply forward_copy
  | |- forward (generate _ _) => apply forward_generate
  | |- forward (read_count _ _ _) => apply forward_read_count
  | |- forward (bind (fread ?off ?n) _) =>
      apply (forward_fread_checked off n (fun k => negb (k =? n)%nat));
      [reflexivity|]
  | |- forward (bind _ _) => apply forward_bind
  | |- forward (if _ then _ else _) => apply forward_if
  | |- forall _, forward _ => intro
  | |- forward (fun _ => OutOfFuel) =>
      let H := fresh in intros ?st ?a ?st' H; discriminate H
  end.

Lemma forward_literal_loop (L : luts) (fuel : nat) : forall num,
  forward (literal_loop L fuel num).
Proof.
  induction fuel as [|fuel IH]; intros num; cbn [literal_loop].
  - repeat forward_step.
  - cbv zeta. apply forward_if; [apply forward_ret|].
    assert (Hb : 0 <= (if num >? 2352 then 2352 else wrap16 num)).
    { destruct (num >? 2352); [lia|]. unfold wrap16. apply Z.mod_pos_bound. lia. }
    apply (forward_fread_checked 0 _
             (fun k => negb (Z.of_nat k =? (if num >? 2352 then 2352 else wrap16 num)))).
    + intros k. f_equal.
      destruct (Nat.eqb_spec k (Z.to_nat (if num >? 2352 then 2352 else wrap16 num)))
        as [->|Hne].
      * rewrite Z2Nat.id by exact Hb. apply Z.eqb_refl.
      * apply Z.eqb_neq. lia.
    + repeat forward_step.
Qed.

Lemma forward_sector_rep (L : luts) (type : Z) : forward (sector_rep L type).
Proof. unfold sector_rep, mirror_subheader. repeat forward_step. Qed.

Lemma forward_sector_loop (L : luts) (type : Z) (fuel : nat) : forall num,
  forward (sector_loop L type fuel num).
Proof.
  pose proof (forward_sector_rep L type).
  induction fuel as [|fuel IH]; intros num; cbn [sector_loop]; repeat forward_step.
Qed.

Lemma forward_dispatch (L : luts) (type num : Z) :
  0 <= type <= 3 -> forward (dispatch L type num).
Proof.
  intros Ht. unfold dispatch. cbv zeta.
  apply forward_if; [apply forward_ret|].
  apply forward_if; [apply forward_throw|].
  assert (0 <= uint64 (num + 1)) by (unfold uint64; apply Z.mod_pos_bound; lia).
  apply forward_bind; [|intros _; apply forward_ret].
  destruct (type =? 0) eqn:E.
  - apply forward_fueled.
    + intros fuel. apply forward_literal_loop.
    + intros fuel. apply literal_loop_S.
    + intros fuel st Hf. now apply literal_loop_fuel.
  - apply Z.eqb_neq in E. apply forward_fueled.
    + intros fuel. apply forward_sector_loop.
    + intros fuel. apply sector_loop_S.
    + intros fuel st Hf. apply sector_loop_fuel; [lia|exact Hf].
Qed.

Lemma forward_chunk (L : luts) : forward (chunk L).
Proof.
  unfold chunk. apply forward_fgetc_some. intros c. cbv zeta.
  apply forward_bind; [apply forward_read_count|]. intros num.
  apply forward_dispatch, land3_range.
Qed.

Lemma forward_chunks (L : luts) (fuel : nat) : forward (chunks L fuel).
Proof.
  pose proof (forward_chunk L).
  induction fuel as [|fuel IH]; cbn [chunks]; repeat forward_step.
Qed.

Lemma forward_trailer : forward trailer.
Proof.
  unfold trailer.
  apply (forward_fread_checked 0 4 (fun k => negb (k =? 4)%nat)); [reflexivity|].
  intros st a st' H. cbv zeta in H.
  destruct (_ || _) eqn:E; [discriminate H|]. injection H as <- <-.
  exists []. split; [reflexivity|]. split.
  - intros unread. cbv zeta. cbn [sector checkedc set_inp app]. now rewrite E.
  - intros p q Hpq Hq. now destruct p, q.
Qed.

(** What follows the magic. *)
Lemma forward_body (L : luts) : forward (fueled (chunks L) ;; trailer).
Proof.
  apply forward_bind; [|intros _; apply forward_trailer].
  apply forward_fueled.
  - apply forward_chunks.
  - apply chunks_S.
  - intros fuel st Hf. now apply chunks_fuel.
Qed.

Lemma header_Ok (st st' : state) :
  header st = Ok tt st' -> inp st = magic ++ inp st' /\ st' = set_inp (inp st') st.
Proof.
  intros H.
  destruct (decide (take 4 (inp st) = magic)) as [Hm|Hm].
  - assert (Hin : inp st = magic ++ drop 4 (inp st))
      by (rewrite <- Hm; symmetry; apply take_drop).
    rewrite (header_magic st _ Hin) in H. injection H as <-.
    cbn [inp set_inp]. split; [exact Hin|reflexivity].
  - destruct (header_other st Hm) as (st1 & E & _). congruence.
Qed.

(** X18: what follows the checksum is not looked at.  When [unecmify]
    returns 0, it returns 0 and writes the same output on every input
    that starts with the bytes it has read, whatever follows them and
    however long it is. *)
Theorem unecmify_ignores_what_follows (L : luts) (input : list Z) (st' : state) :
  unecmify L input = Ok tt st' ->
  exists consumed,
    input = consumed ++ inp st'
    /\ forall unread,
         unecmify L (consumed ++ unread) = Ok tt (set_inp unread st')
         /\ out (set_inp unread st') = out st'.
Proof.
  intros H. unfold unecmify in H. unfold bind at 1 in H.
  destruct (header (initial input)) as [[] st0| |] eqn:Eh; try discriminate H.
  destruct (header_Ok _ _ Eh) as [Hin0 Hst0]. cbn [inp initial] in Hin0.
  destruct (forward_body L st0 tt st' H) as (c & Hin & Hre & _).
  assert (Hst : forall i x, set_inp i (initial x) = set_inp i st0)
    by (intros i x; rewrite Hst0; reflexivity).
  exists (magic ++ c). split; [now rewrite <- app_assoc, <- Hin|].
  intros unread. split; [|reflexivity].
  unfold unecmify. unfold bind at 1.
  rewrite (header_magic (initial ((magic ++ c) ++ unread)) (c ++ unread))
    by (cbn [inp initial]; now rewrite <- app_assoc).
  rewrite Hst. apply Hre.
Qed.

Lemma unecmify_ignores_what_follows_witness :
  unecmify tables sample_stream = Ok tt sample_accepted
  /\ exists consumed,
       sample_stream = consumed ++ inp sample_accepted
       /\ forall unread,
            unecmify tables (consumed ++ unread) = Ok tt (set_inp unread sample_accepted)
            /\ out (set_inp unread sample_accepted) = out sample_accepted.
Proof.
  assert (H : unecmify tables sample_stream = Ok tt sample_accepted)
    by (vm_compute; reflexivity).
  split; [exact H|].
  apply (unecmify_ignores_what_follows tables sample_stream sample_accepted H).
Defined.

(** X19: a stream that is cut short is rejected.  When [unecmify]
    returns 0, it returns 1 on every input that stops before the end of
    the bytes it has read: with "Header not found!" when fewer than four
    bytes are left, with "Unexpected EOF!" otherwise. *)
Theorem unecmify_cut_short (L : luts) (input : list Z) (st' : state) :
  unecmify L input = Ok tt st' ->
  exists consumed,
    input = consumed ++ inp st'
    /\ forall p q, consumed = p ++ q -> q <> [] ->
         exists st'',
           unecmify L p
           = Err (if (length p <? 4)%nat then HeaderMissing
                  else UnexpectedEndOfStream) st''.
Proof.
  intros H. unfold unecmify in H. unfold bind at 1 in H.
  destruct (header (initial input)) as [[] st0| |] eqn:Eh; try discriminate H.
  destruct (header_Ok _ _ Eh) as [Hin0 Hst0]. cbn [inp initial] in Hin0.
  destruct (forward_body L st0 tt st' H) as (c & Hin & _ & Htr).
  assert (Hst : forall i x, set_inp i (initial x) = set_inp i st0)
    by (intros i x; rewrite Hst0; reflexivity).
  exists (magic ++ c). split; [now rewrite <- app_assoc, <- Hin|].
  intros p q Hpq Hq.
  destruct (length p <? 4)%nat eqn:E4.
  - apply Nat.ltb_lt in E4.
    destruct (header_other (initial p)) as (st'' & E & _).
    { cbn [inp initial]. intros Hm. apply (f_equal length) in Hm.
      rewrite length_take in Hm. change (length magic) with 4%nat in Hm. lia. }
    exists st''. unfold unecmify. unfold bind at 1. now rewrite E.
  - apply Nat.ltb_ge in E4.
    apply app_eq_inv in Hpq as [(k & Hm & Hq')|(k & Hp & Hc)].
    + destruct k as [|x k].
      { rewrite app_nil_r in Hm. subst p. cbn in Hq'. subst q.
        destruct (Htr [] c eq_refl Hq) as (st'' & E). exists st''.
        unfold unecmify. unfold bind at 1.
        rewrite (header_magic (initial magic) []) by reflexivity.
        rewrite Hst. exact E. }
      apply (f_equal length) in Hm. rewrite length_app in Hm.
      cbn [length magic] in Hm. lia.
    + destruct (Htr k q Hc Hq) as (st'' & E). exists st''.
      unfold unecmify. unfold bind at 1.
      rewrite (header_magic (initial p) k) by (cbn [inp initial]; exact Hp).
      rewrite Hst. exact E.
Qed.

Lemma unecmify_cut_short_witness :
  unecmify tables sample_stream = Ok tt sample_accepted
  /\ exists consumed,
       sample_stream = consumed ++ inp sample_accepted
       /\ forall p q, consumed = p ++ q -> q <> [] ->
            exists st'',
              unecmify tables p
              = Err (if (length p <? 4)%nat then HeaderMissing
                     else UnexpectedEndOfStream) st''.
Proof.
  assert (H : unecmify tables sample_stream = Ok tt sample_accepted)
    by (vm_compute; reflexivity).
  split; [exact H|].
  apply (unecmify_cut_short tables sample_stream sample_accepted H).
Defined.

(** ** The bytes given to [eccedc_generate] *)

(** X20: [eccedc_generate] keeps the size of the sector and changes no
    byte before the checksum it stores (offset 0x810 for type 1, 0x818
    for type 2, 0x92C for type 3): sync pattern, address, mode,
    subheader and data come out as they went in.  For any other type it
    changes nothing. *)
Theorem eccedc_generate_keeps_data (L : luts) (s : list Z) (type : Z) :
  length s = 2352%nat ->
  length (eccedc_generate L s type) = 2352%nat
  /\ take (data_end type) (eccedc_generate L s type) = take (data_end type) s
  /\ (type <> 1 -> type <> 2 -> type <> 3 -> eccedc_generate L s type = s).
Proof.
  intros Hlen. split; [now rewrite length_eccedc_generate|].
  unfold eccedc_generate, data_end.
  destruct (type =? 1) eqn:E1; [|destruct (type =? 2) eqn:E2;
                                  [|destruct (type =? 3) eqn:E3]].
  - split; [|intros H; apply Z.eqb_eq in E1; contradiction].
    rewrite zero_fill_inserts, edc_computeblock_inserts.
    rewrite ecc_generate_head by (rewrite ?length_inserts; lia).
    now rewrite !take_inserts_lt by lia.
  - split; [|intros _ H; apply Z.eqb_eq in E2; contradiction].
    rewrite edc_computeblock_inserts.
    rewrite ecc_generate_head by (rewrite ?length_inserts; lia).
    now rewrite take_inserts_lt by lia.
  - split; [|intros _ _ H; apply Z.eqb_eq in E3; contradiction].
    rewrite edc_computeblock_inserts. now rewrite take_inserts_lt by lia.
  - split; reflexivity.
Qed.

Lemma eccedc_generate_keeps_data_witness :
  length (replicate 2352 7) = 2352%nat
  /\ length (eccedc_generate tables (replicate 2352 7) 2) = 2352%nat
  /\ take (data_end 2) (eccedc_generate tables (replicate 2352 7) 2)
     = take (data_end 2) (replicate 2352 7)
  /\ (2 <> 1 -> 2 <> 2 -> 2 <> 3 -> eccedc_generate tables (replicate 2352 7) 2
                                     = replicate 2352 7).
Proof.
  split; [reflexivity|].
  apply (eccedc_generate_keeps_data tables (replicate 2352 7) 2). reflexivity.
Defined.

(** ** Counts that are too large *)


